(** * Payments webhook: the idempotent payment application protocol

    A shallow embedding of the transactional write path
    ([withTx], [PaymentRepository], [PaymentService.handlePayment]) and of
    the in-process sequential [EventQueue], followed by the properties the
    specification states about them.

    Modelling conventions.
    - The field [amount_cents] holds a JavaScript number (an integer,
      another finite number, an infinity or [NaN]) or [null]; a field that
      is absent from the payload object is [None] (JavaScript [undefined]).
    - PostgreSQL is modelled by its effect on two tables.  The driver sends
      every parameter as text and the server reads it by the type of its
      column: a UUID column by the input rule of the type uuid (error 22P02
      for any other text), an INTEGER column as a 32-bit integer (22P02 for
      a text that is no integer, 22003 for one out of range).  The rows of
      the tables hold what was read: uuids in their output form, amounts as
      integers.  SUM over an INTEGER column is a 64-bit integer, which no
      table of fewer than 2^32 rows overflows; it is not bounded here.
      [Number()] rounds a sum beyond 2^53, which changes neither of the
      two comparisons made with it.  Timestamps are left out.
    - Every call to the driver, [pool.connect()] as well as [client.query],
      may raise on its own (no connection within the pool's time limit, a
      connection that is lost): the world carries a schedule of such
      faults, one flag per call, so that failures between two statements
      of one transaction are part of the model.  A call that raises has no
      effect on the tables: a COMMIT that raises commits nothing.
    - Calls are run one after the other on one connection; the row lock of
      FOR UPDATE has nothing to exclude and is not modelled. *)

From Stdlib Require Import ZArith List Lia Ascii.
From stdpp Require Import base option list gmap sets strings.

Local Open Scope string_scope.
Local Open Scope list_scope.
Local Open Scope Z_scope.

(** ** Constants ([constants/payment.ts]) *)

Inductive PaymentType := PaymentReceived.

Inductive InvoiceStatus := Sent | PartiallyPaid | Paid.

#[global] Instance InvoiceStatus_eq_dec : EqDecision InvoiceStatus.
Proof. solve_decision. Defined.

(** ** JavaScript values met by the service *)

(** What [amount_cents] holds when it is present: a number, or [null] from
    a caller the type checker does not see.  A finite number is an integer
    [JsInt z], or an odd multiple of a negative power of two,
    [JsFrac m e] = (2m+1) / 2^e. *)
Inductive JsAmount :=
| JsInt (z : Z)
| JsFrac (m : Z) (e : positive)
| JsInfinity
| JsNegInfinity
| JsNaN
| JsNull.

(** [!v] is false exactly for a present, non-empty string. *)
Definition js_truthy (v : option string) : bool :=
  match v with
  | Some s => negb (String.eqb s "")
  | None => false
  end.

(** [v <= 0]: [null] converts to 0 and [undefined] to [NaN], and every
    comparison with [NaN] is false. *)
Definition js_le_zero (v : option JsAmount) : bool :=
  match v with
  | Some (JsInt z) => z <=? 0
  | Some (JsFrac m e) => 2 * m + 1 <=? 0
  | Some JsInfinity => false
  | Some JsNegInfinity => true
  | Some JsNaN => false
  | Some JsNull => true
  | None => false
  end.

(** The string behind a value the type checker takes for a string. *)
Definition js_string (v : option string) : string := default "" v.

(** ** Errors ([errors/customErrors.ts] and the driver's own) *)

Inductive PgFailure :=
| ConnectionFailure
| InvalidUuid             (* 22P02, invalid input syntax for type uuid *)
| InvalidInteger          (* 22P02, invalid input syntax for type integer *)
| IntegerOutOfRange       (* 22003, value out of range for type integer *)
| NotNullViolation        (* 23502 *)
| CheckViolation          (* 23514 *)
| ForeignKeyViolation.    (* 23503 *)

Inductive Error :=
| BadRequestError (message : string)
| NotFoundError (message : string)
| DatabaseError (reason : PgFailure).

Inductive Outcome (A : Type) :=
| Ok (a : A)
| Err (e : Error).
Arguments Ok {A} a.
Arguments Err {A} e.

(** ** Records ([types/paymentTypes.ts], [repositories/paymentRepository.ts]) *)

Module PaymentPayload.
Record t := mk {
  event_id : option string;
  invoice_id : option string;
  amount_cents : option JsAmount
}.
End PaymentPayload.

Module PaymentRecord.
Record t := mk {
  event_id : string;
  invoice_id : string;
  amount_cents : option JsAmount;
  type : PaymentType
}.
End PaymentRecord.

Module InvoiceRecord.
Record t := mk {
  id : string;
  total_cents : Z;
  status : InvoiceStatus
}.
End InvoiceRecord.

Module Reply.
Record t := mk { status : Z; message : string }.
End Reply.

(** ** Tables ([db/migrations/schema.sql]) *)

Module PaymentRow.
Record t := mk {
  event_id : string;
  invoice_id : string;
  amount_cents : Z;
  type : PaymentType
}.
End PaymentRow.

Module InvoiceRow.
Record t := mk { total_cents : Z; status : InvoiceStatus }.
End InvoiceRow.

(** *** Column types: how the server reads a parameter *)

(** The text of a hexadecimal digit, in lower case. *)
Definition hex_digit (c : ascii) : option ascii :=
  let n := nat_of_ascii c in
  if ((48 <=? n) && (n <=? 57) || (97 <=? n) && (n <=? 102))%nat then Some c
  else if ((65 <=? n) && (n <=? 70))%nat then Some (ascii_of_nat (n + 32))
  else None.

(** The bytes of a uuid, two hexadecimal digits each, [n] of them still to
    be read; a hyphen may follow every second byte but the last. *)
Fixpoint uuid_bytes (n : nat) (s : string) : option (string * string) :=
  match n with
  | O => Some ("", s)
  | S n' =>
      match s with
      | String c1 (String c2 s') =>
          match hex_digit c1, hex_digit c2 with
          | Some d1, Some d2 =>
              let s'' := match s' with
                         | String "-" t => if Nat.even n' && negb (n' =? 0)%nat then t else s'
                         | _ => s'
                         end in
              match uuid_bytes n' s'' with
              | Some (ds, rest) => Some (String d1 (String d2 ds), rest)
              | None => None
              end
          | _, _ => None
          end
      | _ => None
      end
  end.

(** The output form of a uuid: 8-4-4-4-12 digits in lower case. *)
Definition uuid_out (ds : string) : string :=
  String.substring 0 8 ds +:+ "-" +:+ String.substring 8 4 ds +:+ "-" +:+ String.substring 12 4 ds
  +:+ "-" +:+ String.substring 16 4 ds +:+ "-" +:+ String.substring 20 12 ds.

(** How PostgreSQL reads a text as a uuid: sixteen bytes in hexadecimal
    digits of either case, hyphens allowed after any group of four digits,
    the whole optionally in braces.  [None] is error 22P02; otherwise the
    value, in its output form. *)
Definition uuid_in (s : string) : option string :=
  let (braces, body) := match s with
                        | String "{" t => (true, t)
                        | _ => (false, s)
                        end in
  match uuid_bytes 16 body with
  | Some (ds, rest) =>
      if String.eqb rest (if braces : bool then "}" else "") then Some (uuid_out ds) else None
  | None => None
  end.

(** How an INTEGER parameter arrives: the driver sends [null] and
    [undefined] as NULL and a number as the text [toString()] gives, which
    is in exponent notation from 10^21 on; the server reads a 32-bit
    integer. *)
Definition int4_in (v : option JsAmount) : Outcome (option Z) :=
  match v with
  | None | Some JsNull => Ok None
  | Some (JsInt z) =>
      if 1000000000000000000000 <=? Z.abs z then Err (DatabaseError InvalidInteger)
      else if (z <? - 2147483648) || (2147483647 <? z) then Err (DatabaseError IntegerOutOfRange)
      else Ok (Some z)
  | Some _ => Err (DatabaseError InvalidInteger)
  end.

(** *** The two tables *)

(** [invoices] is keyed by its primary key, a uuid; [payments] keeps its
    rows in insertion order, the primary key on [event_id] being enforced
    by the insert statement. *)
Record DB := mkDB {
  invoices : gmap string InvoiceRow.t;
  payments : list PaymentRow.t
}.

Inductive Sql :=
| BEGIN
| COMMIT
| ROLLBACK
| SelectInvoiceForUpdate (id : string)
| InsertPaymentOnConflictDoNothing (rec : PaymentRecord.t)
| SelectSumAmount (invoice_id : string)
| UpdateInvoiceStatus (status : InvoiceStatus) (id : string).

Inductive Row :=
| RInvoice (r : InvoiceRecord.t)
| RPayment (r : PaymentRow.t)
| RTotalPaid (total_paid : option Z).

Record QueryResult := mkResult { rowCount : nat; rows : list Row }.

Definition result_of (rs : list Row) : QueryResult :=
  mkResult (length rs) rs.

Definition payments_of (invoice_id : string) (db : DB) : list PaymentRow.t :=
  filter (λ r, PaymentRow.invoice_id r = invoice_id) (payments db).

Definition sum_amounts (rs : list PaymentRow.t) : Z :=
  foldr (λ r acc, PaymentRow.amount_cents r + acc) 0 rs.

Definition has_event (event_id : string) (db : DB) : bool :=
  existsb (λ r, String.eqb (PaymentRow.event_id r) event_id) (payments db).

(** The rows of SELECT id, total_cents, status FROM invoices WHERE id = [id],
    for a uuid [id]. *)
Definition invoice_rows (id : string) (db : DB) : list Row :=
  match invoices db !! id with
  | Some r =>
      [RInvoice (InvoiceRecord.mk id (InvoiceRow.total_cents r) (InvoiceRow.status r))]
  | None => []
  end.

(** SELECT id, total_cents, status FROM invoices WHERE id = $1 FOR UPDATE *)
Definition select_invoice (id : string) (db : DB) : Outcome (list Row) :=
  match uuid_in id with
  | None => Err (DatabaseError InvalidUuid)
  | Some id => Ok (invoice_rows id db)
  end.

(** INSERT INTO payments ... ON CONFLICT (event_id) DO NOTHING RETURNING *.
    The parameters are read first, in their order; then the column
    constraints are checked on the proposed row, then the conflict on the
    primary key, then the foreign key of a row that is really inserted. *)
Definition insert_payment (rec : PaymentRecord.t) (db : DB)
  : Outcome (list Row * DB) :=
  match uuid_in (PaymentRecord.invoice_id rec) with
  | None => Err (DatabaseError InvalidUuid)
  | Some invoice_id =>
      match int4_in (PaymentRecord.amount_cents rec) with
      | Err e => Err e
      | Ok None => Err (DatabaseError NotNullViolation)
      | Ok (Some z) =>
          if z <=? 0 then Err (DatabaseError CheckViolation)
          else if has_event (PaymentRecord.event_id rec) db then Ok ([], db)
          else match invoices db !! invoice_id with
               | None => Err (DatabaseError ForeignKeyViolation)
               | Some _ =>
                   let row := PaymentRow.mk (PaymentRecord.event_id rec)
                                invoice_id z (PaymentRecord.type rec) in
                   Ok ([RPayment row], mkDB (invoices db) (payments db ++ [row]))
               end
      end
  end.

(** The row of SELECT SUM(amount_cents) as total_paid FROM payments WHERE
    invoice_id = [invoice_id], for a uuid [invoice_id]: its value is NULL
    when no payment matches. *)
Definition sum_rows (invoice_id : string) (db : DB) : list Row :=
  match payments_of invoice_id db with
  | [] => [RTotalPaid None]
  | rs => [RTotalPaid (Some (sum_amounts rs))]
  end.

(** SELECT SUM(amount_cents) as total_paid FROM payments WHERE invoice_id = $1 *)
Definition select_sum (invoice_id : string) (db : DB) : Outcome (list Row) :=
  match uuid_in invoice_id with
  | None => Err (DatabaseError InvalidUuid)
  | Some invoice_id => Ok (sum_rows invoice_id db)
  end.

(** The tables after UPDATE invoices SET status = [status], updated_at = NOW()
    WHERE id = [id], for a uuid [id]. *)
Definition set_status (status : InvoiceStatus) (id : string) (db : DB) : DB :=
  mkDB (alter (λ r, InvoiceRow.mk (InvoiceRow.total_cents r) status) id (invoices db))
       (payments db).

(** UPDATE invoices SET status = $1, updated_at = NOW() WHERE id = $2 *)
Definition update_status (status : InvoiceStatus) (id : string) (db : DB)
  : Outcome (QueryResult * DB) :=
  match uuid_in id with
  | None => Err (DatabaseError InvalidUuid)
  | Some id =>
      Ok (mkResult (if invoices db !! id is Some _ then 1%nat else 0%nat) [],
          set_status status id db)
  end.

(** The effect of a data statement on the tables it sees. *)
Definition exec (q : Sql) (db : DB) : Outcome (QueryResult * DB) :=
  match q with
  | BEGIN | COMMIT | ROLLBACK => Ok (result_of [], db)
  | SelectInvoiceForUpdate id =>
      match select_invoice id db with
      | Ok rs => Ok (result_of rs, db)
      | Err e => Err e
      end
  | InsertPaymentOnConflictDoNothing rec =>
      match insert_payment rec db with
      | Ok (rs, db') => Ok (result_of rs, db')
      | Err e => Err e
      end
  | SelectSumAmount invoice_id =>
      match select_sum invoice_id db with
      | Ok rs => Ok (result_of rs, db)
      | Err e => Err e
      end
  | UpdateInvoiceStatus status id => update_status status id db
  end.

(** ** The world: committed tables, the open transaction, faults, trace *)

Record World := mkWorld {
  store : DB;               (* what every other connection can observe *)
  tx : option DB;           (* the tables as seen inside the open transaction *)
  faults : list bool;       (* [true]: the next call to the driver raises *)
  trace : list Sql          (* every statement sent, in order *)
}.

(** State and exceptions: a computation over a state [Σ] ends normally or
    raises, and returns the state it reached either way. *)
Definition M (Σ A : Type) : Type := Σ → Outcome A * Σ.

Definition ret {Σ A} (a : A) : M Σ A := λ w, (Ok a, w).

Definition throw {Σ A} (e : Error) : M Σ A := λ w, (Err e, w).

Definition bind {Σ A B} (c : M Σ A) (k : A → M Σ B) : M Σ B :=
  λ w, match c w with
       | (Ok a, w') => k a w'
       | (Err e, w') => (Err e, w')
       end.

(** try { c } catch (err) { h err } *)
Definition try_catch {Σ A} (c : M Σ A) (h : Error → M Σ A) : M Σ A :=
  λ w, match c w with
       | (Ok a, w') => (Ok a, w')
       | (Err e, w') => h e w'
       end.

(** try { c } finally { f }, for a block [f] that cannot raise *)
Definition try_finally {Σ A} (c : M Σ A) (f : Σ → Σ) : M Σ A :=
  λ w, match c w with (r, w') => (r, f w') end.

Declare Scope tx_scope.
Delimit Scope tx_scope with tx.
Notation "x <- c ;; k" := (bind c (λ x, k))
  (at level 100, c at next level, right associativity) : tx_scope.
Notation "c ;;; k" := (bind c (λ _, k))
  (at level 100, right associativity) : tx_scope.

(** [pool.connect()]: it raises when the schedule says so, and otherwise
    hands out the connection. *)
Definition pool_connect : M World unit :=
  λ w,
    let w' := mkWorld (store w) (tx w) (tail (faults w)) (trace w) in
    if default false (head (faults w))
    then (Err (DatabaseError ConnectionFailure), w')
    else (Ok tt, w').

(** The transaction after a statement that raised on its own.  COMMIT and
    ROLLBACK end it all the same: a COMMIT that fails has rolled the
    transaction back, and ROLLBACK fails only with the connection, whose
    transaction the server aborts. *)
Definition tx_after_fault (q : Sql) (t : option DB) : option DB :=
  match q with
  | COMMIT | ROLLBACK => None
  | _ => t
  end.

(** [client.query(q)]: the statement is sent; it raises when the schedule
    says so, and otherwise acts on the open transaction (on the committed
    tables when there is none).  BEGIN opens a transaction on the committed
    tables; [withTx] sends it on a connection that has none open
    ([withTx_leaves_no_transaction]). *)
Definition client_query (q : Sql) : M World QueryResult :=
  λ w,
    let sent := trace w ++ [q] in
    let fs := tail (faults w) in
    if default false (head (faults w))
    then (Err (DatabaseError ConnectionFailure),
          mkWorld (store w) (tx_after_fault q (tx w)) fs sent)
    else
      match q with
      | BEGIN => (Ok (result_of []), mkWorld (store w) (Some (store w)) fs sent)
      | COMMIT => (Ok (result_of []), mkWorld (default (store w) (tx w)) None fs sent)
      | ROLLBACK => (Ok (result_of []), mkWorld (store w) None fs sent)
      | _ =>
          match exec q (default (store w) (tx w)) with
          | Ok (res, db') =>
              (Ok res,
               match tx w with
               | Some _ => mkWorld (store w) (Some db') fs sent
               | None => mkWorld db' None fs sent
               end)
          | Err e => (Err e, mkWorld (store w) (tx w) fs sent)
          end
      end.

(** [client.release()]: the connection goes back to the pool as it is,
    with the transaction it may have open. *)
Definition client_release (w : World) : World := w.

(** ** [utils/tx.ts] *)

Definition withTx {A} (fn : M World A) : M World A :=
  (pool_connect ;;;
   try_finally
     (try_catch
        (client_query BEGIN ;;;
         result <- fn ;;
         client_query COMMIT ;;;
         ret result)
        (λ err, client_query ROLLBACK ;;; throw err))
     client_release)%tx.

(** ** [repositories/paymentRepository.ts] *)

Module PaymentRepository.

Definition getInvoiceById (invoiceId : string) : M World (option InvoiceRecord.t) :=
  (res <- client_query (SelectInvoiceForUpdate invoiceId) ;;
   ret (if (rowCount res =? 0)%nat then None
        else match rows res with
             | RInvoice r :: _ => Some r
             | _ => None
             end))%tx.

Definition insertPayment (payment : PaymentRecord.t) : M World (option PaymentRow.t) :=
  (res <- client_query (InsertPaymentOnConflictDoNothing payment) ;;
   ret (if (rowCount res =? 0)%nat then None
        else match rows res with
             | RPayment r :: _ => Some r
             | _ => None
             end))%tx.

(** [Number(res.rows[0].total_paid || 0)]: a NULL sum counts as 0. *)
Definition getTotalPaid (invoiceId : string) : M World Z :=
  (res <- client_query (SelectSumAmount invoiceId) ;;
   ret (match rows res with
        | RTotalPaid total_paid :: _ => default 0 total_paid
        | _ => 0
        end))%tx.

Definition updateInvoiceStatus (invoiceId : string) (status : InvoiceStatus)
  : M World unit :=
  (client_query (UpdateInvoiceStatus status invoiceId) ;;; ret tt)%tx.

End PaymentRepository.

(** ** [services/paymentService.ts] *)

Module PaymentService.
Import PaymentRepository.

Definition checkInvoiceExists (invoiceId : string) : M World bool :=
  withTx (invoice <- getInvoiceById invoiceId ;; ret (bool_decide (invoice ≠ None)))%tx.

(** let newStatus = Sent;
    if (totalPaid >= invoice.total_cents) newStatus = Paid;
    else if (totalPaid > 0) newStatus = PartiallyPaid; *)
Definition newStatus (totalPaid total_cents : Z) : InvoiceStatus :=
  if totalPaid >=? total_cents then Paid
  else if totalPaid >? 0 then PartiallyPaid
  else Sent.

(** The function [handlePayment] hands to [withTx], with the three fields
    it closes over. *)
Definition handlePayment_tx (event_id invoice_id : string)
    (amount_cents : option JsAmount) : M World Reply.t :=
  (invoice <- getInvoiceById invoice_id ;;
   match invoice with
   | None => throw (NotFoundError "Invoice not found")
   | Some invoice =>
       inserted <- insertPayment
                     (PaymentRecord.mk event_id invoice_id amount_cents PaymentReceived) ;;
       match inserted with
       | None => ret (Reply.mk 200 "Payment already processed")
       | Some _ =>
           totalPaid <- getTotalPaid invoice_id ;;
           updateInvoiceStatus invoice_id
             (newStatus totalPaid (InvoiceRecord.total_cents invoice)) ;;;
           ret (Reply.mk 201 "Payment processed")
       end
   end)%tx.

Definition handlePayment (payload : PaymentPayload.t) : M World Reply.t :=
  let event_id := PaymentPayload.event_id payload in
  let invoice_id := PaymentPayload.invoice_id payload in
  let amount_cents := PaymentPayload.amount_cents payload in
  if negb (js_truthy invoice_id) || negb (js_truthy event_id)
  then throw (BadRequestError "Missing required fields")
  else if js_le_zero amount_cents
  then throw (BadRequestError "Amount must be positive")
  else withTx (handlePayment_tx (js_string event_id) (js_string invoice_id) amount_cents).

End PaymentService.

(** Applications one after the other, each on the world the previous one
    left; outcomes are dropped, as the queue's handler does. *)
Definition apply_payments (ps : list PaymentPayload.t) (w : World) : World :=
  foldl (λ w p, snd (PaymentService.handlePayment p w)) w ps.

(** ** [queue/eventQueue.ts] *)

Module EventQueue.

(** What the queue leaves behind: its console lines, and two markers for
    the points where an event enters the backlog and where the handler is
    called with it. *)
Inductive Entry (T : Type) :=
| Pushed (event : T)                        (* this.queue.push(event) *)
| Skipped (eventId : string)                (* console.log: already processed, skipping *)
| Called (event : T)                        (* this.handler(event) *)
| Processed (eventId : string)              (* console.log: processed successfully *)
| Failed (eventId : string) (err : Error).  (* console.error: error processing event *)
Arguments Pushed {T} event.
Arguments Skipped {T} eventId.
Arguments Called {T} event.
Arguments Processed {T} eventId.
Arguments Failed {T} eventId err.

(** The fields of the class, the [processNext] call suspended at its
    [await] (with the event it holds), and the journal. *)
Record t (T : Type) := mk {
  queue : list T;
  processing : bool;
  processedEvents : gset string;
  awaiting : option T;
  journal : list (Entry T)
}.
Arguments mk {T} queue processing processedEvents awaiting journal.
Arguments queue {T} _.
Arguments processing {T} _.
Arguments processedEvents {T} _.
Arguments awaiting {T} _.
Arguments journal {T} _.

(** What the caller and the handler's promise can do to a queue. *)
Inductive Action (T : Type) :=
| Enqueue (event : T)
| Settle (r : Outcome unit).
Arguments Enqueue {T} event.
Arguments Settle {T} r.

Section WithPayload.
Context {T : Type}.
(** [(event as any).event_id] *)
Variable event_id_of : T → option string.

Definition new : t T := mk [] false ∅ None [].

Definition note (e : Entry T) (q : t T) : t T :=
  mk (queue q) (processing q) (processedEvents q) (awaiting q) (journal q ++ [e]).

(** [(event as any).event_id || 'unknown'] *)
Definition getEventId (event : T) : string :=
  match event_id_of event with
  | Some s => if String.eqb s "" then "unknown" else s
  | None => "unknown"
  end.

Definition push (event : T) (q : t T) : t T :=
  note (Pushed event)
    (mk (queue q ++ [event]) (processing q) (processedEvents q) (awaiting q) (journal q)).

(** [processNext] up to its [await]: the guard, the flag, the shift and
    the call of the handler. *)
Definition processNext (q : t T) : t T :=
  if processing q || (length (queue q) =? 0)%nat then q
  else match queue q with
       | [] => q
       | event :: rest =>
           note (Called event)
             (mk rest true (processedEvents q) (Some event) (journal q))
       end.

Definition enqueue (event : T) (q : t T) : t T :=
  let eventId := getEventId event in
  if bool_decide (eventId ∈ processedEvents q) then note (Skipped eventId) q
  else processNext (push event q).

Definition markProcessed (eventId : string) : M (t T) unit :=
  λ q, (Ok tt,
        note (Processed eventId)
          (mk (queue q) (processing q) ({[eventId]} ∪ processedEvents q)
             (awaiting q) (journal q))).

Definition reportFailure (eventId : string) (err : Error) : M (t T) unit :=
  λ q, (Ok tt, note (Failed eventId err) q).

(** The [finally] block. *)
Definition release (q : t T) : t T :=
  let q' := mk (queue q) false (processedEvents q) (awaiting q) (journal q) in
  if (0 <? length (queue q'))%nat then processNext q' else q'.

(** [processNext] from its [await] on, once the handler's promise has
    settled with [r]; the outcome is how the promise of [processNext]
    itself settles. *)
Definition resume (event : T) (r : Outcome unit) : M (t T) unit :=
  let eventId := getEventId event in
  try_finally
    (try_catch
       ((λ q, (r, q)) ;;; markProcessed eventId)%tx
       (λ err, reportFailure eventId err))
    release.

Definition settle (r : Outcome unit) (q : t T) : Outcome unit * t T :=
  match awaiting q with
  | None => (Ok tt, q)
  | Some event =>
      resume event r
        (mk (queue q) (processing q) (processedEvents q) None (journal q))
  end.

Definition isEventProcessed (eventId : string) (q : t T) : bool :=
  bool_decide (eventId ∈ processedEvents q).

Definition getQueueStats (q : t T) : nat * nat * bool :=
  (length (queue q), size (processedEvents q), processing q).

Definition step (q : t T) (a : Action T) : t T :=
  match a with
  | Enqueue event => enqueue event q
  | Settle r => snd (settle r q)
  end.

Definition run (acts : list (Action T)) (q : t T) : t T := foldl step q acts.

(** Readings of the journal. *)
Definition pushed_events (l : list (Entry T)) : list T :=
  omap (λ e, match e with Pushed ev => Some ev | _ => None end) l.

Definition called_events (l : list (Entry T)) : list T :=
  omap (λ e, match e with Called ev => Some ev | _ => None end) l.

(** The number of handler invocations that are in flight at the end of
    a journal whose first entry finds [n] of them in flight. *)
Fixpoint in_flight (n : nat) (l : list (Entry T)) : nat :=
  match l with
  | [] => n
  | Called _ :: l' => in_flight (S n) l'
  | Processed _ :: l' | Failed _ _ :: l' => in_flight (pred n) l'
  | _ :: l' => in_flight n l'
  end.

Definition flying (cur : option T) : nat := if cur is Some _ then 1%nat else 0%nat.

(** The entry that closes the invocation of the handler for [eventId]. *)
Definition settles (eventId : string) (e : Entry T) : Prop :=
  e = Processed eventId ∨ ∃ err, e = Failed eventId err.

(** A journal is read from the left with the event whose handler is in
    flight, if any.  The reading breaks off ([None]) when the handler is
    called while an invocation is in flight, or when an invocation is
    closed that is not the one in flight. *)
Fixpoint handshake (cur : option T) (l : list (Entry T)) : option (option T) :=
  match l with
  | [] => Some cur
  | Called event :: l' =>
      match cur with
      | None => handshake (Some event) l'
      | Some _ => None
      end
  | Processed eventId :: l' | Failed eventId _ :: l' =>
      match cur with
      | Some event =>
          if String.eqb (getEventId event) eventId then handshake None l' else None
      | None => None
      end
  | _ :: l' => handshake cur l'
  end.

(** What holds of every queue built from [new] by [enqueue] and by the
    settling of the handler's promise. *)
Record invariant (q : t T) : Prop := {
  inv_handshake : handshake None (journal q) = Some (awaiting q);
  inv_processing : processing q = bool_decide (is_Some (awaiting q));
  inv_idle : processing q = false → queue q = [];
  inv_fifo : pushed_events (journal q) = called_events (journal q) ++ queue q;
  inv_processed : ∀ eventId, eventId ∈ processedEvents q → Processed eventId ∈ journal q
}.

End WithPayload.
End EventQueue.

(** ** [worker/paymentActor.ts] *)

Module PaymentActor.

Definition handler (payload : PaymentPayload.t) : M World unit :=
  (result <- PaymentService.handlePayment payload ;; ret tt)%tx.

(** The queue of payment events together with the database it drains to:
    [deliver] lets the handler in flight run to its end. *)
Definition paymentQueue : Type := EventQueue.t PaymentPayload.t * World.

Definition enqueue (payload : PaymentPayload.t) (s : paymentQueue) : paymentQueue :=
  (EventQueue.enqueue PaymentPayload.event_id payload (fst s), snd s).

Definition deliver (s : paymentQueue) : paymentQueue :=
  match EventQueue.awaiting (fst s) with
  | None => s
  | Some payload =>
      let (r, w) := handler payload (snd s) in
      (snd (EventQueue.settle PaymentPayload.event_id r (fst s)), w)
  end.

End PaymentActor.

(** ** The queue before it kept a processed-set (an earlier [eventQueue.ts]) *)

Module EventQueue0.

(** The fields of the class, the suspended [processNext] call, and the
    errors printed by [console.error]. *)
Record t (T : Type) := mk {
  queue : list T;
  processing : bool;
  awaiting : option T;
  console : list Error
}.
Arguments mk {T} queue processing awaiting console.
Arguments queue {T} _.
Arguments processing {T} _.
Arguments awaiting {T} _.
Arguments console {T} _.

Section WithPayload.
Context {T : Type}.

Definition new : t T := mk [] false None [].

Definition processNext (q : t T) : t T :=
  if processing q || (length (queue q) =? 0)%nat then q
  else match queue q with
       | [] => q
       | event :: rest => mk rest true (Some event) (console q)
       end.

Definition enqueue (event : T) (q : t T) : t T :=
  processNext (mk (queue q ++ [event]) (processing q) (awaiting q) (console q)).

Definition reportFailure (err : Error) : M (t T) unit :=
  λ q, (Ok tt, mk (queue q) (processing q) (awaiting q) (console q ++ [err])).

Definition release (q : t T) : t T :=
  let q' := mk (queue q) false (awaiting q) (console q) in
  if (0 <? length (queue q'))%nat then processNext q' else q'.

Definition resume (r : Outcome unit) : M (t T) unit :=
  try_finally (try_catch (λ q, (r, q)) reportFailure) release.

Definition settle (r : Outcome unit) (q : t T) : Outcome unit * t T :=
  match awaiting q with
  | None => (Ok tt, q)
  | Some _ => resume r (mk (queue q) (processing q) None (console q))
  end.

Definition step (q : t T) (a : EventQueue.Action T) : t T :=
  match a with
  | EventQueue.Enqueue event => enqueue event q
  | EventQueue.Settle r => snd (settle r q)
  end.

Definition run (acts : list (EventQueue.Action T)) (q : t T) : t T := foldl step q acts.

End WithPayload.
End EventQueue0.

(** ** [routes/payments.ts], in the two versions that check the invoice
    themselves

    The handler runs after [validateBody] has let the request through, on
    [request.validatedBody]; a reply is its status code and its body. *)

Module HttpReply.
Inductive Body :=
| Message (message : string) (event_id : option string)
| Failure (error : string) (type : string).
Record t := mk { status : Z; body : Body }.
End HttpReply.

Module PaymentsRoute.
Import PaymentRepository.

(** A database computation, run from a request handler. *)
Definition in_world {A} (c : M World A) : M PaymentActor.paymentQueue A :=
  λ s, let (r, w) := c (snd s) in (r, (fst s, w)).

(** [`Invoice ${payload.invoice_id} not found`] *)
Definition invoiceNotFound (payload : PaymentPayload.t) : string :=
  "Invoice " +:+ default "undefined" (PaymentPayload.invoice_id payload) +:+ " not found".

Definition invoiceExists (payload : PaymentPayload.t) : M PaymentActor.paymentQueue bool :=
  in_world
    (withTx
       (invoice <- getInvoiceById (js_string (PaymentPayload.invoice_id payload)) ;;
        ret (bool_decide (invoice ≠ None)))%tx).

Definition queued (payload : PaymentPayload.t) : HttpReply.t :=
  HttpReply.mk 202
    (HttpReply.Message "Payment queued for processing" (PaymentPayload.event_id payload)).

(** The [catch] block of the handler (the line it writes to the server log
    is left out). *)
Definition onError (error : Error) : M PaymentActor.paymentQueue HttpReply.t :=
  match error with
  | BadRequestError message =>
      ret (HttpReply.mk 400 (HttpReply.Failure message "validation_error"))
  | NotFoundError message =>
      ret (HttpReply.mk 404 (HttpReply.Failure message "not_found"))
  | _ => ret (HttpReply.mk 500 (HttpReply.Failure "Internal server error" "server_error"))
  end.

(** The handler that answers 404 itself and enqueues without asking the
    queue. *)
Definition paymentsRoute1 (payload : PaymentPayload.t)
  : M PaymentActor.paymentQueue HttpReply.t :=
  try_catch
    (exists_ <- invoiceExists payload ;;
     if negb exists_
     then ret (HttpReply.mk 404 (HttpReply.Failure (invoiceNotFound payload) "not_found"))
     else λ s, (Ok (queued payload), PaymentActor.enqueue payload s))%tx
    onError.

(** [paymentQueue.isEventProcessed(payload.event_id)]; no string is
    [undefined]. *)
Definition isEventProcessed (payload : PaymentPayload.t) (s : PaymentActor.paymentQueue)
  : bool :=
  match PaymentPayload.event_id payload with
  | Some eventId => EventQueue.isEventProcessed eventId (fst s)
  | None => false
  end.

(** The handler that raises [NotFoundError] and asks the queue first. *)
Definition paymentsRoute (payload : PaymentPayload.t)
  : M PaymentActor.paymentQueue HttpReply.t :=
  try_catch
    (exists_ <- invoiceExists payload ;;
     if negb exists_ then throw (NotFoundError (invoiceNotFound payload))
     else
       λ s,
         if isEventProcessed payload s
         then (Ok (HttpReply.mk 200
                     (HttpReply.Message "Payment already processed"
                        (PaymentPayload.event_id payload))), s)
         else (Ok (queued payload), PaymentActor.enqueue payload s))%tx
    onError.

End PaymentsRoute.

(** ** The running service: requests arrive, handlers finish *)

Module PaymentSystem.

Inductive Action :=
| Request (payload : PaymentPayload.t)
| Deliver.

Definition step (s : PaymentActor.paymentQueue) (a : Action) : PaymentActor.paymentQueue :=
  match a with
  | Request payload => snd (PaymentsRoute.paymentsRoute payload s)
  | Deliver => PaymentActor.deliver s
  end.

Definition run (acts : list Action) (s : PaymentActor.paymentQueue)
  : PaymentActor.paymentQueue :=
  foldl step s acts.

End PaymentSystem.


(** ** Vocabulary of the statements below *)

(** A payload that passes validation and that the columns of [schema.sql]
    can hold: a non-empty event identifier, an invoice identifier that
    reads as a uuid, and a positive integer amount within INTEGER.  Every
    payload that [paymentSchema] lets through is one, provided its amount
    is within INTEGER: the text that [z.string().uuid()] accepts reads as a
    uuid. *)
Definition valid_payload (p : PaymentPayload.t) : Prop :=
  ∃ eid iid z,
    p = PaymentPayload.mk (Some eid) (Some iid) (Some (JsInt z))
    ∧ eid ≠ "" ∧ is_Some (uuid_in iid) ∧ 0 < z <= 2147483647.

Definition payment_row (eid iid : string) (z : Z) : PaymentRow.t :=
  PaymentRow.mk eid iid z PaymentReceived.

Definition record_payment (eid iid : string) (z : Z) (db : DB) : DB :=
  mkDB (invoices db) (payments db ++ [payment_row eid iid z]).

(** The sum of the amounts recorded against the invoice of uuid [id]. *)
Definition paid (id : string) (db : DB) : Z :=
  sum_amounts (payments_of id db).

(** The tables after a payment is recorded against the invoice of uuid
    [id] and the status recomputed. *)
Definition apply_payment (eid id : string) (z total : Z) (db : DB) : DB :=
  let db1 := record_payment eid id z db in
  set_status (PaymentService.newStatus (paid id db1) total) id db1.

(** The invoice an identifier names: the row whose [id] is the uuid the
    identifier reads as. *)
Definition find_invoice (iid : string) (db : DB) : option InvoiceRow.t :=
  uuid_in iid ≫= λ id, invoices db !! id.

(** Cumulative paid: the sum of the amounts recorded against the invoice
    an identifier names. *)
Definition cumulative_paid (iid : string) (db : DB) : Z :=
  match uuid_in iid with
  | Some id => paid id db
  | None => 0
  end.

Definition status_of (iid : string) (db : DB) : option InvoiceStatus :=
  InvoiceRow.status <$> find_invoice iid db.

Definition count_event (eid : string) (db : DB) : nat :=
  length (filter (λ r, PaymentRow.event_id r = eid) (payments db)).

Definition is_update (q : Sql) : bool :=
  match q with UpdateInvoiceStatus _ _ => true | _ => false end.

Definition status_rank (s : InvoiceStatus) : Z :=
  match s with Sent => 0 | PartiallyPaid => 1 | Paid => 2 end.

(** sent → partially_paid → paid *)
Definition status_le (s1 s2 : InvoiceStatus) : Prop :=
  status_rank s1 <= status_rank s2.

(** CHECK (amount_cents > 0) on the payments table. *)
Definition amounts_positive (db : DB) : Prop :=
  Forall (λ r, 0 < PaymentRow.amount_cents r) (payments db).

(** The invoice an identifier names is not marked further along than its
    recorded payments allow. *)
Definition status_not_ahead (iid : string) (db : DB) : Prop :=
  ∀ inv, find_invoice iid db = Some inv →
    status_le (InvoiceRow.status inv)
      (PaymentService.newStatus (cumulative_paid iid db) (InvoiceRow.total_cents inv)).

(** The status of the invoice an identifier names is the one its recorded
    payments give. *)
Definition status_exact (iid : string) (db : DB) : Prop :=
  ∀ inv, find_invoice iid db = Some inv →
    InvoiceRow.status inv
    = PaymentService.newStatus (cumulative_paid iid db) (InvoiceRow.total_cents inv).

(** What a payload adds to the cumulative paid amount of its invoice when
    it is applied to tables [db]: its amount, unless its event identifier
    is already recorded. *)
Definition new_amount (db : DB) (p : PaymentPayload.t) : Z :=
  match PaymentPayload.event_id p, PaymentPayload.amount_cents p with
  | Some eid, Some (JsInt z) => if has_event eid db then 0 else z
  | _, _ => 0
  end.

Definition total_new_amount (db : DB) (ps : list PaymentPayload.t) : Z :=
  foldr (λ p acc, new_amount db p + acc) 0 ps.

(** The world right after [pool.connect()] and a [BEGIN] that went
    through. *)
Definition begun (w : World) : World :=
  mkWorld (store w) (Some (store w)) (tail (tail (faults w))) (trace w ++ [BEGIN]).

(** A computation that, run inside a transaction, stays inside it and
    leaves the committed tables alone. *)
Definition tx_local {A} (fn : M World A) : Prop :=
  ∀ w d, tx w = Some d → store (snd (fn w)) = store w ∧ is_Some (tx (snd (fn w))).

Definition data_statement (q : Sql) : Prop :=
  match q with BEGIN | COMMIT | ROLLBACK => False | _ => True end.

Definition invoice_record (id : string) (r : InvoiceRow.t) : InvoiceRecord.t :=
  InvoiceRecord.mk id (InvoiceRow.total_cents r) (InvoiceRow.status r).

Definition next_fault (fs : list bool) : bool := default false (head fs).

(** What ROLLBACK and the re-raise of the [catch] block leave: the error
    of the function, unless ROLLBACK itself raises. *)
Definition rolled_back {A} (e : Error) (w1 : World) : Outcome A * World :=
  (Err (if next_fault (faults w1) then DatabaseError ConnectionFailure else e),
   mkWorld (store w1) None (tail (faults w1)) (trace w1 ++ [ROLLBACK])).

(** A valid payload whose invoice is in the tables. *)
Definition payable (db : DB) (p : PaymentPayload.t) : Prop :=
  valid_payload p
  ∧ ∃ iid, PaymentPayload.invoice_id p = Some iid ∧ is_Some (find_invoice iid db).

(** The invoice the payload names is in the tables. *)
Definition invoice_known (db : DB) (p : PaymentPayload.t) : Prop :=
  is_Some (find_invoice (js_string (PaymentPayload.invoice_id p)) db).

(** Every event the queue has accepted is for an invoice of the tables. *)
Definition queue_is_backed (s : PaymentActor.paymentQueue) : Prop :=
  EventQueue.invariant PaymentPayload.event_id (fst s)
  ∧ ∀ p, p ∈ EventQueue.pushed_events (EventQueue.journal (fst s)) →
         invoice_known (store (snd s)) p.

(** PRIMARY KEY (event_id) on the payments table. *)
Definition event_ids_unique (db : DB) : Prop :=
  NoDup (PaymentRow.event_id <$> payments db).

(** REFERENCES invoices(id) on the payments table. *)
Definition invoices_referenced (db : DB) : Prop :=
  Forall (λ r, is_Some (invoices db !! PaymentRow.invoice_id r)) (payments db).

(** The constraints of [schema.sql] that bear on the two tables. *)
Definition schema_ok (db : DB) : Prop :=
  event_ids_unique db ∧ amounts_positive db ∧ invoices_referenced db.

(** The number of handler invocations a queue still owes: the one in
    flight and the backlog behind it. *)
Definition owed {T} (q : EventQueue.t T) : nat :=
  if EventQueue.processing q then S (length (EventQueue.queue q)) else 0%nat.

(** The errors a journal reports, in order. *)
Definition reported_errors {T} (l : list (EventQueue.Entry T)) : list Error :=
  omap (λ e, match e with EventQueue.Failed _ err => Some err | _ => None end) l.

(** The number of events a journal reports as skipped. *)
Definition skips {T} (l : list (EventQueue.Entry T)) : nat :=
  length (omap (λ e, match e with EventQueue.Skipped eventId => Some eventId | _ => None end) l).

(** A queue with its processed-set and its journal forgotten, as the
    earlier version of the class sees it. *)
Definition erase {T} (q : EventQueue.t T) : EventQueue0.t T :=
  EventQueue0.mk (EventQueue.queue q) (EventQueue.processing q) (EventQueue.awaiting q)
    (reported_errors (EventQueue.journal q)).

(** ** The payment service *)

Section PaymentServiceFacts.
Import PaymentRepository PaymentService.

Lemma total_of_sum_rows id db :
  match rows (result_of (sum_rows id db)) with
  | RTotalPaid total_paid :: _ => default 0 total_paid
  | _ => 0
  end = paid id db.
Proof.
  unfold sum_rows, paid. destruct (payments_of id db); reflexivity.
Qed.

Lemma js_truthy_inv v : js_truthy v = true → ∃ s, v = Some s ∧ s ≠ "".
Proof.
  destruct v as [s|]; simpl; [|discriminate].
  intros H. exists s. split; [reflexivity|].
  intros ->. discriminate.
Qed.

Lemma js_truthy_intro s : s ≠ "" → js_truthy (Some s) = true.
Proof.
  intros H. simpl. destruct (String.eqb_spec s ""); [contradiction|reflexivity].
Qed.

Lemma uuid_in_nonempty s : is_Some (uuid_in s) → s ≠ "".
Proof. intros [u Hu] ->. discriminate Hu. Qed.

(** *** Parameters as the server reads them *)

Lemma int4_in_value v z :
  int4_in v = Ok (Some z) ↔ v = Some (JsInt z) ∧ - 2147483648 <= z <= 2147483647.
Proof.
  unfold int4_in. split.
  - destruct v as [[z'| | | | |]|]; try discriminate.
    destruct (Z.leb_spec 1000000000000000000000 (Z.abs z')); [discriminate|].
    destruct (Z.ltb_spec z' (- 2147483648)); [discriminate|].
    destruct (Z.ltb_spec 2147483647 z'); [discriminate|].
    cbn. intros [= ->]. split; [reflexivity|lia].
  - intros [-> Hz].
    destruct (Z.leb_spec 1000000000000000000000 (Z.abs z)); [lia|].
    destruct (Z.ltb_spec z (- 2147483648)); [lia|].
    destruct (Z.ltb_spec 2147483647 z); [lia|]. reflexivity.
Qed.

Lemma int4_in_error v e : int4_in v = Err e → ∃ reason, e = DatabaseError reason.
Proof.
  unfold int4_in. destruct v as [[z'| | | | |]|]; try discriminate;
    try (intros [= <-]; eauto).
  destruct (_ <=? _); [intros [= <-]; eauto|].
  destruct (_ || _); [intros [= <-]; eauto|discriminate].
Qed.

(** *** The monad inside a transaction *)

Lemma tx_local_ret {A} (a : A) : tx_local (ret a).
Proof. intros w d H. simpl. eauto. Qed.

Lemma tx_local_throw {A} e : tx_local (@throw World A e).
Proof. intros w d H. simpl. eauto. Qed.

Lemma tx_local_bind {A B} (c : M World A) (k : A → M World B) :
  tx_local c → (∀ a, tx_local (k a)) → tx_local (bind c k).
Proof.
  intros Hc Hk w d H. unfold bind.
  destruct (Hc w d H) as [Hs [d' Hd']].
  destruct (c w) as [[a|e] w1]; simpl in *.
  - destruct (Hk a w1 d' Hd') as [Hs' Ht']. split; [congruence|assumption].
  - eauto.
Qed.

Lemma tx_local_query q : data_statement q → tx_local (client_query q).
Proof.
  intros Hq w d H. unfold client_query. rewrite H.
  destruct (default false (head (faults w))); cbn [snd store tx].
  { destruct q; try contradiction; cbn; eauto. }
  change (default (store w) (Some d)) with d.
  destruct q; try contradiction;
    match goal with |- context [exec ?q d] => destruct (exec q d) as [[res db']|e] end;
    cbn [snd store tx]; eauto.
Qed.

Lemma tx_local_handlePayment_tx eid iid amt : tx_local (handlePayment_tx eid iid amt).
Proof.
  unfold handlePayment_tx, getInvoiceById, insertPayment, getTotalPaid, updateInvoiceStatus.
  repeat first
    [ apply tx_local_bind; [|intros ?]
    | apply tx_local_query; exact I
    | apply tx_local_ret | apply tx_local_throw
    | match goal with |- tx_local (match ?x with _ => _ end) => destruct x end ].
Qed.

(** *** [withTx], path by path *)

Lemma withTx_run {A} (fn : M World A) w :
  withTx fn w =
  if next_fault (faults w)
  then (Err (DatabaseError ConnectionFailure),
        mkWorld (store w) (tx w) (tail (faults w)) (trace w))
  else if next_fault (tail (faults w))
  then rolled_back (DatabaseError ConnectionFailure)
         (mkWorld (store w) (tx w) (tail (tail (faults w))) (trace w ++ [BEGIN]))
  else match fn (begun w) with
       | (Ok a, w1) =>
           if next_fault (faults w1)
           then rolled_back (DatabaseError ConnectionFailure)
                  (mkWorld (store w1) None (tail (faults w1)) (trace w1 ++ [COMMIT]))
           else (Ok a, mkWorld (default (store w1) (tx w1)) None (tail (faults w1))
                         (trace w1 ++ [COMMIT]))
       | (Err e, w1) => rolled_back e w1
       end.
Proof.
  unfold withTx, try_finally, try_catch, bind, ret, throw, pool_connect, client_query,
    client_release, rolled_back, next_fault.
  cbn [store tx faults trace tx_after_fault].
  destruct (default false (head (faults w))); [reflexivity|]. simpl.
  destruct (default false (head (tail (faults w)))); simpl.
  { destruct (default false (head (tail (tail (faults w))))); reflexivity. }
  fold (begun w). destruct (fn (begun w)) as [[a|e] w1]; simpl.
  - destruct (default false (head (faults w1))); simpl; [|reflexivity].
    destruct (default false (head (tail (faults w1)))); reflexivity.
  - destruct (default false (head (faults w1))); reflexivity.
Qed.

(** *** [withTx] commits on a normal return and rolls back otherwise *)

Lemma withTx_atomic {A} (fn : M World A) w :
  tx_local fn →
  match withTx fn w with
  | (Ok a, w') =>
      tx w' = None ∧ ∃ w1, fn (begun w) = (Ok a, w1) ∧ tx w1 = Some (store w')
  | (Err e, w') => store w' = store w
  end.
Proof.
  intros Hfn. rewrite withTx_run. unfold rolled_back.
  destruct (next_fault (faults w)); [reflexivity|].
  destruct (next_fault (tail (faults w))); [reflexivity|].
  destruct (Hfn (begun w) (store w) eq_refl) as [Hs [d Hd]].
  destruct (fn (begun w)) as [[a|e] w1] eqn:Hrun; cbn [snd] in *.
  - destruct (next_fault (faults w1)); cbn [store tx]; [assumption|].
    rewrite Hd. cbn. eauto.
  - assumption.
Qed.

Lemma withTx_propagates {A} (fn : M World A) w e w1 :
  next_fault (faults w) = false → next_fault (tail (faults w)) = false →
  fn (begun w) = (Err e, w1) →
  fst (withTx fn w) = Err (if next_fault (faults w1)
                          then DatabaseError ConnectionFailure else e).
Proof.
  intros Hc Hb Hrun. rewrite withTx_run, Hc, Hb, Hrun. reflexivity.
Qed.

Lemma withTx_errors {A} (fn : M World A) w e :
  fst (withTx fn w) = Err e →
  e = DatabaseError ConnectionFailure ∨ ∃ w1, fn (begun w) = (Err e, w1).
Proof.
  rewrite withTx_run. unfold rolled_back.
  destruct (next_fault (faults w)); [intros [= <-]; auto|].
  destruct (next_fault (tail (faults w))); cbn [fst].
  { destruct (next_fault _); intros [= <-]; auto. }
  destruct (fn (begun w)) as [[a|e'] w1].
  - destruct (next_fault (faults w1)); cbn [fst]; [|discriminate].
    destruct (next_fault _); intros [= <-]; auto.
  - cbn [fst]. destruct (next_fault (faults w1)); intros [= <-]; eauto.
Qed.

Lemma withTx_commit {A} (fn : M World A) w a w1 :
  faults w = [] →
  fn (begun w) = (Ok a, w1) →
  next_fault (faults w1) = false →
  withTx fn w
  = (Ok a, mkWorld (default (store w1) (tx w1)) None (tail (faults w1))
             (trace w1 ++ [COMMIT])).
Proof.
  intros Hf Hrun Hc. rewrite withTx_run, Hf. cbn [next_fault head tail default].
  rewrite Hrun, Hc. reflexivity.
Qed.

Lemma withTx_rollback {A} (fn : M World A) w e w1 :
  faults w = [] →
  fn (begun w) = (Err e, w1) →
  next_fault (faults w1) = false →
  withTx fn w
  = (Err e, mkWorld (store w1) None (tail (faults w1)) (trace w1 ++ [ROLLBACK])).
Proof.
  intros Hf Hrun Hc. rewrite withTx_run, Hf. cbn [next_fault head tail default].
  rewrite Hrun. unfold rolled_back. rewrite Hc. reflexivity.
Qed.

Lemma begun_quiet st t tr :
  begun (mkWorld st t [] tr) = mkWorld st (Some st) [] (tr ++ [BEGIN]).
Proof. reflexivity. Qed.

Lemma withTx_trace {A} (fn : M World A) w :
  ∃ ctl,
    Forall (λ q, is_update q = false) ctl
    ∧ (trace (snd (withTx fn w)) = trace w ++ ctl
       ∨ trace (snd (withTx fn w)) = trace (snd (fn (begun w))) ++ ctl).
Proof.
  rewrite withTx_run. unfold rolled_back.
  destruct (next_fault (faults w)); cbn [snd trace].
  { exists []. split; [constructor|]. left. symmetry. apply app_nil_r. }
  destruct (next_fault (tail (faults w))); cbn [snd trace].
  { exists [BEGIN; ROLLBACK]. split; [repeat constructor|]. left.
    rewrite <- app_assoc. reflexivity. }
  destruct (fn (begun w)) as [[a|e] w1]; cbn [snd trace].
  - destruct (next_fault (faults w1)); cbn [snd trace].
    + exists [COMMIT; ROLLBACK]. split; [repeat constructor|]. right.
      rewrite <- app_assoc. reflexivity.
    + exists [COMMIT]. split; [repeat constructor|]. right. reflexivity.
  - exists [ROLLBACK]. split; [repeat constructor|]. right. reflexivity.
Qed.

(** *** The repository inside a transaction *)

Lemma getInvoiceById_run id st d fs tr :
  getInvoiceById id (mkWorld st (Some d) fs tr) =
  (if next_fault fs then Err (DatabaseError ConnectionFailure)
   else match uuid_in id with
        | None => Err (DatabaseError InvalidUuid)
        | Some u => Ok (invoice_record u <$> invoices d !! u)
        end,
   mkWorld st (Some d) (tail fs) (tr ++ [SelectInvoiceForUpdate id])).
Proof.
  unfold getInvoiceById, bind, ret, client_query, next_fault.
  cbn [store tx faults trace tx_after_fault].
  destruct (default false (head fs)); [reflexivity|].
  change (default st (Some d)) with d. cbn [exec]. unfold select_invoice.
  destruct (uuid_in id) as [u|]; [|reflexivity].
  unfold invoice_rows. destruct (invoices d !! u); reflexivity.
Qed.

Lemma insertPayment_run rec st d fs tr :
  insertPayment rec (mkWorld st (Some d) fs tr) =
  if next_fault fs
  then (Err (DatabaseError ConnectionFailure),
        mkWorld st (Some d) (tail fs) (tr ++ [InsertPaymentOnConflictDoNothing rec]))
  else match insert_payment rec d with
       | Ok (rs, d') =>
           (Ok (match rs with RPayment r :: _ => Some r | _ => None end),
            mkWorld st (Some d') (tail fs) (tr ++ [InsertPaymentOnConflictDoNothing rec]))
       | Err e =>
           (Err e, mkWorld st (Some d) (tail fs) (tr ++ [InsertPaymentOnConflictDoNothing rec]))
       end.
Proof.
  unfold insertPayment, bind, ret, client_query, next_fault.
  cbn [store tx faults trace tx_after_fault].
  destruct (default false (head fs)); [reflexivity|].
  change (default st (Some d)) with d. cbn [exec].
  destruct (insert_payment rec d) as [[rs d']|e]; [|reflexivity].
  destruct rs as [|[]]; reflexivity.
Qed.

Lemma getTotalPaid_run id st d fs tr :
  getTotalPaid id (mkWorld st (Some d) fs tr) =
  (if next_fault fs then Err (DatabaseError ConnectionFailure)
   else match uuid_in id with
        | None => Err (DatabaseError InvalidUuid)
        | Some u => Ok (paid u d)
        end,
   mkWorld st (Some d) (tail fs) (tr ++ [SelectSumAmount id])).
Proof.
  unfold getTotalPaid, bind, ret, client_query, next_fault.
  cbn [store tx faults trace tx_after_fault].
  destruct (default false (head fs)); [reflexivity|].
  change (default st (Some d)) with d. cbn [exec]. unfold select_sum.
  destruct (uuid_in id) as [u|]; [|reflexivity].
  f_equal. f_equal. apply total_of_sum_rows.
Qed.

Lemma updateInvoiceStatus_run id s st d fs tr :
  updateInvoiceStatus id s (mkWorld st (Some d) fs tr) =
  if next_fault fs
  then (Err (DatabaseError ConnectionFailure),
        mkWorld st (Some d) (tail fs) (tr ++ [UpdateInvoiceStatus s id]))
  else match uuid_in id with
       | None => (Err (DatabaseError InvalidUuid),
                  mkWorld st (Some d) (tail fs) (tr ++ [UpdateInvoiceStatus s id]))
       | Some u => (Ok tt, mkWorld st (Some (set_status s u d)) (tail fs)
                             (tr ++ [UpdateInvoiceStatus s id]))
       end.
Proof.
  unfold updateInvoiceStatus, bind, ret, client_query, next_fault.
  cbn [store tx faults trace tx_after_fault].
  destruct (default false (head fs)); [reflexivity|].
  change (default st (Some d)) with d. cbn [exec]. unfold update_status.
  destruct (uuid_in id) as [u|]; reflexivity.
Qed.

Lemma insert_payment_cases rec d :
  match insert_payment rec d with
  | Ok (rs, d') =>
      ∃ u z,
        uuid_in (PaymentRecord.invoice_id rec) = Some u
        ∧ PaymentRecord.amount_cents rec = Some (JsInt z) ∧ 0 < z <= 2147483647
        ∧ ((rs = [] ∧ d' = d ∧ has_event (PaymentRecord.event_id rec) d = true)
           ∨ (∃ inv,
                 has_event (PaymentRecord.event_id rec) d = false
                 ∧ invoices d !! u = Some inv
                 ∧ rs = [RPayment (PaymentRow.mk (PaymentRecord.event_id rec) u z
                                     (PaymentRecord.type rec))]
                 ∧ d' = mkDB (invoices d)
                          (payments d ++ [PaymentRow.mk (PaymentRecord.event_id rec) u z
                                            (PaymentRecord.type rec)])))
  | Err e => ∃ reason, e = DatabaseError reason
  end.
Proof.
  unfold insert_payment.
  destruct (uuid_in (PaymentRecord.invoice_id rec)) as [u|]; [|eauto].
  destruct (int4_in (PaymentRecord.amount_cents rec)) as [[z|]|e] eqn:Hz;
    [|eauto|eapply int4_in_error; eassumption].
  apply int4_in_value in Hz as [Hamt Hrange].
  destruct (Z.leb_spec z 0); [eauto|].
  destruct (has_event _ d) eqn:Hev.
  { exists u, z. repeat split; auto; lia. }
  destruct (invoices d !! u) as [inv|] eqn:Hinv; [|eauto].
  exists u, z. repeat split; auto; try lia. right. exists inv. auto.
Qed.

(** *** The transaction of [handlePayment] *)

Lemma handlePayment_tx_ok eid iid amt w d rep w' :
  tx w = Some d →
  handlePayment_tx eid iid amt w = (Ok rep, w') →
  ∃ u z inv,
    uuid_in iid = Some u ∧ amt = Some (JsInt z) ∧ 0 < z <= 2147483647
    ∧ invoices d !! u = Some inv
    ∧ ((has_event eid d = true
        ∧ rep = Reply.mk 200 "Payment already processed" ∧ tx w' = Some d)
       ∨ (has_event eid d = false
          ∧ rep = Reply.mk 201 "Payment processed"
          ∧ tx w' = Some (apply_payment eid u z (InvoiceRow.total_cents inv) d))).
Proof.
  destruct w as [st t fs tr]. cbn [tx]. intros -> .
  unfold handlePayment_tx, bind.
  rewrite getInvoiceById_run.
  destruct (next_fault fs); [discriminate|].
  destruct (uuid_in iid) as [u|] eqn:Hu; [|discriminate].
  destruct (invoices d !! u) as [inv|] eqn:Hinv; cbn [fmap option_fmap option_map];
    [|discriminate].
  rewrite insertPayment_run.
  destruct (next_fault (tail fs)); [discriminate|].
  pose proof (insert_payment_cases (PaymentRecord.mk eid iid amt PaymentReceived) d) as Hins.
  destruct (insert_payment _ d) as [[rs d']|e]; [|discriminate].
  cbn [PaymentRecord.invoice_id PaymentRecord.amount_cents PaymentRecord.event_id
       PaymentRecord.type] in Hins.
  destruct Hins as (u' & z & Hu' & -> & Hz & [(-> & -> & Hev)|(inv' & Hev & Hinv' & -> & ->)]).
  { unfold ret. intros [= <- <-]. exists u, z, inv. auto 10. }
  assert (u' = u) as -> by congruence.
  rewrite getTotalPaid_run, Hu.
  destruct (next_fault (tail (tail fs))); [discriminate|].
  rewrite updateInvoiceStatus_run, Hu.
  destruct (next_fault (tail (tail (tail fs)))); [discriminate|].
  unfold ret. intros [= <- <-]. exists u, z, inv. cbn [tx]. auto 10.
Qed.

Ltac pick_update H :=
  repeat (apply elem_of_cons in H as [H|H]; [try discriminate H|]);
  try (apply elem_of_nil in H; contradiction).

(** Whatever the faults, the statements of the transaction extend the
    trace, and a status is written only after a positive amount has been
    recorded, from the sum that includes it. *)
Lemma handlePayment_tx_trace eid iid amt w d :
  tx w = Some d →
  ∃ delta,
    trace (snd (handlePayment_tx eid iid amt w)) = trace w ++ delta
    ∧ ∀ s id, UpdateInvoiceStatus s id ∈ delta →
        ∃ u z inv,
          uuid_in iid = Some u ∧ amt = Some (JsInt z) ∧ 0 < z ∧ id = iid
          ∧ invoices d !! u = Some inv
          ∧ s = newStatus (paid u (record_payment eid u z d)) (InvoiceRow.total_cents inv).
Proof.
  destruct w as [st t fs tr]. cbn [tx trace]. intros -> .
  unfold handlePayment_tx, bind.
  rewrite getInvoiceById_run.
  destruct (next_fault fs); cbn [snd trace].
  { eexists [_]. split; [reflexivity|]. intros s id H. pick_update H. }
  destruct (uuid_in iid) as [u|] eqn:Hu; cbn [snd trace].
  2:{ eexists [_]. split; [reflexivity|]. intros s id H. pick_update H. }
  destruct (invoices d !! u) as [inv|] eqn:Hinv; cbn [fmap option_fmap option_map snd trace].
  2:{ eexists [_]. split; [reflexivity|]. intros s id H. pick_update H. }
  rewrite insertPayment_run.
  destruct (next_fault (tail fs)); cbn [snd trace].
  { eexists [_; _]. rewrite <- app_assoc. split; [reflexivity|]. intros s id H. pick_update H. }
  pose proof (insert_payment_cases (PaymentRecord.mk eid iid amt PaymentReceived) d) as Hins.
  destruct (insert_payment _ d) as [[rs d']|e]; cbn [snd trace].
  2:{ eexists [_; _]. rewrite <- app_assoc. split; [reflexivity|]. intros s id H. pick_update H. }
  cbn [PaymentRecord.invoice_id PaymentRecord.amount_cents PaymentRecord.event_id
       PaymentRecord.type] in Hins.
  destruct Hins as (u' & z & Hu' & -> & Hz & [(-> & -> & Hev)|(inv' & Hev & Hinv' & -> & ->)]).
  { eexists [_; _]. rewrite <- app_assoc. split; [reflexivity|]. intros s id H. pick_update H. }
  assert (u' = u) as -> by congruence.
  rewrite getTotalPaid_run, Hu.
  destruct (next_fault (tail (tail fs))); cbn [snd trace].
  { eexists [_; _; _]. rewrite <- !app_assoc. split; [reflexivity|]. intros s id H. pick_update H. }
  rewrite updateInvoiceStatus_run, Hu.
  destruct (next_fault (tail (tail (tail fs)))); cbn [snd trace];
    (eexists [_; _; _; _]; rewrite <- !app_assoc; split; [reflexivity|];
     intros s id H; exists u, z, inv; pick_update H;
     injection H as -> ->; repeat split; auto; lia).
Qed.

Lemma handlePayment_tx_err eid iid amt w d e w' :
  tx w = Some d →
  handlePayment_tx eid iid amt w = (Err e, w') →
  (e = NotFoundError "Invoice not found"
   ∧ ∃ u, uuid_in iid = Some u ∧ invoices d !! u = None)
  ∨ ∃ reason, e = DatabaseError reason.
Proof.
  destruct w as [st t fs tr]. cbn [tx]. intros -> .
  unfold handlePayment_tx, bind.
  rewrite getInvoiceById_run.
  destruct (next_fault fs); [intros [= <- _]; eauto|].
  destruct (uuid_in iid) as [u|] eqn:Hu; [|intros [= <- _]; eauto].
  destruct (invoices d !! u) as [inv|] eqn:Hinv; cbn [fmap option_fmap option_map];
    [|unfold throw; intros [= <- _]; eauto].
  rewrite insertPayment_run.
  destruct (next_fault (tail fs)); [intros [= <- _]; eauto|].
  pose proof (insert_payment_cases (PaymentRecord.mk eid iid amt PaymentReceived) d) as Hins.
  destruct (insert_payment _ d) as [[rs d']|e0]; [|intros [= <- _]; right; exact Hins].
  cbn [PaymentRecord.invoice_id PaymentRecord.amount_cents PaymentRecord.event_id
       PaymentRecord.type] in Hins.
  destruct Hins as (u' & z & Hu' & -> & Hz & [(-> & -> & Hev)|(inv' & Hev & Hinv' & -> & ->)]).
  { unfold ret. discriminate. }
  rewrite getTotalPaid_run, Hu.
  destruct (next_fault (tail (tail fs))); [intros [= <- _]; eauto|].
  rewrite updateInvoiceStatus_run, Hu.
  destruct (next_fault (tail (tail (tail fs)))); [intros [= <- _]; eauto|].
  unfold ret. discriminate.
Qed.

(** Whatever the faults, [handlePayment] ends in one of three ways: an
    error with the committed tables untouched; [already processed] with the
    tables untouched; or 201 with the payment recorded and the status
    recomputed and written, both. *)
Lemma handlePayment_outcomes p w :
  (∃ e, fst (handlePayment p w) = Err e ∧ store (snd (handlePayment p w)) = store w)
  ∨ ∃ eid iid u z inv,
      p = PaymentPayload.mk (Some eid) (Some iid) (Some (JsInt z))
      ∧ eid ≠ "" ∧ uuid_in iid = Some u ∧ 0 < z <= 2147483647
      ∧ invoices (store w) !! u = Some inv
      ∧ tx (snd (handlePayment p w)) = None
      ∧ ((has_event eid (store w) = true
          ∧ fst (handlePayment p w) = Ok (Reply.mk 200 "Payment already processed")
          ∧ store (snd (handlePayment p w)) = store w)
         ∨ (has_event eid (store w) = false
            ∧ fst (handlePayment p w) = Ok (Reply.mk 201 "Payment processed")
            ∧ store (snd (handlePayment p w))
              = apply_payment eid u z (InvoiceRow.total_cents inv) (store w))).
Proof.
  destruct p as [eid iid amt]. unfold handlePayment.
  cbn [PaymentPayload.event_id PaymentPayload.invoice_id PaymentPayload.amount_cents].
  destruct (js_truthy iid) eqn:Hi; cbn [negb orb]; [|left; eexists; split; reflexivity].
  destruct (js_truthy eid) eqn:He; cbn [negb orb]; [|left; eexists; split; reflexivity].
  destruct (js_le_zero amt) eqn:Ha; [left; eexists; split; reflexivity|].
  apply js_truthy_inv in Hi as (i & -> & Hi), He as (e & -> & He).
  change (js_string (Some e)) with e. change (js_string (Some i)) with i.
  pose proof (withTx_atomic (handlePayment_tx e i amt) w
                (tx_local_handlePayment_tx e i amt)) as Hat.
  destruct (withTx (handlePayment_tx e i amt) w) as [[rep|err] w'];
    cbn [fst snd]; [|left; eexists; split; [reflexivity|exact Hat]].
  destruct Hat as (Hclosed & w1 & Hrun & Htx).
  apply (handlePayment_tx_ok _ _ _ _ (store w)) in Hrun; [|reflexivity].
  destruct Hrun as (u & z & inv & Hu & -> & Hz & Hinv & [(Hev & -> & Hd)|(Hev & -> & Hd)]);
    right; exists e, i, u, z, inv; repeat split; auto; try lia.
  - left. repeat split; auto. congruence.
  - right. repeat split; auto. congruence.
Qed.

(** *** Runs without storage faults *)

Lemma insert_payment_replay eid iid u z d :
  uuid_in iid = Some u → 0 < z <= 2147483647 → has_event eid d = true →
  insert_payment (PaymentRecord.mk eid iid (Some (JsInt z)) PaymentReceived) d = Ok ([], d).
Proof.
  intros Hu Hz Hev. unfold insert_payment.
  cbn [PaymentRecord.invoice_id PaymentRecord.amount_cents PaymentRecord.event_id].
  rewrite Hu, (proj2 (int4_in_value _ z)) by (split; [reflexivity|lia]).
  destruct (Z.leb_spec z 0); [lia|]. rewrite Hev. reflexivity.
Qed.

Lemma insert_payment_fresh eid iid u z inv d :
  uuid_in iid = Some u → 0 < z <= 2147483647 →
  has_event eid d = false → invoices d !! u = Some inv →
  insert_payment (PaymentRecord.mk eid iid (Some (JsInt z)) PaymentReceived) d
  = Ok ([RPayment (payment_row eid u z)], record_payment eid u z d).
Proof.
  intros Hu Hz Hev Hinv. unfold insert_payment.
  cbn [PaymentRecord.invoice_id PaymentRecord.amount_cents PaymentRecord.event_id
       PaymentRecord.type].
  rewrite Hu, (proj2 (int4_in_value _ z)) by (split; [reflexivity|lia]).
  destruct (Z.leb_spec z 0); [lia|]. rewrite Hev, Hinv. reflexivity.
Qed.

Lemma validation_passes eid iid z :
  eid ≠ "" → iid ≠ "" → 0 < z →
  handlePayment (PaymentPayload.mk (Some eid) (Some iid) (Some (JsInt z)))
  = withTx (handlePayment_tx eid iid (Some (JsInt z))).
Proof.
  intros He Hi Hz. unfold handlePayment.
  cbn [PaymentPayload.event_id PaymentPayload.invoice_id PaymentPayload.amount_cents].
  rewrite (js_truthy_intro _ He), (js_truthy_intro _ Hi). simpl.
  destruct (Z.leb_spec z 0); [lia|]. reflexivity.
Qed.

Lemma handlePayment_tx_not_found eid iid u amt st d tr :
  uuid_in iid = Some u → invoices d !! u = None →
  handlePayment_tx eid iid amt (mkWorld st (Some d) [] tr)
  = (Err (NotFoundError "Invoice not found"),
     mkWorld st (Some d) [] (tr ++ [SelectInvoiceForUpdate iid])).
Proof.
  intros Hu Hinv. unfold handlePayment_tx, bind.
  rewrite getInvoiceById_run, Hu, Hinv. reflexivity.
Qed.

Lemma handlePayment_tx_replay eid iid u z inv st d tr :
  uuid_in iid = Some u → 0 < z <= 2147483647 →
  invoices d !! u = Some inv → has_event eid d = true →
  handlePayment_tx eid iid (Some (JsInt z)) (mkWorld st (Some d) [] tr)
  = (Ok (Reply.mk 200 "Payment already processed"),
     mkWorld st (Some d) []
       (tr ++ [SelectInvoiceForUpdate iid;
               InsertPaymentOnConflictDoNothing
                 (PaymentRecord.mk eid iid (Some (JsInt z)) PaymentReceived)])).
Proof.
  intros Hu Hz Hinv Hev. unfold handlePayment_tx, bind.
  rewrite getInvoiceById_run, Hu, Hinv.
  cbn [next_fault head default fmap option_fmap option_map tail].
  rewrite insertPayment_run, (insert_payment_replay _ _ u) by assumption.
  cbn [next_fault head default tail]. unfold ret.
  rewrite <- app_assoc. reflexivity.
Qed.

Lemma handlePayment_tx_fresh eid iid u z inv st d tr :
  uuid_in iid = Some u → 0 < z <= 2147483647 →
  invoices d !! u = Some inv → has_event eid d = false →
  handlePayment_tx eid iid (Some (JsInt z)) (mkWorld st (Some d) [] tr)
  = (Ok (Reply.mk 201 "Payment processed"),
     mkWorld st (Some (apply_payment eid u z (InvoiceRow.total_cents inv) d)) []
       (tr ++ [SelectInvoiceForUpdate iid;
               InsertPaymentOnConflictDoNothing
                 (PaymentRecord.mk eid iid (Some (JsInt z)) PaymentReceived);
               SelectSumAmount iid;
               UpdateInvoiceStatus
                 (newStatus (paid u (record_payment eid u z d))
                    (InvoiceRow.total_cents inv)) iid])).
Proof.
  intros Hu Hz Hinv Hev. unfold handlePayment_tx, bind.
  rewrite getInvoiceById_run, Hu, Hinv.
  cbn [next_fault head default fmap option_fmap option_map tail].
  rewrite insertPayment_run, (insert_payment_fresh _ _ u _ inv) by assumption.
  cbn [next_fault head default tail].
  rewrite getTotalPaid_run, Hu. cbn [next_fault head default tail].
  rewrite updateInvoiceStatus_run, Hu. cbn [next_fault head default tail]. unfold ret.
  rewrite <- !app_assoc. reflexivity.
Qed.

Lemma handlePayment_not_found eid iid u z w :
  eid ≠ "" → uuid_in iid = Some u → 0 < z → faults w = [] →
  invoices (store w) !! u = None →
  handlePayment (PaymentPayload.mk (Some eid) (Some iid) (Some (JsInt z))) w
  = (Err (NotFoundError "Invoice not found"),
     mkWorld (store w) None []
       (trace w ++ [BEGIN; SelectInvoiceForUpdate iid; ROLLBACK])).
Proof.
  intros He Hu Hz Hf Hinv.
  rewrite validation_passes by eauto using uuid_in_nonempty.
  destruct w as [st t fs tr]. cbn [store faults trace] in *. subst fs.
  erewrite withTx_rollback;
    [|reflexivity|rewrite begun_quiet; apply (handlePayment_tx_not_found _ _ u); assumption
     |reflexivity].
  cbn [store tx faults trace tail]. rewrite <- !app_assoc. reflexivity.
Qed.

Lemma handlePayment_replay eid iid u z inv w :
  eid ≠ "" → uuid_in iid = Some u → 0 < z <= 2147483647 → faults w = [] →
  invoices (store w) !! u = Some inv →
  has_event eid (store w) = true →
  handlePayment (PaymentPayload.mk (Some eid) (Some iid) (Some (JsInt z))) w
  = (Ok (Reply.mk 200 "Payment already processed"),
     mkWorld (store w) None []
       (trace w ++ [BEGIN; SelectInvoiceForUpdate iid;
                    InsertPaymentOnConflictDoNothing
                      (PaymentRecord.mk eid iid (Some (JsInt z)) PaymentReceived);
                    COMMIT])).
Proof.
  intros He Hu Hz Hf Hinv Hev.
  rewrite validation_passes by (eauto using uuid_in_nonempty; lia).
  destruct w as [st t fs tr]. cbn [store faults trace] in *. subst fs.
  erewrite withTx_commit;
    [|reflexivity|rewrite begun_quiet; apply (handlePayment_tx_replay _ _ u _ inv); assumption
     |reflexivity].
  cbn [store tx faults trace tail default from_option]. rewrite <- !app_assoc. reflexivity.
Qed.

Lemma handlePayment_fresh eid iid u z inv w :
  eid ≠ "" → uuid_in iid = Some u → 0 < z <= 2147483647 → faults w = [] →
  invoices (store w) !! u = Some inv →
  has_event eid (store w) = false →
  handlePayment (PaymentPayload.mk (Some eid) (Some iid) (Some (JsInt z))) w
  = (Ok (Reply.mk 201 "Payment processed"),
     mkWorld (apply_payment eid u z (InvoiceRow.total_cents inv) (store w)) None []
       (trace w ++ [BEGIN; SelectInvoiceForUpdate iid;
                    InsertPaymentOnConflictDoNothing
                      (PaymentRecord.mk eid iid (Some (JsInt z)) PaymentReceived);
                    SelectSumAmount iid;
                    UpdateInvoiceStatus
                      (newStatus (paid u (record_payment eid u z (store w)))
                         (InvoiceRow.total_cents inv)) iid;
                    COMMIT])).
Proof.
  intros He Hu Hz Hf Hinv Hev.
  rewrite validation_passes by (eauto using uuid_in_nonempty; lia).
  destruct w as [st t fs tr]. cbn [store faults trace] in *. subst fs.
  erewrite withTx_commit;
    [|reflexivity|rewrite begun_quiet; apply (handlePayment_tx_fresh _ _ u _ inv); assumption
     |reflexivity].
  cbn [store tx faults trace tail default from_option]. rewrite <- !app_assoc. reflexivity.
Qed.

(** *** Identifiers and the rows they name *)

Lemma find_invoice_uuid iid u db :
  uuid_in iid = Some u → find_invoice iid db = invoices db !! u.
Proof. intros Hu. unfold find_invoice. rewrite Hu. reflexivity. Qed.

Lemma find_invoice_inv iid db inv :
  find_invoice iid db = Some inv → ∃ u, uuid_in iid = Some u ∧ invoices db !! u = Some inv.
Proof.
  unfold find_invoice. destruct (uuid_in iid) as [u|]; [|discriminate]. eauto.
Qed.

Lemma cumulative_paid_uuid iid u db :
  uuid_in iid = Some u → cumulative_paid iid db = paid u db.
Proof. intros Hu. unfold cumulative_paid. rewrite Hu. reflexivity. Qed.

Lemma status_of_uuid iid u db :
  uuid_in iid = Some u → status_of iid db = InvoiceRow.status <$> invoices db !! u.
Proof. intros Hu. unfold status_of. rewrite (find_invoice_uuid _ u) by assumption. reflexivity. Qed.

(** *** Tables after a payment *)

Lemma sum_amounts_app l1 l2 : sum_amounts (l1 ++ l2) = sum_amounts l1 + sum_amounts l2.
Proof.
  induction l1 as [|r l1 IH]; simpl; [reflexivity|]. rewrite IH. lia.
Qed.

Lemma payments_apply_payment eid u z total db :
  payments (apply_payment eid u z total db) = payments db ++ [payment_row eid u z].
Proof. reflexivity. Qed.

Lemma invoices_apply_payment eid u z total db id :
  invoices (apply_payment eid u z total db) !! id
  = if decide (id = u)
    then (λ r, InvoiceRow.mk (InvoiceRow.total_cents r)
                 (newStatus (paid u (record_payment eid u z db)) total))
           <$> invoices db !! id
    else invoices db !! id.
Proof.
  unfold apply_payment, set_status. cbn [invoices record_payment].
  rewrite lookup_alter. destruct (decide (u = id)) as [->|Hne].
  - rewrite decide_True by reflexivity. reflexivity.
  - rewrite decide_False by congruence. reflexivity.
Qed.

Lemma has_event_spec eid db :
  has_event eid db = true ↔ ∃ r, r ∈ payments db ∧ PaymentRow.event_id r = eid.
Proof.
  unfold has_event. rewrite existsb_exists. split.
  - intros (r & Hin & Heq). exists r. split; [by apply list_elem_of_In|].
    by apply String.eqb_eq.
  - intros (r & Hin & Heq). exists r. split; [by apply list_elem_of_In|].
    by apply String.eqb_eq.
Qed.

Lemma count_event_absent eid db : has_event eid db = false → count_event eid db = 0%nat.
Proof.
  intros Hev. unfold count_event.
  destruct (filter _ (payments db)) as [|r l] eqn:Hf; [reflexivity|].
  assert (r ∈ filter (λ r, PaymentRow.event_id r = eid) (payments db)) as Hin
    by (rewrite Hf; left).
  apply list_elem_of_filter in Hin as [Heq Hin].
  assert (has_event eid db = true) by (apply has_event_spec; eauto).
  congruence.
Qed.

Lemma count_event_apply_payment eid u z total db eid' :
  count_event eid' (apply_payment eid u z total db)
  = (count_event eid' db + if decide (eid = eid') then 1 else 0)%nat.
Proof.
  unfold count_event. rewrite payments_apply_payment, filter_app, length_app.
  f_equal. unfold payment_row. rewrite filter_cons, filter_nil. cbn [PaymentRow.event_id].
  destruct (decide (eid = eid')); reflexivity.
Qed.

Lemma has_event_apply_payment eid u z total db :
  has_event eid (apply_payment eid u z total db) = true.
Proof.
  apply has_event_spec. exists (payment_row eid u z). split; [|reflexivity].
  rewrite payments_apply_payment. apply elem_of_app. right. left.
Qed.

(** ** C1: a second application of an event identifier is a no-op commit *)

(** C1.  An event identifier that is new to the payments table is applied
    twice in a row, by two valid payloads that refer to invoices that
    exist, without storage faults.  The first application answers 201; the
    second answers [already processed], leaves the committed tables (hence
    every invoice status) as the first left them, and its transaction is
    BEGIN, the invoice lookup, the ignored insert and COMMIT.  Afterwards
    the table holds exactly one row for the identifier, and the two
    applications together have sent exactly one status update.  A valid
    payload is one that the schema lets through and the columns can hold:
    its invoice identifier reads as a uuid and its amount is within
    INTEGER. *)
Theorem duplicate_event_applied_once (p p' : PaymentPayload.t) (w : World) eid iid iid' :
  valid_payload p → valid_payload p' →
  PaymentPayload.event_id p = Some eid → PaymentPayload.event_id p' = Some eid →
  PaymentPayload.invoice_id p = Some iid → PaymentPayload.invoice_id p' = Some iid' →
  faults w = [] →
  is_Some (find_invoice iid (store w)) → is_Some (find_invoice iid' (store w)) →
  has_event eid (store w) = false →
  let w1 := snd (handlePayment p w) in
  let w2 := snd (handlePayment p' w1) in
  fst (handlePayment p w) = Ok (Reply.mk 201 "Payment processed")
  ∧ fst (handlePayment p' w1) = Ok (Reply.mk 200 "Payment already processed")
  ∧ store w2 = store w1
  ∧ count_event eid (store w2) = 1%nat
  ∧ (∃ rec, trace w2 = trace w1 ++ [BEGIN; SelectInvoiceForUpdate iid';
                                     InsertPaymentOnConflictDoNothing rec; COMMIT])
  ∧ ∃ delta, trace w2 = trace w ++ delta ∧ length (filter is_update delta) = 1%nat.
Proof.
  intros (e & i & z & -> & He & [u Hu] & Hz) (e' & i' & z' & -> & He' & [u' Hu'] & Hz').
  cbn [PaymentPayload.event_id PaymentPayload.invoice_id].
  intros [= ->] [= ->] [= ->] [= ->] Hf [inv Hinv] [inv' Hinv'] Hev.
  rewrite (find_invoice_uuid _ u) in Hinv by assumption.
  rewrite (find_invoice_uuid _ u') in Hinv' by assumption.
  rewrite (handlePayment_fresh _ _ u _ inv) by assumption.
  cbn [fst snd].
  set (w1 := mkWorld _ None [] _).
  assert (∃ inv1, invoices (store w1) !! u' = Some inv1) as [inv1 Hinv1].
  { subst w1. cbn [store]. rewrite invoices_apply_payment, Hinv'.
    destruct (decide (u' = u)); eauto. }
  rewrite (handlePayment_replay _ _ u' _ inv1);
    [|assumption..|reflexivity|assumption|apply has_event_apply_payment].
  cbn [fst snd store trace]. repeat split.
  - subst w1. cbn [store]. rewrite count_event_apply_payment, decide_True by reflexivity.
    rewrite count_event_absent by assumption. reflexivity.
  - eauto.
  - subst w1. cbn [trace]. rewrite <- app_assoc. eexists. split; [reflexivity|].
    reflexivity.
Qed.

(** The hypotheses of C1 are met by an invoice of 5000 paid in full once
    and notified twice. *)
Lemma duplicate_event_applied_once_witness :
  let id := "550e8400-e29b-41d4-a716-446655440000" in
  let p := PaymentPayload.mk (Some "evt_1") (Some id) (Some (JsInt 5000)) in
  let w := mkWorld (mkDB {[ id := InvoiceRow.mk 5000 Sent ]} []) None [] [] in
  let w1 := snd (handlePayment p w) in
  let w2 := snd (handlePayment p w1) in
  fst (handlePayment p w) = Ok (Reply.mk 201 "Payment processed")
  ∧ fst (handlePayment p w1) = Ok (Reply.mk 200 "Payment already processed")
  ∧ store w2 = store w1
  ∧ count_event "evt_1" (store w2) = 1%nat
  ∧ (∃ rec, trace w2 = trace w1 ++ [BEGIN; SelectInvoiceForUpdate id;
                                     InsertPaymentOnConflictDoNothing rec; COMMIT])
  ∧ ∃ delta, trace w2 = trace w ++ delta ∧ length (filter is_update delta) = 1%nat.
Proof.
  intros id.
  assert (uuid_in id = Some id) as Hid by (vm_compute; reflexivity).
  apply (duplicate_event_applied_once _ _ _ "evt_1" id id).
  - exists "evt_1", id, 5000. repeat split; [discriminate|eauto|lia..].
  - exists "evt_1", id, 5000. repeat split; [discriminate|eauto|lia..].
  - reflexivity.
  - reflexivity.
  - reflexivity.
  - reflexivity.
  - reflexivity.
  - rewrite (find_invoice_uuid _ id) by assumption.
    exists (InvoiceRow.mk 5000 Sent). apply lookup_singleton_eq.
  - rewrite (find_invoice_uuid _ id) by assumption.
    exists (InvoiceRow.mk 5000 Sent). apply lookup_singleton_eq.
  - reflexivity.
Defined.

(** ** C3: an unknown invoice, and failures in general, change nothing *)

Lemma withTx_refused {A} (fn : M World A) w :
  next_fault (faults w) = true →
  withTx fn w
  = (Err (DatabaseError ConnectionFailure),
     mkWorld (store w) (tx w) (tail (faults w)) (trace w)).
Proof. intros Hc. rewrite withTx_run, Hc. reflexivity. Qed.

Lemma withTx_closes {A} (fn : M World A) w :
  next_fault (faults w) = false →
  tx (snd (withTx fn w)) = None
  ∧ ∃ before,
      trace (snd (withTx fn w))
      = before ++ [match fst (withTx fn w) with Ok _ => COMMIT | Err _ => ROLLBACK end].
Proof.
  intros Hc. rewrite withTx_run, Hc. unfold rolled_back.
  destruct (next_fault (tail (faults w))); cbn [fst snd tx trace].
  { split; [reflexivity|eexists; reflexivity]. }
  destruct (fn (begun w)) as [[a|e] w1]; cbn [fst snd tx trace].
  - destruct (next_fault (faults w1)); cbn [fst snd tx trace];
      (split; [reflexivity|eexists; reflexivity]).
  - split; [reflexivity|eexists; reflexivity].
Qed.

(** C3.  (1) A payload whose invoice identifier names no invoice makes
    [handlePayment] fail and leaves the committed tables as they were: no
    payment row, no invoice touched; for a valid payload and without
    storage faults the failure is the not-found error.  (2) Whenever
    [handlePayment] fails, whatever the statement that raised, the
    committed tables are as before.  (3) The committed tables after
    [handlePayment] are either the old ones, or the old ones with the
    payment of the payload recorded against its invoice and the status of
    that invoice set to the one its total and its payments, the new one
    included, give: never one without the other.  (4) For any function
    run by [withTx] that keeps to its transaction: when [pool.connect()]
    raises, no statement is sent and nothing changes; otherwise, whenever
    [withTx] raises, be it for BEGIN, for the function or for COMMIT, the
    last statement it has sent is ROLLBACK, no transaction is left open
    and nothing is committed; and when the function raises, [withTx]
    raises the same error, unless ROLLBACK is itself the statement that
    raises. *)
Theorem failure_rolls_back :
  (∀ p w,
      find_invoice (js_string (PaymentPayload.invoice_id p)) (store w) = None →
      (∃ e, fst (handlePayment p w) = Err e)
      ∧ store (snd (handlePayment p w)) = store w
      ∧ (valid_payload p → faults w = [] →
         fst (handlePayment p w) = Err (NotFoundError "Invoice not found")))
  ∧ (∀ p w e,
        fst (handlePayment p w) = Err e → store (snd (handlePayment p w)) = store w)
  ∧ (∀ p w,
        store (snd (handlePayment p w)) = store w
        ∨ ∃ eid iid u z inv,
            p = PaymentPayload.mk (Some eid) (Some iid) (Some (JsInt z))
            ∧ uuid_in iid = Some u
            ∧ invoices (store w) !! u = Some inv
            ∧ payments (store (snd (handlePayment p w)))
              = payments (store w) ++ [payment_row eid u z]
            ∧ invoices (store (snd (handlePayment p w)))
              = <[u := InvoiceRow.mk (InvoiceRow.total_cents inv)
                         (newStatus (paid u (store w) + z) (InvoiceRow.total_cents inv))]>
                  (invoices (store w)))
  ∧ (∀ A (fn : M World A) w,
        tx_local fn →
        (next_fault (faults w) = true →
         withTx fn w
         = (Err (DatabaseError ConnectionFailure),
            mkWorld (store w) (tx w) (tail (faults w)) (trace w)))
        ∧ (∀ e, next_fault (faults w) = false → fst (withTx fn w) = Err e →
             tx (snd (withTx fn w)) = None
             ∧ ∃ before, trace (snd (withTx fn w)) = before ++ [ROLLBACK])
        ∧ (∀ e, fst (withTx fn w) = Err e → store (snd (withTx fn w)) = store w)
        ∧ (∀ e w1,
              next_fault (faults w) = false → next_fault (tail (faults w)) = false →
              fn (begun w) = (Err e, w1) →
              fst (withTx fn w)
              = Err (if next_fault (faults w1)
                     then DatabaseError ConnectionFailure else e))).
Proof.
  split; [|split; [|split]].
  - intros p w Hnone.
    destruct (handlePayment_outcomes p w)
      as [(e & He & Hs)|(eid & iid & u & z & inv & -> & He & Hu & Hz & Hinv & _)].
    + split; [eauto|]. split; [assumption|].
      intros (eid & iid & z & -> & He' & [u Hu] & Hz) Hf.
      cbn [PaymentPayload.invoice_id] in Hnone. change (js_string (Some iid)) with iid in Hnone.
      rewrite (find_invoice_uuid _ u) in Hnone by assumption.
      rewrite (handlePayment_not_found _ _ u) by (assumption || lia). reflexivity.
    + cbn [PaymentPayload.invoice_id] in Hnone. change (js_string (Some iid)) with iid in Hnone.
      rewrite (find_invoice_uuid _ u) in Hnone by assumption. congruence.
  - intros p w e Herr.
    destruct (handlePayment_outcomes p w)
      as [(e' & _ & Hs)
         |(eid & iid & u & z & inv & _ & _ & _ & _ & _ & _ & [(_ & Hr & _)|(_ & Hr & _)])];
      [assumption|congruence..].
  - intros p w.
    destruct (handlePayment_outcomes p w)
      as [(e' & _ & Hs)
         |(eid & iid & u & z & inv & -> & _ & Hu & _ & Hinv & _ & [(_ & _ & Hs)|(_ & _ & Hs)])];
      [auto..|].
    right. exists eid, iid, u, z, inv. rewrite Hs. repeat split; auto.
    unfold apply_payment, set_status, record_payment. cbn [invoices].
    apply map_eq. intros id. rewrite lookup_alter.
    destruct (decide (u = id)) as [<-|Hne].
    + rewrite lookup_insert_eq, Hinv. cbn. f_equal. f_equal. f_equal.
      unfold paid, payments_of, payment_row. cbn [payments].
      rewrite filter_app, filter_cons, filter_nil. cbn [PaymentRow.invoice_id].
      rewrite decide_True by reflexivity.
      rewrite sum_amounts_app. cbn. lia.
    + rewrite lookup_insert_ne by assumption. reflexivity.
  - intros A fn w Hlocal.
    split; [apply withTx_refused|]. split; [|split].
    + intros e Hc Herr. destruct (withTx_closes fn w Hc) as [Hclosed [before Htr]].
      rewrite Herr in Htr. eauto.
    + intros e Herr. pose proof (withTx_atomic fn w Hlocal) as Hat.
      destruct (withTx fn w) as [[a|e'] w']; [discriminate Herr|exact Hat].
    + intros e w1 Hc Hbegin Hrun. apply withTx_propagates; assumption.
Qed.

(** C3 at a concrete input: an invoice table that holds one invoice, and
    a valid payload for another. *)
Lemma failure_rolls_back_witness :
  let id := "550e8400-e29b-41d4-a716-446655440000" in
  let id' := "6ba7b810-9dad-11d1-80b4-00c04fd430c8" in
  let p := PaymentPayload.mk (Some "evt_1") (Some id') (Some (JsInt 5000)) in
  let w := mkWorld (mkDB {[ id := InvoiceRow.mk 5000 Sent ]} []) None [] [] in
  fst (handlePayment p w) = Err (NotFoundError "Invoice not found")
  ∧ store (snd (handlePayment p w)) = store w
  ∧ tx (snd (handlePayment p w)) = None
  ∧ ∃ before, trace (snd (handlePayment p w)) = before ++ [ROLLBACK].
Proof.
  intros id id' p w.
  assert (uuid_in id' = Some id') as Hid by (vm_compute; reflexivity).
  destruct failure_rolls_back as (Hunknown & Herror & _ & Htx).
  destruct (Hunknown p w) as (_ & Hstore & Hnot_found).
  { cbn [PaymentPayload.invoice_id p]. change (js_string (Some id')) with id'.
    rewrite (find_invoice_uuid _ id') by assumption. reflexivity. }
  split.
  { apply Hnot_found; [|reflexivity].
    exists "evt_1", id', 5000. repeat split; [discriminate|eauto|lia..]. }
  split; [exact Hstore|].
  destruct (Htx _ (handlePayment_tx "evt_1" id' (Some (JsInt 5000))) w
              (tx_local_handlePayment_tx _ _ _)) as (_ & Hclosed & _).
  apply (Hclosed (NotFoundError "Invoice not found")); reflexivity.
Defined.

(** *** Cumulative paid amount and derived status *)

Lemma paid_record eid u z db id :
  paid id (record_payment eid u z db) = paid id db + (if decide (u = id) then z else 0).
Proof.
  unfold paid, payments_of, record_payment. cbn [payments].
  rewrite filter_app, sum_amounts_app. f_equal.
  rewrite filter_cons, filter_nil. unfold payment_row. cbn [PaymentRow.invoice_id].
  destruct (decide (u = id)); simpl; lia.
Qed.

Lemma paid_apply_payment eid u z total db id :
  paid id (apply_payment eid u z total db) = paid id db + (if decide (u = id) then z else 0).
Proof. apply paid_record. Qed.

Lemma paid_nonneg id db : amounts_positive db → 0 <= paid id db.
Proof.
  unfold amounts_positive, paid, payments_of.
  induction (payments db) as [|r l IH]; intros Hpos; [simpl; lia|].
  apply Forall_cons in Hpos as [Hr Hl]. rewrite filter_cons.
  destruct (decide _); simpl; specialize (IH Hl); lia.
Qed.

Lemma newStatus_not_sent paid total : 0 < paid → newStatus paid total ≠ Sent.
Proof.
  intros Hp. unfold newStatus.
  destruct (Z.geb_spec paid total); [discriminate|].
  destruct (Z.gtb_spec paid 0); [discriminate|lia].
Qed.

Lemma status_apply_payment eid u z inv db :
  invoices db !! u = Some inv →
  InvoiceRow.status <$> invoices (apply_payment eid u z (InvoiceRow.total_cents inv) db) !! u
  = Some (newStatus (paid u (apply_payment eid u z (InvoiceRow.total_cents inv) db))
            (InvoiceRow.total_cents inv)).
Proof.
  intros Hinv. rewrite invoices_apply_payment, decide_True by reflexivity.
  rewrite Hinv. reflexivity.
Qed.

(** ** C9: a recorded payment never writes [sent] *)

(** C9.  On tables that satisfy CHECK (amount_cents > 0), every status
    that [handlePayment] sends in an UPDATE differs from [sent], whatever
    the payload and the faults; and when it answers 201, the invoice of the
    payload has a positive cumulative paid amount and a status other than
    [sent] in the committed tables. *)
Theorem recorded_payment_never_writes_sent (p : PaymentPayload.t) (w : World) :
  amounts_positive (store w) →
  (∃ delta,
      trace (snd (handlePayment p w)) = trace w ++ delta
      ∧ ∀ s id, UpdateInvoiceStatus s id ∈ delta → s ≠ Sent)
  ∧ (∀ m, fst (handlePayment p w) = Ok (Reply.mk 201 m) →
       ∃ iid s,
         PaymentPayload.invoice_id p = Some iid
         ∧ 0 < cumulative_paid iid (store (snd (handlePayment p w)))
         ∧ status_of iid (store (snd (handlePayment p w))) = Some s
         ∧ s ≠ Sent).
Proof.
  intros Hpos. split.
  - destruct p as [eid iid amt]. unfold handlePayment.
    cbn [PaymentPayload.event_id PaymentPayload.invoice_id PaymentPayload.amount_cents].
    destruct (negb (js_truthy iid) || negb (js_truthy eid)).
    { exists []. split; [symmetry; apply app_nil_r|]. intros s id H. pick_update H. }
    destruct (js_le_zero amt).
    { exists []. split; [symmetry; apply app_nil_r|]. intros s id H. pick_update H. }
    destruct (withTx_trace (handlePayment_tx (js_string eid) (js_string iid) amt) w)
      as (ctl & Hctl & [Htr|Htr]).
    + exists ctl. split; [assumption|].
      intros s id H. rewrite Forall_forall in Hctl. apply Hctl in H. discriminate.
    + destruct (handlePayment_tx_trace (js_string eid) (js_string iid) amt
                  (begun w) (store w) eq_refl) as (delta & Hd & Hup).
      exists (BEGIN :: delta ++ ctl). split.
      { rewrite Htr, Hd. cbn [begun trace]. rewrite <- !app_assoc. reflexivity. }
      intros s id H. apply elem_of_cons in H as [H|H]; [discriminate|].
      apply elem_of_app in H as [H|H].
      * destruct (Hup s id H) as (u & z & inv & _ & _ & Hz & _ & _ & ->).
        apply newStatus_not_sent. rewrite paid_record.
        rewrite decide_True by reflexivity.
        pose proof (paid_nonneg u (store w) Hpos). lia.
      * rewrite Forall_forall in Hctl. apply Hctl in H. discriminate.
  - intros m Hok.
    destruct (handlePayment_outcomes p w)
      as [(e & He & _)
         |(eid & iid & u & z & inv & -> & _ & Hu & Hz & Hinv & _
           & [(_ & Hr & _)|(_ & _ & Hs)])];
      [congruence..|].
    exists iid. eexists. rewrite Hs. split; [reflexivity|].
    rewrite (cumulative_paid_uuid _ u), (status_of_uuid _ u) by assumption.
    assert (0 < paid u (apply_payment eid u z (InvoiceRow.total_cents inv) (store w))).
    { rewrite paid_apply_payment, decide_True by reflexivity.
      pose proof (paid_nonneg u (store w) Hpos). lia. }
    split; [assumption|]. split; [apply status_apply_payment; assumption|].
    apply newStatus_not_sent. assumption.
Qed.

Lemma recorded_payment_never_writes_sent_witness :
  let id := "550e8400-e29b-41d4-a716-446655440000" in
  let p := PaymentPayload.mk (Some "evt_2") (Some id) (Some (JsInt 1)) in
  let w := mkWorld (mkDB {[ id := InvoiceRow.mk 5000 Sent ]}
                      [payment_row "evt_1" id 3]) None [] [] in
  (∃ delta,
      trace (snd (handlePayment p w)) = trace w ++ delta
      ∧ ∀ s id, UpdateInvoiceStatus s id ∈ delta → s ≠ Sent)
  ∧ (∀ m, fst (handlePayment p w) = Ok (Reply.mk 201 m) →
       ∃ iid s,
         PaymentPayload.invoice_id p = Some iid
         ∧ 0 < cumulative_paid iid (store (snd (handlePayment p w)))
         ∧ status_of iid (store (snd (handlePayment p w))) = Some s
         ∧ s ≠ Sent).
Proof.
  apply recorded_payment_never_writes_sent.
  repeat constructor.
Defined.

(** ** C5: the status of an invoice only moves forward *)

Lemma newStatus_mono a b total : a <= b → status_le (newStatus a total) (newStatus b total).
Proof.
  intros Hab. unfold status_le, newStatus.
  destruct (Z.geb_spec a total), (Z.geb_spec b total);
    destruct (Z.gtb_spec a 0), (Z.gtb_spec b 0); simpl; lia.
Qed.

Lemma status_le_refl s : status_le s s.
Proof. unfold status_le. lia. Qed.

Lemma status_le_trans s1 s2 s3 : status_le s1 s2 → status_le s2 s3 → status_le s1 s3.
Proof. unfold status_le. lia. Qed.

(** An invoice with the default status, and one whose status is the one
    its payments give, are not marked ahead. *)
Lemma sent_is_not_ahead iid db : status_of iid db = Some Sent → status_not_ahead iid db.
Proof.
  unfold status_of. intros Hs inv Hinv. rewrite Hinv in Hs. injection Hs as ->.
  unfold status_le. cbn. destruct (newStatus _ _); cbn; lia.
Qed.

Lemma exact_is_not_ahead iid db : status_exact iid db → status_not_ahead iid db.
Proof. intros Hex inv Hinv. rewrite (Hex inv Hinv). apply status_le_refl. Qed.

Lemma handlePayment_forward p w iid :
  status_not_ahead iid (store w) →
  status_not_ahead iid (store (snd (handlePayment p w)))
  ∧ ∀ s, status_of iid (store w) = Some s →
      ∃ s', status_of iid (store (snd (handlePayment p w))) = Some s' ∧ status_le s s'.
Proof.
  intros Hsound.
  destruct (handlePayment_outcomes p w)
    as [(e & _ & Hs)
       |(eid & iid0 & u & z & inv & _ & _ & _ & Hz & Hinv & _ & [(_ & _ & Hs)|(_ & _ & Hs)])];
    rewrite Hs; try (split; [assumption|]; intros s Hi; exists s; split;
                     [assumption|apply status_le_refl]).
  unfold status_not_ahead, status_of, find_invoice, cumulative_paid in *.
  destruct (uuid_in iid) as [ui|]; cbn [mbind option_bind] in *;
    [|split; [discriminate|discriminate]].
  rewrite invoices_apply_payment, paid_apply_payment.
  destruct (decide (ui = u)) as [->|Hne].
  - rewrite decide_True by reflexivity. rewrite Hinv in *. cbn [fmap option_fmap option_map].
    split.
    + intros inv' [= <-]. cbn [InvoiceRow.status InvoiceRow.total_cents].
      rewrite paid_record, decide_True by reflexivity. apply status_le_refl.
    + intros s [= <-]. eexists. split; [reflexivity|].
      cbn [InvoiceRow.status]. eapply status_le_trans; [apply Hsound; reflexivity|].
      rewrite paid_record, decide_True by reflexivity. apply newStatus_mono. lia.
  - rewrite decide_False by congruence. rewrite Z.add_0_r.
    split; [assumption|]. intros s Hi. exists s. split; [assumption|apply status_le_refl].
Qed.

Lemma apply_payments_cons p ps w :
  apply_payments (p :: ps) w = apply_payments ps (snd (handlePayment p w)).
Proof. reflexivity. Qed.

Lemma apply_payments_app ps1 ps2 w :
  apply_payments (ps1 ++ ps2) w = apply_payments ps2 (apply_payments ps1 w).
Proof. apply foldl_app. Qed.

Lemma apply_payments_forward ps w iid :
  status_not_ahead iid (store w) →
  status_not_ahead iid (store (apply_payments ps w))
  ∧ ∀ s, status_of iid (store w) = Some s →
      ∃ s', status_of iid (store (apply_payments ps w)) = Some s' ∧ status_le s s'.
Proof.
  revert w. induction ps as [|p ps IH]; intros w Hsound.
  - split; [assumption|]. intros s Hs. exists s. split; [assumption|apply status_le_refl].
  - rewrite apply_payments_cons.
    destruct (handlePayment_forward p w iid Hsound) as [Hsound1 Hstep].
    destruct (IH _ Hsound1) as [Hsound2 Hrest].
    split; [assumption|]. intros s Hs.
    destruct (Hstep s Hs) as (s1 & Hs1 & Hle1).
    destruct (Hrest s1 Hs1) as (s2 & Hs2 & Hle2).
    exists s2. split; [assumption|]. eapply status_le_trans; eassumption.
Qed.

(** C5, as amended.  Payloads of any kind are applied one after the
    other, with any storage faults, starting from tables in which the
    invoice is not marked further along than its recorded payments allow
    (an invoice with the default status [sent] is not, nor is one whose
    status [handlePayment] has written).  The status the invoice has at
    any point of the sequence is at most, in the order sent,
    partially_paid, paid, the status it has at any later point. *)
Theorem status_never_regresses (w : World) (ps1 ps2 : list PaymentPayload.t) iid s1 :
  status_not_ahead iid (store w) →
  status_of iid (store (apply_payments ps1 w)) = Some s1 →
  ∃ s2,
    status_of iid (store (apply_payments (ps1 ++ ps2) w)) = Some s2
    ∧ status_le s1 s2.
Proof.
  intros Hsound Hs1. rewrite apply_payments_app.
  destruct (apply_payments_forward ps1 w iid Hsound) as [Hsound1 _].
  destruct (apply_payments_forward ps2 _ iid Hsound1) as [_ Hfwd].
  apply Hfwd. assumption.
Qed.

(** An invoice of 5000 that received 3000 and then 2000: from
    partially_paid after the first payment on. *)
Lemma status_never_regresses_witness :
  let id := "550e8400-e29b-41d4-a716-446655440000" in
  let w := mkWorld (mkDB {[ id := InvoiceRow.mk 5000 Sent ]} []) None [] [] in
  let p1 := PaymentPayload.mk (Some "evt_1") (Some id) (Some (JsInt 3000)) in
  let p2 := PaymentPayload.mk (Some "evt_2") (Some id) (Some (JsInt 2000)) in
  ∃ s2,
    status_of id (store (apply_payments ([p1] ++ [p2]) w)) = Some s2
    ∧ status_le PartiallyPaid s2.
Proof.
  apply status_never_regresses.
  - apply sent_is_not_ahead. vm_compute. reflexivity.
  - vm_compute. reflexivity.
Defined.

(** C5, as the claim words it, fails where the stored status is ahead of
    the recorded payments.  An invoice of 5000 is marked [paid] with no
    payment recorded; a payment of 1 is applied to it, without storage
    faults: the answer is 201, the status written is [partially_paid], and
    that is the status of the invoice afterwards. *)
Lemma paid_reverts_to_partially_paid :
  status_of "550e8400-e29b-41d4-a716-446655440000"
    (mkDB {[ "550e8400-e29b-41d4-a716-446655440000" := InvoiceRow.mk 5000 Paid ]} [])
  = Some Paid
  ∧ handlePayment
      (PaymentPayload.mk (Some "evt_1") (Some "550e8400-e29b-41d4-a716-446655440000")
         (Some (JsInt 1)))
      (mkWorld
         (mkDB {[ "550e8400-e29b-41d4-a716-446655440000" := InvoiceRow.mk 5000 Paid ]} [])
         None [] [])
    = (Ok (Reply.mk 201 "Payment processed"),
       mkWorld
         (mkDB {[ "550e8400-e29b-41d4-a716-446655440000" := InvoiceRow.mk 5000 PartiallyPaid ]}
            [payment_row "evt_1" "550e8400-e29b-41d4-a716-446655440000" 1])
         None []
         [BEGIN;
          SelectInvoiceForUpdate "550e8400-e29b-41d4-a716-446655440000";
          InsertPaymentOnConflictDoNothing
            (PaymentRecord.mk "evt_1" "550e8400-e29b-41d4-a716-446655440000"
               (Some (JsInt 1)) PaymentReceived);
          SelectSumAmount "550e8400-e29b-41d4-a716-446655440000";
          UpdateInvoiceStatus PartiallyPaid "550e8400-e29b-41d4-a716-446655440000";
          COMMIT])
  ∧ status_of "550e8400-e29b-41d4-a716-446655440000"
      (mkDB {[ "550e8400-e29b-41d4-a716-446655440000" := InvoiceRow.mk 5000 PartiallyPaid ]}
         [payment_row "evt_1" "550e8400-e29b-41d4-a716-446655440000" 1])
    = Some PartiallyPaid
  ∧ status_rank PartiallyPaid < status_rank Paid.
Proof.
  repeat split; vm_compute; reflexivity.
Qed.

(** ** C2: the final status is the one the cumulative amount gives *)

Lemma handlePayment_exact p w iid :
  status_exact iid (store w) → status_exact iid (store (snd (handlePayment p w))).
Proof.
  intros Hex.
  destruct (handlePayment_outcomes p w)
    as [(e & _ & Hs)
       |(eid & iid0 & u & z & inv & _ & _ & _ & Hz & Hinv & _ & [(_ & _ & Hs)|(_ & _ & Hs)])];
    rewrite Hs; try assumption.
  intros inv' Hfind. apply find_invoice_inv in Hfind as (ui & Hui & Hl).
  rewrite (cumulative_paid_uuid _ ui) by assumption.
  rewrite invoices_apply_payment in Hl.
  destruct (decide (ui = u)) as [->|Hne].
  - rewrite Hinv in Hl. injection Hl as <-. reflexivity.
  - rewrite paid_apply_payment, decide_False by congruence.
    rewrite Z.add_0_r, <- (cumulative_paid_uuid iid) by assumption.
    apply Hex. rewrite (find_invoice_uuid _ ui) by assumption. assumption.
Qed.

Lemma apply_payments_exact ps w iid :
  status_exact iid (store w) → status_exact iid (store (apply_payments ps w)).
Proof.
  revert w. induction ps as [|p ps IH]; intros w Hex; [assumption|].
  rewrite apply_payments_cons. apply IH, handlePayment_exact, Hex.
Qed.

Lemma handlePayment_total_cents p w id :
  InvoiceRow.total_cents <$> invoices (store (snd (handlePayment p w))) !! id
  = InvoiceRow.total_cents <$> invoices (store w) !! id.
Proof.
  destruct (handlePayment_outcomes p w)
    as [(e & _ & Hs)
       |(eid & iid0 & u & z & inv & _ & _ & _ & Hz & Hinv & _ & [(_ & _ & Hs)|(_ & _ & Hs)])];
    rewrite Hs; try reflexivity.
  rewrite invoices_apply_payment. destruct (decide (id = u)); [|reflexivity].
  destruct (invoices (store w) !! id); reflexivity.
Qed.

Lemma apply_payments_total_cents ps w id :
  InvoiceRow.total_cents <$> invoices (store (apply_payments ps w)) !! id
  = InvoiceRow.total_cents <$> invoices (store w) !! id.
Proof.
  revert w. induction ps as [|p ps IH]; intros w; [reflexivity|].
  rewrite apply_payments_cons, IH. apply handlePayment_total_cents.
Qed.

Lemma has_event_apply_payment_ne eid u z total db eid' :
  eid' ≠ eid →
  has_event eid' (apply_payment eid u z total db) = has_event eid' db.
Proof.
  intros Hne. unfold has_event. rewrite payments_apply_payment, existsb_app.
  cbn [existsb payment_row PaymentRow.event_id].
  destruct (String.eqb_spec eid eid'); [congruence|].
  rewrite !orb_false_r. reflexivity.
Qed.

(** One valid payment for an invoice that exists, without storage faults. *)
Lemma handlePayment_quiet_step p w iid inv :
  valid_payload p → PaymentPayload.invoice_id p = Some iid →
  faults w = [] → find_invoice iid (store w) = Some inv →
  let w1 := snd (handlePayment p w) in
  faults w1 = []
  ∧ is_Some (find_invoice iid (store w1))
  ∧ cumulative_paid iid (store w1) = cumulative_paid iid (store w) + new_amount (store w) p
  ∧ ∀ q, PaymentPayload.event_id q ≠ PaymentPayload.event_id p →
      new_amount (store w1) q = new_amount (store w) q.
Proof.
  intros (eid & i & z & -> & He & [u Hu] & Hz). cbn [PaymentPayload.invoice_id].
  intros [= ->] Hf Hinv. unfold new_amount at 1.
  cbn [PaymentPayload.event_id PaymentPayload.amount_cents].
  rewrite (find_invoice_uuid _ u) in Hinv by assumption.
  rewrite !(find_invoice_uuid _ u), !(cumulative_paid_uuid _ u) by assumption.
  destruct (has_event eid (store w)) eqn:Hev.
  - rewrite (handlePayment_replay _ _ u _ inv) by assumption. cbn [snd store faults].
    repeat split; eauto. lia.
  - rewrite (handlePayment_fresh _ _ u _ inv) by assumption. cbn [snd store faults].
    repeat split.
    + rewrite invoices_apply_payment, decide_True, Hinv by reflexivity. eauto.
    + rewrite paid_apply_payment, decide_True by reflexivity. reflexivity.
    + intros q Hq. unfold new_amount.
      destruct (PaymentPayload.event_id q) as [eq|]; [|reflexivity].
      rewrite has_event_apply_payment_ne by congruence. reflexivity.
Qed.

Lemma total_new_amount_ext db db' ps :
  Forall (λ q, new_amount db' q = new_amount db q) ps →
  total_new_amount db' ps = total_new_amount db ps.
Proof.
  induction 1 as [|q ps Hq _ IH]; simpl; [reflexivity|]. rewrite Hq, IH. reflexivity.
Qed.

Lemma total_new_amount_perm db ps ps' :
  ps ≡ₚ ps' → total_new_amount db ps = total_new_amount db ps'.
Proof.
  induction 1; simpl; lia.
Qed.

(** The cumulative paid amount after a run of valid payments with distinct
    event identifiers: the amount before, plus the amounts of the payments
    whose event identifier was new. *)
Lemma cumulative_paid_after ps iid : ∀ w,
  faults w = [] → is_Some (find_invoice iid (store w)) →
  Forall valid_payload ps →
  Forall (λ p, PaymentPayload.invoice_id p = Some iid) ps →
  NoDup (PaymentPayload.event_id <$> ps) →
  cumulative_paid iid (store (apply_payments ps w))
  = cumulative_paid iid (store w) + total_new_amount (store w) ps.
Proof.
  induction ps as [|p ps IH]; intros w Hf [inv Hinv] Hvalid Htarget Hnodup.
  - simpl. lia.
  - apply Forall_cons in Hvalid as [Hp Hvalid].
    apply Forall_cons in Htarget as [Hpt Htarget].
    rewrite fmap_cons in Hnodup. apply NoDup_cons in Hnodup as [Hfresh Hnodup].
    destruct (handlePayment_quiet_step p w iid inv Hp Hpt Hf Hinv)
      as (Hf1 & Hinv1 & Hcum & Hother).
    rewrite apply_payments_cons, IH by assumption.
    rewrite Hcum. cbn [total_new_amount foldr]. fold (total_new_amount (store w) ps).
    rewrite (total_new_amount_ext (store w)); [lia|].
    apply Forall_forall. intros q Hq. apply Hother. intros Heq.
    apply Hfresh. rewrite <- Heq. apply list_elem_of_fmap. eauto.
Qed.

Lemma newStatus_cases paid total :
  (newStatus paid total = Paid ↔ paid >= total)
  ∧ (newStatus paid total = PartiallyPaid ↔ 0 < paid < total)
  ∧ (newStatus paid total = Sent ↔ ¬ paid >= total ∧ ¬ 0 < paid < total).
Proof.
  unfold newStatus.
  destruct (Z.geb_spec paid total); [|destruct (Z.gtb_spec paid 0)];
    repeat split; intros; try discriminate; try lia; try reflexivity.
Qed.

(** C2.  An invoice whose status agrees with the payments recorded so far
    (a new invoice, say) receives a sequence of applications.
    (1) Whatever the payloads and the storage faults, the final status is
    [paid] iff the cumulative paid amount is at least [total_cents],
    [partially_paid] iff it is strictly between 0 and [total_cents], and
    [sent] otherwise.  (2) When the payloads are valid payments for this
    invoice (amounts within INTEGER) with distinct event identifiers and no
    statement raises on its own, the cumulative paid amount grows by the
    amounts of the payments whose identifier was new, and any other order
    of the same payments ends with the same cumulative amount and the same
    status. *)
Theorem final_status_follows_cumulative_paid
    (w : World) (iid : string) (inv : InvoiceRow.t) :
  find_invoice iid (store w) = Some inv →
  status_exact iid (store w) →
  let total := InvoiceRow.total_cents inv in
  (∀ ps,
      let paid := cumulative_paid iid (store (apply_payments ps w)) in
      ∃ s, status_of iid (store (apply_payments ps w)) = Some s
           ∧ (s = Paid ↔ paid >= total)
           ∧ (s = PartiallyPaid ↔ 0 < paid < total)
           ∧ (s = Sent ↔ ¬ paid >= total ∧ ¬ 0 < paid < total))
  ∧ (∀ ps ps',
        faults w = [] →
        Forall valid_payload ps →
        Forall (λ p, PaymentPayload.invoice_id p = Some iid) ps →
        NoDup (PaymentPayload.event_id <$> ps) →
        ps ≡ₚ ps' →
        let db := store (apply_payments ps w) in
        let db' := store (apply_payments ps' w) in
        cumulative_paid iid db
        = cumulative_paid iid (store w) + total_new_amount (store w) ps
        ∧ cumulative_paid iid db' = cumulative_paid iid db
        ∧ status_of iid db' = status_of iid db).
Proof.
  intros Hinv Hex total.
  assert (∀ qs, status_of iid (store (apply_payments qs w))
                = Some (newStatus (cumulative_paid iid (store (apply_payments qs w))) total))
    as Hstatus.
  { intros qs. pose proof (apply_payments_exact qs w iid Hex) as Hex'.
    destruct (find_invoice_inv _ _ _ Hinv) as (u & Hu & Hl).
    pose proof (apply_payments_total_cents qs w u) as Htot.
    unfold status_of. unfold status_exact in Hex'.
    rewrite (find_invoice_uuid _ u) in Hex' |- * by assumption. rewrite Hl in Htot.
    destruct (invoices (store (apply_payments qs w)) !! u) as [inv1|] eqn:Hl1;
      [|discriminate Htot].
    cbn in Htot. injection Htot as Htot. cbn. rewrite (Hex' inv1 eq_refl), Htot.
    reflexivity. }
  split.
  - intros ps paid. exists (newStatus paid total). split; [apply Hstatus|].
    apply newStatus_cases.
  - intros ps ps' Hf Hvalid Htarget Hnodup Hperm db db'.
    assert (cumulative_paid iid db' = cumulative_paid iid db) as Hsame.
    { unfold db, db'. rewrite !cumulative_paid_after; eauto.
      - rewrite (total_new_amount_perm _ _ _ Hperm). reflexivity.
      - rewrite <- Hperm. assumption.
      - rewrite <- Hperm. assumption.
      - rewrite <- Hperm. assumption. }
    split; [apply cumulative_paid_after; eauto|]. split; [assumption|].
    unfold db'. rewrite Hstatus. fold db'. rewrite Hsame.
    unfold db. rewrite Hstatus. reflexivity.
Qed.

(** Invoice of 5000, payments of 3000 and 2000, in either order. *)
Lemma final_status_follows_cumulative_paid_witness :
  let id := "550e8400-e29b-41d4-a716-446655440000" in
  let inv := InvoiceRow.mk 5000 Sent in
  let w := mkWorld (mkDB {[ id := inv ]} []) None [] [] in
  let p1 := PaymentPayload.mk (Some "evt_1") (Some id) (Some (JsInt 3000)) in
  let p2 := PaymentPayload.mk (Some "evt_2") (Some id) (Some (JsInt 2000)) in
  let db := store (apply_payments [p1; p2] w) in
  let db' := store (apply_payments [p2; p1] w) in
  (∃ s, status_of id db = Some s
        ∧ (s = Paid ↔ cumulative_paid id db >= 5000)
        ∧ (s = PartiallyPaid ↔ 0 < cumulative_paid id db < 5000)
        ∧ (s = Sent ↔ ¬ cumulative_paid id db >= 5000
                      ∧ ¬ 0 < cumulative_paid id db < 5000))
  ∧ cumulative_paid id db
    = cumulative_paid id (store w) + total_new_amount (store w) [p1; p2]
  ∧ cumulative_paid id db' = cumulative_paid id db
  ∧ status_of id db' = status_of id db.
Proof.
  intros id inv w p1 p2.
  assert (uuid_in id = Some id) as Hid by (vm_compute; reflexivity).
  assert (find_invoice id (store w) = Some inv) as Hinv by (vm_compute; reflexivity).
  assert (status_exact id (store w)) as Hex.
  { intros inv' Hl. rewrite Hinv in Hl. injection Hl as <-. vm_compute. reflexivity. }
  destruct (final_status_follows_cumulative_paid w id inv Hinv Hex) as [Hfinal Horder].
  split; [apply (Hfinal [p1; p2])|].
  apply (Horder [p1; p2] [p2; p1]).
  - reflexivity.
  - repeat constructor.
    + exists "evt_1", id, 3000. repeat split; [discriminate|eauto|lia..].
    + exists "evt_2", id, 2000. repeat split; [discriminate|eauto|lia..].
  - repeat constructor.
  - apply (bool_decide_unpack _). vm_compute. reflexivity.
  - apply Permutation_swap.
Defined.

(** ** C6: what the validation of [handlePayment] rejects, and what it lets through *)

(** A missing or empty identifier and an integer amount that is not
    positive are rejected before any statement is sent. *)
Lemma validation_rejects p w :
  js_truthy (PaymentPayload.event_id p) = false
  ∨ js_truthy (PaymentPayload.invoice_id p) = false
  ∨ (∃ z, PaymentPayload.amount_cents p = Some (JsInt z) ∧ z <= 0) →
  ∃ m, handlePayment p w = (Err (BadRequestError m), w).
Proof.
  unfold handlePayment. intros [He|[Hi|(z & Hz & Hle)]].
  - rewrite He, orb_true_r. eauto.
  - rewrite Hi. eauto.
  - destruct (negb _ || negb _); [eauto|].
    rewrite Hz. simpl. destruct (Z.leb_spec z 0); [eauto|lia].
Qed.

(** An amount on which [amount_cents <= 0] is false gets as far as BEGIN,
    once a connection is there. *)
Lemma unchecked_amount_reaches_transaction eid iid amt w :
  eid ≠ "" → iid ≠ "" → js_le_zero amt = false → next_fault (faults w) = false →
  ∃ delta,
    trace (snd (handlePayment (PaymentPayload.mk (Some eid) (Some iid) amt) w))
    = trace w ++ BEGIN :: delta.
Proof.
  intros He Hi Ha Hc. unfold handlePayment.
  cbn [PaymentPayload.event_id PaymentPayload.invoice_id PaymentPayload.amount_cents].
  rewrite (js_truthy_intro _ He), (js_truthy_intro _ Hi), Ha. cbn [negb orb].
  change (js_string (Some eid)) with eid. change (js_string (Some iid)) with iid.
  rewrite withTx_run, Hc. unfold rolled_back.
  destruct (next_fault (tail (faults w))); cbn [snd trace].
  { rewrite <- app_assoc. eauto. }
  destruct (handlePayment_tx_trace eid iid amt (begun w) (store w) eq_refl)
    as (delta & Hd & _).
  destruct (handlePayment_tx eid iid amt (begun w)) as [[a|e] w1]; cbn [snd trace] in *.
  - destruct (next_fault (faults w1)); cbn [snd trace]; rewrite Hd; cbn [begun trace];
      rewrite <- !app_assoc; eauto.
  - rewrite Hd. cbn [begun trace]. rewrite <- !app_assoc. eauto.
Qed.

(** C6.  An amount that is [NaN], or that is missing, is not strictly
    positive, and yet [handlePayment] raises no validation error for it:
    the transaction is opened, the invoice is read and locked, the insert
    is sent, and it is the database that refuses the row; the error that
    reaches the caller is the database's. *)
Theorem amount_check_misses_nan_and_missing :
  let id := "550e8400-e29b-41d4-a716-446655440000" in
  let w := mkWorld (mkDB {[ id := InvoiceRow.mk 5000 Sent ]} []) None [] [] in
  let sent amount :=
    [BEGIN; SelectInvoiceForUpdate id;
     InsertPaymentOnConflictDoNothing
       (PaymentRecord.mk "evt_1" id amount PaymentReceived);
     ROLLBACK] in
  handlePayment (PaymentPayload.mk (Some "evt_1") (Some id) (Some JsNaN)) w
  = (Err (DatabaseError InvalidInteger), mkWorld (store w) None [] (sent (Some JsNaN)))
  ∧ handlePayment (PaymentPayload.mk (Some "evt_1") (Some id) None) w
    = (Err (DatabaseError NotNullViolation), mkWorld (store w) None [] (sent None)).
Proof.
  split; vm_compute; reflexivity.
Qed.
End PaymentServiceFacts.

(** ** The event queue *)

Section EventQueueFacts.
Import EventQueue.
Context {T : Type} (event_id_of : T → option string).

#[local] Abbreviation getEventId := (EventQueue.getEventId event_id_of).
#[local] Abbreviation enqueue := (EventQueue.enqueue event_id_of).
#[local] Abbreviation settle := (EventQueue.settle event_id_of).
#[local] Abbreviation resume := (EventQueue.resume event_id_of).
#[local] Abbreviation handshake := (EventQueue.handshake event_id_of).
#[local] Abbreviation invariant := (EventQueue.invariant event_id_of).
#[local] Abbreviation run := (EventQueue.run event_id_of).
#[local] Abbreviation step := (EventQueue.step event_id_of).

(** *** Readings of a journal *)

Lemma handshake_app cur l1 l2 :
  handshake cur (l1 ++ l2) = handshake cur l1 ≫= λ c, handshake c l2.
Proof.
  revert cur. induction l1 as [|e l1 IH]; intros cur; [reflexivity|].
  destruct e; cbn [app EventQueue.handshake]; try apply IH.
  - destruct cur; [reflexivity|apply IH].
  - destruct cur as [ev|]; [|reflexivity].
    destruct (String.eqb _ _); [apply IH|reflexivity].
  - destruct cur as [ev|]; [|reflexivity].
    destruct (String.eqb _ _); [apply IH|reflexivity].
Qed.

Lemma pushed_events_app (l1 l2 : list (Entry T)) :
  pushed_events (l1 ++ l2) = pushed_events l1 ++ pushed_events l2.
Proof. apply omap_app. Qed.

Lemma called_events_app (l1 l2 : list (Entry T)) :
  called_events (l1 ++ l2) = called_events l1 ++ called_events l2.
Proof. apply omap_app. Qed.

Lemma handshake_in_flight cur l cur' :
  handshake cur l = Some cur' → in_flight (flying cur) l = flying cur'.
Proof.
  revert cur. induction l as [|e l IH]; intros cur; cbn [EventQueue.handshake in_flight].
  - intros [= ->]. reflexivity.
  - destruct e; try apply IH.
    + destruct cur; [discriminate|]. apply (IH (Some event)).
    + destruct cur as [ev|]; [|discriminate].
      destruct (String.eqb _ _); [|discriminate]. apply (IH None).
    + destruct cur as [ev|]; [|discriminate].
      destruct (String.eqb _ _); [|discriminate]. apply (IH None).
Qed.

(** Between the call of the handler for [a] and a later call, the
    invocation for [a] is closed. *)
Lemma handshake_between a l2 b l3 cur' :
  handshake (Some a) (l2 ++ Called b :: l3) = Some cur' →
  ∃ e, e ∈ l2 ∧ settles (getEventId a) e.
Proof.
  induction l2 as [|e l2 IH]; cbn [app EventQueue.handshake]; [discriminate|].
  destruct e.
  - intros H. destruct (IH H) as (e & Hin & Hs). exists e. split; [by right|assumption].
  - intros H. destruct (IH H) as (e & Hin & Hs). exists e. split; [by right|assumption].
  - discriminate.
  - destruct (String.eqb_spec (getEventId a) eventId) as [->|]; [|discriminate].
    intros _. eexists. split; [by left|]. left. reflexivity.
  - destruct (String.eqb_spec (getEventId a) eventId) as [->|]; [|discriminate].
    intros _. eexists. split; [by left|]. right. eauto.
Qed.

(** *** The invariant *)

Lemma invariant_new : invariant new.
Proof.
  constructor; cbn; try reflexivity.
  intros eventId H. apply not_elem_of_empty in H. contradiction.
Qed.

Lemma handshake_snoc_quiet cur (l : list (Entry T)) e :
  (∃ ev, e = Pushed ev) ∨ (∃ eventId, e = Skipped eventId) →
  handshake None l = Some cur → handshake None (l ++ [e]) = Some cur.
Proof.
  intros He Hl. rewrite handshake_app, Hl. destruct He as [[ev ->]|[eventId ->]]; reflexivity.
Qed.

(** [processNext] restores the invariant from a queue that may be idle
    with a backlog. *)
Lemma processNext_invariant q :
  EventQueue.handshake event_id_of None (journal q) = Some (awaiting q) →
  processing q = bool_decide (is_Some (awaiting q)) →
  pushed_events (journal q) = called_events (journal q) ++ queue q →
  (∀ eventId, eventId ∈ processedEvents q → Processed eventId ∈ journal q) →
  invariant (processNext q).
Proof.
  intros Hh Hp Hf Hd. unfold processNext.
  destruct (processing q) eqn:Hproc; cbn [orb].
  { constructor; try assumption; congruence. }
  destruct (queue q) as [|event rest] eqn:Hq; cbn [length Nat.eqb].
  { constructor; try assumption; congruence. }
  assert (awaiting q = None) as Ha.
  { symmetry in Hp. apply bool_decide_eq_false in Hp.
    destruct (awaiting q); [|reflexivity]. exfalso. apply Hp. eauto. }
  constructor; cbn [note queue processing processedEvents awaiting journal].
  - rewrite handshake_app, Hh, Ha. reflexivity.
  - symmetry. apply bool_decide_eq_true. eauto.
  - discriminate.
  - rewrite pushed_events_app, called_events_app, Hf. cbn. rewrite app_nil_r, <- app_assoc.
    reflexivity.
  - intros eventId H. apply elem_of_app. left. apply Hd, H.
Qed.

Lemma enqueue_invariant event q : invariant q → invariant (enqueue event q).
Proof.
  intros [Hh Hp Hi Hf Hd]. unfold EventQueue.enqueue.
  destruct (bool_decide (getEventId event ∈ processedEvents q)).
  - constructor; cbn [note queue processing processedEvents awaiting journal]; try assumption.
    + apply handshake_snoc_quiet; eauto.
    + rewrite pushed_events_app, called_events_app, Hf. cbn. rewrite !app_nil_r. reflexivity.
    + intros eventId H. apply elem_of_app. left. apply Hd, H.
  - apply processNext_invariant;
      cbn [push note queue processing processedEvents awaiting journal]; try assumption.
    + apply handshake_snoc_quiet; eauto.
    + rewrite pushed_events_app, called_events_app, Hf. cbn.
      rewrite app_nil_r, <- app_assoc. reflexivity.
    + intros eventId H. apply elem_of_app. left. apply Hd, H.
Qed.

Lemma release_processNext (q : t T) :
  release q
  = processNext (mk (queue q) false (processedEvents q) (awaiting q) (journal q)).
Proof.
  unfold release, processNext. cbn [queue processing orb].
  destruct (queue q); reflexivity.
Qed.

Lemma settle_invariant r q : invariant q → invariant (snd (settle r q)).
Proof.
  intros [Hh Hp Hi Hf Hd]. unfold EventQueue.settle.
  destruct (awaiting q) as [event|] eqn:Ha;
    [|cbn [snd]; constructor; rewrite ?Ha; assumption].
  unfold EventQueue.resume, try_finally, try_catch, bind, markProcessed, reportFailure.
  destruct r as [[]|err]; cbn [fst snd]; rewrite release_processNext;
    apply processNext_invariant;
    cbn [note queue processing processedEvents awaiting journal].
  - rewrite handshake_app, Hh. cbn. rewrite String.eqb_refl. reflexivity.
  - reflexivity.
  - rewrite pushed_events_app, called_events_app, Hf. cbn. rewrite !app_nil_r. reflexivity.
  - intros eventId H. apply elem_of_app. apply elem_of_union in H as [H|H].
    + apply elem_of_singleton in H as ->. right. left.
    + left. apply Hd, H.
  - rewrite handshake_app, Hh. cbn. rewrite String.eqb_refl. reflexivity.
  - reflexivity.
  - rewrite pushed_events_app, called_events_app, Hf. cbn. rewrite !app_nil_r. reflexivity.
  - intros eventId H. apply elem_of_app. left. apply Hd, H.
Qed.

Lemma run_invariant acts q : invariant q → invariant (run acts q).
Proof.
  revert q. induction acts as [|a acts IH]; intros q Hq; [assumption|].
  apply IH. destruct a; [apply enqueue_invariant|apply settle_invariant]; assumption.
Qed.

(** ** C4: one handler invocation at a time, in the order of arrival *)

(** C4.  In every queue reached from a new one by calls of [enqueue] and
    by the handler's promise settling: (1) the events the handler has been
    called with, in the order of the calls, followed by the backlog, are
    the events pushed, in the order of the pushes; (2) at no point of the
    journal is more than one invocation in flight; (3) between the call of
    the handler for an event [a] and any later call of the handler, the
    invocation for [a] has been closed, by a success or by a failure. *)
Theorem one_invocation_at_a_time_in_fifo_order (acts : list (Action T)) :
  let q := run acts new in
  pushed_events (journal q) = called_events (journal q) ++ queue q
  ∧ (∀ l1 l2, journal q = l1 ++ l2 → (in_flight 0 l1 <= 1)%nat)
  ∧ (∀ l1 a l2 b l3,
        journal q = l1 ++ Called a :: l2 ++ Called b :: l3 →
        ∃ e, e ∈ l2 ∧ settles (getEventId a) e).
Proof.
  intros q. destruct (run_invariant acts new invariant_new) as [Hh _ _ Hf _].
  fold q in Hh, Hf. split; [assumption|]. split.
  - intros l1 l2 Hj. rewrite Hj, handshake_app in Hh.
    destruct (EventQueue.handshake event_id_of None l1) as [c1|] eqn:H1; [|discriminate].
    apply handshake_in_flight in H1. cbn [flying] in H1. rewrite H1.
    destruct c1; simpl; lia.
  - intros l1 a l2 b l3 Hj. rewrite Hj, handshake_app in Hh.
    destruct (EventQueue.handshake event_id_of None l1) as [c1|]; [|discriminate].
    cbn [mbind option_bind EventQueue.handshake] in Hh.
    destruct c1; [discriminate|].
    eapply handshake_between. eassumption.
Qed.

(** ** C7: [enqueue] *)

Lemma enqueue_unprocessed (q : t T) (event : T) :
  getEventId event ∉ processedEvents q →
  enqueue event q = processNext (push event q)
  ∧ (processing q = true →
     enqueue event q
     = mk (queue q ++ [event]) true (processedEvents q) (awaiting q)
         (journal q ++ [Pushed event])).
Proof.
  intros Hin. unfold EventQueue.enqueue.
  rewrite bool_decide_eq_false_2 by assumption. split; [reflexivity|].
  intros Hp. unfold processNext, push, note. cbn [processing queue]. rewrite Hp.
  reflexivity.
Qed.

(** C7.  For every queue state: an event whose identifier is in the
    processed-set leaves backlog, flag, processed-set and suspended call as
    they are, and only prints the skip line; an event whose identifier is
    not in the processed-set is appended to the backlog and [processNext]
    is called, which does nothing more when the queue is processing, and
    otherwise takes the oldest entry of the backlog and calls the handler
    with it. *)
Theorem enqueue_skips_processed_and_appends_others (q : t T) (event : T) :
  (getEventId event ∈ processedEvents q →
   enqueue event q
   = mk (queue q) (processing q) (processedEvents q) (awaiting q)
       (journal q ++ [Skipped (getEventId event)]))
  ∧ (getEventId event ∉ processedEvents q →
     enqueue event q = processNext (push event q)
     ∧ queue (push event q) = queue q ++ [event]
     ∧ (processing q = true →
        enqueue event q
        = mk (queue q ++ [event]) true (processedEvents q) (awaiting q)
            (journal q ++ [Pushed event]))
     ∧ (processing q = false →
        ∃ next rest,
          queue q ++ [event] = next :: rest
          ∧ enqueue event q
            = mk rest true (processedEvents q) (Some next)
                (journal q ++ [Pushed event; Called next]))).
Proof.
  unfold EventQueue.enqueue. split; intros Hin.
  - rewrite bool_decide_eq_true_2 by assumption. reflexivity.
  - rewrite bool_decide_eq_false_2 by assumption.
    split; [reflexivity|]. split; [reflexivity|]. split; intros Hp.
    + unfold processNext, push, note. cbn [processing queue]. rewrite Hp. reflexivity.
    + unfold processNext, push, note.
      cbn [processing queue processedEvents awaiting journal]. rewrite Hp.
      destruct (queue q ++ [event]) as [|next rest] eqn:Hq.
      { destruct (queue q); discriminate Hq. }
      cbn [orb length Nat.eqb]. exists next, rest. split; [reflexivity|].
      rewrite <- app_assoc. reflexivity.
Qed.

(** ** C8: a failing handler *)

(** C8.  The handler's promise rejects with [err] while [event] is in
    flight.  Then the promise of [processNext] still resolves, the failure
    is printed, the processed-set is unchanged, the event is neither in
    flight nor put back on the backlog, and the oldest entry of the
    backlog, if there is one, is taken next. *)
Theorem failing_handler_drops_the_event (q : t T) (event : T) (err : Error) :
  awaiting q = Some event →
  fst (settle (Err err) q) = Ok tt
  ∧ snd (settle (Err err) q)
    = match queue q with
      | [] =>
          mk [] false (processedEvents q) None
            (journal q ++ [Failed (getEventId event) err])
      | next :: rest =>
          mk rest true (processedEvents q) (Some next)
            (journal q ++ [Failed (getEventId event) err; Called next])
      end.
Proof.
  intros Ha. unfold EventQueue.settle. rewrite Ha.
  unfold EventQueue.resume, try_finally, try_catch, bind, reportFailure.
  cbn [fst snd]. split; [reflexivity|].
  rewrite release_processNext. unfold processNext, note.
  cbn [queue processing processedEvents awaiting journal orb].
  destruct (queue q) as [|next rest]; cbn [length Nat.eqb]; [reflexivity|].
  rewrite <- app_assoc. reflexivity.
Qed.

(** ** C10: the processed-set knows successes only *)

(** C10.  In every queue reached from a new one: when no invocation of the
    handler for the identifier of [event] has succeeded so far (the event
    may be in the backlog, in flight, or have failed), the identifier is
    not in the processed-set and [enqueue] appends one more copy of the
    event and calls [processNext]; if the queue is processing the copy
    stays on the backlog.  And an event enqueued twice in a row on a new
    queue is handed to the handler twice, however the first invocation
    ends. *)
Theorem unprocessed_identifier_is_queued_again (acts : list (Action T)) (event : T) :
  let q := run acts new in
  (¬ In (Processed (getEventId event)) (journal q) →
   (getEventId event ∉ processedEvents q)
   ∧ enqueue event q = processNext (push event q)
   ∧ (processing q = true → queue (enqueue event q) = queue q ++ [event]))
  ∧ (∀ r,
        called_events (journal (run [Enqueue event; Enqueue event; Settle r] new))
        = [event; event]).
Proof.
  intros q. split.
  - intros Hno. destruct (run_invariant acts new invariant_new) as [_ _ _ _ Hd].
    fold q in Hd.
    assert (getEventId event ∉ processedEvents q) as Hnot
      by (intros H; apply Hno, list_elem_of_In, Hd, H).
    split; [assumption|].
    destruct (enqueue_unprocessed q event Hnot) as (He & Hp).
    split; [assumption|]. intros Hproc. rewrite (Hp Hproc). reflexivity.
  - intros r. unfold EventQueue.run. cbn [foldl EventQueue.step].
    unfold EventQueue.enqueue at 2. cbn [new processedEvents].
    rewrite bool_decide_eq_false_2 by apply not_elem_of_empty.
    cbn [processNext push note queue processing processedEvents awaiting journal
           orb app length Nat.eqb].
    unfold EventQueue.enqueue. cbn [processedEvents].
    rewrite bool_decide_eq_false_2 by apply not_elem_of_empty.
    cbn [processNext push note queue processing processedEvents awaiting journal
           orb app length Nat.eqb].
    unfold EventQueue.settle. cbn [awaiting].
    unfold EventQueue.resume, try_finally, try_catch, bind, markProcessed, reportFailure.
    destruct r as [[]|err]; reflexivity.
Qed.
End EventQueueFacts.

(** *** The queue theorems at concrete queues of strings *)

Section EventQueueWitnesses.
Import EventQueue.

(** Once [a] is processed, [a] is skipped and [b] is started. *)
Lemma enqueue_skips_processed_and_appends_others_witness :
  let q := run Some [Enqueue "a"; Settle (Ok tt)] new in
  enqueue Some "a" q
  = mk (queue q) (processing q) (processedEvents q) (awaiting q)
      (journal q ++ [Skipped "a"])
  ∧ enqueue Some "b" q = processNext (push "b" q).
Proof.
  intros q. split.
  - apply (proj1 (enqueue_skips_processed_and_appends_others Some q "a")).
    vm_compute. reflexivity.
  - apply (proj2 (enqueue_skips_processed_and_appends_others Some q "b")).
    vm_compute. discriminate.
Defined.

(** [a] fails while [b] waits. *)
Lemma failing_handler_drops_the_event_witness :
  let q := run Some [Enqueue "a"; Enqueue "b"] new in
  let err := DatabaseError ConnectionFailure in
  fst (settle Some (Err err) q) = Ok tt
  ∧ snd (settle Some (Err err) q)
    = mk [] true ∅ (Some "b")
        [Pushed "a"; Called "a"; Pushed "b"; Failed "a" err; Called "b"].
Proof.
  intros q err.
  apply (failing_handler_drops_the_event Some q "a" err). reflexivity.
Defined.

(** [a] is in flight and is enqueued once more. *)
Lemma unprocessed_identifier_is_queued_again_witness :
  let q := run Some [Enqueue "a"] new in
  ("a" ∉ processedEvents q)
  ∧ enqueue Some "a" q = processNext (push "a" q)
  ∧ (processing q = true → queue (enqueue Some "a" q) = queue q ++ ["a"]).
Proof.
  intros q.
  apply (proj1 (unprocessed_identifier_is_queued_again Some [Enqueue "a"] "a")).
  simpl. intros [H|[H|[]]]; discriminate H.
Defined.

End EventQueueWitnesses.

(** ** The queue in front of the service *)

Section EndToEnd.
Import EventQueue.

(** The same event delivered twice before the first copy is handled: the
    queue hands both copies to the handler, the payments table keeps one
    row, and the invoice is paid. *)
Example double_delivery_recorded_once :
  let id := "550e8400-e29b-41d4-a716-446655440000" in
  let p := PaymentPayload.mk (Some "evt_1") (Some id) (Some (JsInt 5000)) in
  let db := mkDB {[ id := InvoiceRow.mk 5000 Sent ]} [] in
  let s0 : PaymentActor.paymentQueue := (new, mkWorld db None [] []) in
  let s := PaymentActor.deliver
             (PaymentActor.deliver (PaymentActor.enqueue p (PaymentActor.enqueue p s0))) in
  called_events (journal (fst s)) = [p; p]
  ∧ payments (store (snd s)) = [payment_row "evt_1" id 5000]
  ∧ status_of id (store (snd s)) = Some Paid
  ∧ length (filter is_update (trace (snd s))) = 1%nat.
Proof.
  repeat split; vm_compute; reflexivity.
Qed.

End EndToEnd.

(** ** More on the event queue *)

Section EventQueueMore.
Import EventQueue.
Context {T : Type} (event_id_of : T → option string).

#[local] Abbreviation getEventId := (EventQueue.getEventId event_id_of).
#[local] Abbreviation enqueue := (EventQueue.enqueue event_id_of).
#[local] Abbreviation settle := (EventQueue.settle event_id_of).
#[local] Abbreviation invariant := (EventQueue.invariant event_id_of).
#[local] Abbreviation run := (EventQueue.run event_id_of).
#[local] Abbreviation step := (EventQueue.step event_id_of).

(** *** The three ways of [enqueue] and the two ways of a settling *)

Lemma enqueue_cases (q : t T) (event : T) :
  (getEventId event ∈ processedEvents q
   ∧ enqueue event q
     = mk (queue q) (processing q) (processedEvents q) (awaiting q)
         (journal q ++ [Skipped (getEventId event)]))
  ∨ ((getEventId event ∉ processedEvents q) ∧ processing q = true
     ∧ enqueue event q
       = mk (queue q ++ [event]) true (processedEvents q) (awaiting q)
           (journal q ++ [Pushed event]))
  ∨ ((getEventId event ∉ processedEvents q) ∧ processing q = false
     ∧ ∃ next rest,
         queue q ++ [event] = next :: rest
         ∧ enqueue event q
           = mk rest true (processedEvents q) (Some next)
               (journal q ++ [Pushed event; Called next])).
Proof.
  unfold EventQueue.enqueue.
  destruct (decide (getEventId event ∈ processedEvents q)) as [Hin|Hin].
  - left. rewrite bool_decide_eq_true_2 by assumption. auto.
  - right. rewrite bool_decide_eq_false_2 by assumption.
    unfold processNext, push, note.
    cbn [processing queue processedEvents awaiting journal].
    destruct (processing q) eqn:Hp; cbn [orb].
    + left. auto.
    + right. split; [assumption|]. split; [reflexivity|].
      destruct (queue q ++ [event]) as [|next rest] eqn:Hq.
      { destruct (queue q); discriminate Hq. }
      cbn [length Nat.eqb]. exists next, rest. split; [reflexivity|].
      rewrite <- app_assoc. reflexivity.
Qed.

Lemma settle_eq (r : Outcome unit) (q : t T) (event : T) :
  awaiting q = Some event →
  let line := match r with
              | Ok _ => Processed (getEventId event)
              | Err err => Failed (getEventId event) err
              end in
  let done := match r with
              | Ok _ => {[getEventId event]} ∪ processedEvents q
              | Err _ => processedEvents q
              end in
  snd (settle r q)
  = match queue q with
    | [] => mk [] false done None (journal q ++ [line])
    | next :: rest => mk rest true done (Some next) (journal q ++ [line; Called next])
    end.
Proof.
  intros Ha. unfold EventQueue.settle. rewrite Ha.
  unfold EventQueue.resume, try_finally, try_catch, bind, markProcessed, reportFailure.
  destruct r as [[]|err]; cbn [fst snd]; rewrite release_processNext;
    unfold processNext, note;
    cbn [queue processing processedEvents awaiting journal orb];
    (destruct (queue q) as [|next rest]; cbn [length Nat.eqb]; [reflexivity|]);
    rewrite <- app_assoc; reflexivity.
Qed.

Lemma settle_idle (r : Outcome unit) (q : t T) :
  awaiting q = None → snd (settle r q) = q.
Proof. intros Ha. unfold EventQueue.settle. rewrite Ha. reflexivity. Qed.

Lemma run_preserves (P : t T → Prop) :
  (∀ q a, P q → P (step q a)) → ∀ acts q, P q → P (run acts q).
Proof.
  intros Hstep acts. induction acts as [|a acts IH]; intros q Hq; [assumption|].
  apply IH, Hstep, Hq.
Qed.

Lemma run_app acts1 acts2 (q : t T) : run (acts1 ++ acts2) q = run acts2 (run acts1 q).
Proof. apply foldl_app. Qed.

(** *** The processed-set holds the successes, all of them, for good *)

Lemma step_processed_grows (q : t T) a eventId :
  eventId ∈ processedEvents q → eventId ∈ processedEvents (step q a).
Proof.
  intros Hin. destruct a as [event|r]; cbn [EventQueue.step].
  - destruct (enqueue_cases q event)
      as [[_ ->]|[(_ & _ & ->)|(_ & _ & next & rest & _ & ->)]]; assumption.
  - destruct (awaiting q) as [event|] eqn:Ha; [|rewrite settle_idle; assumption].
    rewrite (settle_eq r q event Ha).
    destruct r as [[]|err], (queue q); cbn [processedEvents];
      try assumption; apply elem_of_union; right; assumption.
Qed.

Lemma step_processed_complete (q : t T) a :
  (∀ eventId, Processed eventId ∈ journal q → eventId ∈ processedEvents q) →
  ∀ eventId, Processed eventId ∈ journal (step q a) → eventId ∈ processedEvents (step q a).
Proof.
  intros Hq eventId. destruct a as [event|r]; cbn [EventQueue.step].
  - destruct (enqueue_cases q event)
      as [[_ ->]|[(_ & _ & ->)|(_ & _ & next & rest & _ & ->)]];
      cbn [journal processedEvents]; intros H;
      apply elem_of_app in H as [H|H]; try (apply Hq, H);
      repeat (apply elem_of_cons in H as [H|H]; [discriminate H|]);
      apply elem_of_nil in H; contradiction.
  - destruct (awaiting q) as [event|] eqn:Ha; [|rewrite settle_idle by assumption; apply Hq].
    rewrite (settle_eq r q event Ha).
    destruct r as [[]|err], (queue q); cbn [journal processedEvents]; intros H;
      apply elem_of_app in H as [H|H];
      try (apply Hq, H); try (apply elem_of_union; right; apply Hq, H);
      repeat (apply elem_of_cons in H as [H|H];
              [try discriminate H; injection H as ->; apply elem_of_union; left;
               apply elem_of_singleton; reflexivity|]);
      apply elem_of_nil in H; contradiction.
Qed.

(** [isEventProcessed] answers true exactly for the identifiers for which
    an invocation of the handler has succeeded. *)
Theorem isEventProcessed_iff_succeeded (acts : list (Action T)) (eventId : string) :
  isEventProcessed eventId (run acts new) = true
  ↔ Processed eventId ∈ journal (run acts new).
Proof.
  unfold isEventProcessed. rewrite bool_decide_eq_true. split.
  - apply (inv_processed _ _ (run_invariant event_id_of acts new (invariant_new event_id_of))).
  - revert eventId.
    apply (run_preserves
             (λ q, ∀ eventId, Processed eventId ∈ journal q → eventId ∈ processedEvents q)).
    + intros q a. apply step_processed_complete.
    + intros eventId H. apply elem_of_nil in H. contradiction.
Qed.

(** An identifier that is in the processed-set stays in it whatever
    happens next, and every later [enqueue] of an event that bears it is
    skipped: nothing is pushed, nothing is started. *)
Theorem processed_identifier_is_skipped_for_good
    (q : t T) (acts : list (Action T)) (event : T) :
  getEventId event ∈ processedEvents q →
  let q' := run acts q in
  getEventId event ∈ processedEvents q'
  ∧ enqueue event q'
    = mk (queue q') (processing q') (processedEvents q') (awaiting q')
        (journal q' ++ [Skipped (getEventId event)]).
Proof.
  intros Hin q'.
  assert (getEventId event ∈ processedEvents q') as Hin'.
  { apply (run_preserves (λ q, getEventId event ∈ processedEvents q)); [|assumption].
    intros q0 a. apply step_processed_grows. }
  split; [assumption|].
  destruct (enqueue_cases q' event) as [[_ ->]|[(Hn & _)|(Hn & _)]];
    [reflexivity|contradiction..].
Qed.

(** Events that carry no [event_id], or an empty one, all go by the
    identifier [unknown]: once one of them has been handled with success,
    [enqueue] skips every other. *)
Theorem events_without_identifier_collide (q : t T) (e1 e2 : T) :
  awaiting q = Some e1 →
  event_id_of e1 = None ∨ event_id_of e1 = Some "" →
  event_id_of e2 = None ∨ event_id_of e2 = Some "" →
  let q' := snd (settle (Ok tt) q) in
  enqueue e2 q'
  = mk (queue q') (processing q') (processedEvents q') (awaiting q')
      (journal q' ++ [Skipped "unknown"]).
Proof.
  intros Ha H1 H2 q'.
  assert (getEventId e1 = "unknown") as Hid1
    by (unfold EventQueue.getEventId; destruct H1 as [-> | ->]; reflexivity).
  assert (getEventId e2 = "unknown") as Hid2
    by (unfold EventQueue.getEventId; destruct H2 as [-> | ->]; reflexivity).
  assert (getEventId e2 ∈ processedEvents q') as Hin.
  { unfold q'. rewrite (settle_eq (Ok tt) q e1 Ha), Hid1, Hid2.
    destruct (queue q); cbn [processedEvents]; apply elem_of_union; left;
      apply elem_of_singleton; reflexivity. }
  destruct (enqueue_cases q' e2) as [[_ ->]|[(Hn & _)|(Hn & _)]];
    [rewrite Hid2; reflexivity|contradiction..].
Qed.

(** *** An idle queue has nothing left to do *)

(** The statistics of a queue reached from a new one: every event pushed
    has been handed to the handler or waits on the backlog; a queue that is
    not processing has an empty backlog and has handed every event pushed
    to the handler, in the order of the pushes. *)
Theorem idle_queue_has_no_backlog (acts : list (Action T)) :
  let q := run acts new in
  let queueLength := fst (fst (getQueueStats q)) in
  let isProcessing := snd (getQueueStats q) in
  length (pushed_events (journal q))
  = (length (called_events (journal q)) + queueLength)%nat
  ∧ (isProcessing = false →
     queueLength = 0%nat ∧ awaiting q = None
     ∧ called_events (journal q) = pushed_events (journal q))
  ∧ (isProcessing = true → is_Some (awaiting q)).
Proof.
  intros q. cbn [getQueueStats fst snd].
  destruct (run_invariant event_id_of acts new (invariant_new event_id_of))
    as [_ Hp Hi Hf _].
  fold q in Hp, Hi, Hf. split; [rewrite Hf, length_app; reflexivity|]. split.
  - intros Hidle. rewrite Hf, (Hi Hidle), app_nil_r. repeat split.
    rewrite Hidle in Hp. symmetry in Hp. apply bool_decide_eq_false in Hp.
    destruct (awaiting q); [exfalso; apply Hp; eauto|reflexivity].
  - intros Hbusy. rewrite Hbusy in Hp. symmetry in Hp.
    apply bool_decide_eq_true in Hp. assumption.
Qed.

Lemma settle_owed (r : Outcome unit) (q : t T) :
  invariant q →
  owed (snd (settle r q)) = pred (owed q)
  ∧ pushed_events (journal (snd (settle r q))) = pushed_events (journal q).
Proof.
  intros [_ Hp _ _ _]. unfold owed.
  destruct (awaiting q) as [event|] eqn:Ha.
  - assert (processing q = true) as -> by (rewrite Hp; apply bool_decide_eq_true; eauto).
    rewrite (settle_eq r q event Ha).
    destruct (queue q); cbn [processing queue journal length pred];
      rewrite pushed_events_app; destruct r as [[]|err]; cbn; rewrite app_nil_r; auto.
  - rewrite settle_idle by assumption.
    assert (processing q = false) as ->.
    { rewrite Hp. apply bool_decide_eq_false. intros [x Hx]. discriminate Hx. }
    auto.
Qed.

(** Whatever the outcomes of the handler, once as many invocations have
    settled as the queue owed (the one in flight and the backlog), the
    queue is idle with an empty backlog, and the handler has been called
    with every event pushed, once each and in the order of the pushes. *)
Theorem backlog_drains (acts : list (Action T)) (rs : list (Outcome unit)) :
  let q := run acts new in
  (owed q <= length rs)%nat →
  let q' := run (Settle <$> rs) q in
  processing q' = false ∧ queue q' = [] ∧ awaiting q' = None
  ∧ pushed_events (journal q') = pushed_events (journal q)
  ∧ called_events (journal q') = pushed_events (journal q).
Proof.
  intros q Hlen q'.
  assert (invariant q) as Hinv
    by apply (run_invariant event_id_of acts new (invariant_new event_id_of)).
  assert (invariant q' ∧ owed q' = (owed q - length rs)%nat
          ∧ pushed_events (journal q') = pushed_events (journal q)) as (Hinv' & Hq' & Hpush).
  { subst q'. clear Hlen. revert Hinv. generalize q. clear q.
    induction rs as [|r rs IH]; intros q Hinv.
    - cbn. split; [assumption|]. split; [lia|reflexivity].
    - rewrite fmap_cons. change (run (Settle r :: (Settle <$> rs)) q)
        with (run (Settle <$> rs) (snd (settle r q))).
      destruct (settle_owed r q Hinv) as [Ho Hp].
      destruct (IH _ (settle_invariant event_id_of r q Hinv)) as (Hi & Ho' & Hp').
      split; [assumption|]. split; [rewrite Ho', Ho; cbn [length]; lia|congruence]. }
  destruct Hinv' as [_ Hp Hi Hf _].
  assert (processing q' = false) as Hidle.
  { assert (owed q' = 0%nat) as Hz by lia. unfold owed in Hz.
    destruct (processing q'); [discriminate Hz|reflexivity]. }
  split; [assumption|]. split; [apply Hi, Hidle|]. split.
  - rewrite Hidle in Hp. symmetry in Hp. apply bool_decide_eq_false in Hp.
    destruct (awaiting q'); [exfalso; apply Hp; eauto|reflexivity].
  - split; [assumption|]. rewrite <- Hpush, Hf, (Hi Hidle), app_nil_r. reflexivity.
Qed.

(** *** The queue and its earlier version *)

Lemma reported_errors_app (l1 l2 : list (Entry T)) :
  reported_errors (l1 ++ l2) = reported_errors l1 ++ reported_errors l2.
Proof. apply omap_app. Qed.

Lemma skips_app (l1 l2 : list (Entry T)) : skips (l1 ++ l2) = (skips l1 + skips l2)%nat.
Proof. unfold skips. rewrite omap_app, length_app. reflexivity. Qed.

Lemma step_erase (q : t T) a :
  (skips (journal q) <= skips (journal (step q a)))%nat
  ∧ (skips (journal (step q a)) = skips (journal q) →
     erase (step q a) = EventQueue0.step (erase q) a).
Proof.
  destruct a as [event|r]; cbn [EventQueue.step EventQueue0.step].
  - destruct (enqueue_cases q event)
      as [[_ ->]|[(_ & Hp & ->)|(_ & Hp & next & rest & Hq & ->)]];
      cbn [journal]; rewrite skips_app; cbn; (split; [lia|]); try lia; intros _;
      unfold erase, EventQueue0.enqueue, EventQueue0.processNext;
      cbn [queue processing awaiting journal EventQueue0.queue EventQueue0.processing
             EventQueue0.awaiting EventQueue0.console];
      rewrite reported_errors_app, Hp; cbn [orb]; rewrite ?app_nil_r; [reflexivity|].
    rewrite Hq. reflexivity.
  - destruct (awaiting q) as [event|] eqn:Ha.
    + rewrite (settle_eq r q event Ha).
      unfold erase, EventQueue0.settle, EventQueue0.resume, try_finally, try_catch,
        EventQueue0.reportFailure, EventQueue0.release, EventQueue0.processNext.
      cbn [queue processing awaiting journal EventQueue0.queue EventQueue0.processing
             EventQueue0.awaiting EventQueue0.console].
      rewrite Ha.
      destruct r as [[]|err], (queue q); cbn [journal fst snd]; rewrite skips_app;
        cbn; (split; [lia|]); intros _;
        cbn [queue processing awaiting journal EventQueue0.queue EventQueue0.processing
               EventQueue0.awaiting EventQueue0.console];
        rewrite reported_errors_app; cbn; rewrite ?app_nil_r; reflexivity.
    + rewrite settle_idle by assumption. split; [lia|]. intros _.
      unfold erase, EventQueue0.settle. cbn [EventQueue0.awaiting]. rewrite Ha.
      reflexivity.
Qed.

Lemma run_skips (acts : list (Action T)) (q : t T) :
  (skips (journal q) <= skips (journal (run acts q)))%nat.
Proof.
  revert q. induction acts as [|a acts IH]; intros q; [cbn; lia|].
  change (run (a :: acts) q) with (run acts (step q a)).
  pose proof (proj1 (step_erase q a)). pose proof (IH (step q a)). lia.
Qed.

(** As long as [enqueue] skips nothing, the queue does what its earlier
    version, which has no processed-set, does on the same calls and
    outcomes: same backlog, same flag, same event in flight, same errors
    printed. *)
Theorem without_skips_queue_is_its_earlier_version
    (acts : list (Action T)) (q : t T) :
  skips (journal (run acts q)) = skips (journal q) →
  erase (run acts q) = EventQueue0.run acts (erase q).
Proof.
  revert q. induction acts as [|a acts IH]; intros q Hskips; [reflexivity|].
  change (run (a :: acts) q) with (run acts (step q a)) in *.
  change (EventQueue0.run (a :: acts) (erase q))
    with (EventQueue0.run acts (EventQueue0.step (erase q) a)).
  destruct (step_erase q a) as [Hle Hstep].
  pose proof (run_skips acts (step q a)) as Hrest.
  rewrite IH by lia. rewrite Hstep by lia. reflexivity.
Qed.
End EventQueueMore.

Section EventQueueMoreWitnesses.
Import EventQueue.

Lemma processed_identifier_is_skipped_for_good_witness :
  let q := run Some [Enqueue "a"; Settle (Ok tt)] new in
  let q' := run Some [Enqueue "b"; Settle (Err (NotFoundError "Invoice not found"))] q in
  "a" ∈ processedEvents q'
  ∧ enqueue Some "a" q'
    = mk (queue q') (processing q') (processedEvents q') (awaiting q')
        (journal q' ++ [Skipped "a"]).
Proof.
  intros q.
  apply (processed_identifier_is_skipped_for_good Some q
           [Enqueue "b"; Settle (Err (NotFoundError "Invoice not found"))] "a").
  vm_compute. reflexivity.
Defined.

(** Two events without identifier, in a queue of optional strings. *)
Lemma events_without_identifier_collide_witness :
  let q := run id [Enqueue None] new in
  let q' := snd (settle id (Ok tt) q) in
  enqueue id (Some "") q'
  = mk (queue q') (processing q') (processedEvents q') (awaiting q')
      (journal q' ++ [Skipped "unknown"]).
Proof.
  intros q.
  apply (events_without_identifier_collide id q None (Some "")).
  - reflexivity.
  - left. reflexivity.
  - right. reflexivity.
Defined.

Lemma backlog_drains_witness :
  let q := run Some [Enqueue "a"; Enqueue "b"; Enqueue "c"] new in
  let q' := run Some (Settle <$> [Ok tt; Err (NotFoundError "Invoice not found"); Ok tt]) q in
  processing q' = false ∧ queue q' = [] ∧ awaiting q' = None
  ∧ pushed_events (journal q') = pushed_events (journal q)
  ∧ called_events (journal q') = pushed_events (journal q).
Proof.
  intros q.
  apply (backlog_drains Some [Enqueue "a"; Enqueue "b"; Enqueue "c"]
           [Ok tt; Err (NotFoundError "Invoice not found"); Ok tt]).
  vm_compute. lia.
Defined.

Lemma without_skips_queue_is_its_earlier_version_witness :
  let acts := [Enqueue "a"; Enqueue "b"; Settle (Err (NotFoundError "Invoice not found"))] in
  erase (run Some acts new) = EventQueue0.run acts (erase new).
Proof.
  intros acts.
  apply (without_skips_queue_is_its_earlier_version Some acts new).
  reflexivity.
Defined.

End EventQueueMoreWitnesses.

(** ** More on the payment service *)

Section PaymentServiceMore.
Import PaymentRepository PaymentService.

(** *** What one application can do to the tables *)

Lemma apply_payments_preserves (P : DB → Prop) :
  (∀ p w, P (store w) → P (store (snd (handlePayment p w)))) →
  ∀ ps w, P (store w) → P (store (apply_payments ps w)).
Proof.
  intros Hstep ps. induction ps as [|p ps IH]; intros w Hw; [assumption|].
  rewrite apply_payments_cons. apply IH, Hstep, Hw.
Qed.

Lemma event_ids_apply_payment eid u z total db :
  PaymentRow.event_id <$> payments (apply_payment eid u z total db)
  = (PaymentRow.event_id <$> payments db) ++ [eid].
Proof. rewrite payments_apply_payment, fmap_app. reflexivity. Qed.

Lemma has_event_false_not_in eid db :
  has_event eid db = false → eid ∉ PaymentRow.event_id <$> payments db.
Proof.
  intros Hev Hin. apply list_elem_of_fmap in Hin as (r & -> & Hr).
  assert (has_event (PaymentRow.event_id r) db = true) by (apply has_event_spec; eauto).
  congruence.
Qed.

Lemma schema_ok_apply_payment eid u z inv db :
  0 < z → invoices db !! u = Some inv → has_event eid db = false →
  schema_ok db → schema_ok (apply_payment eid u z (InvoiceRow.total_cents inv) db).
Proof.
  intros Hz Hinv Hev (Hpk & Hpos & Hfk). repeat split.
  - unfold event_ids_unique. rewrite event_ids_apply_payment.
    apply NoDup_app. split; [assumption|]. split; [|apply NoDup_singleton].
    intros x Hx Hx'. apply list_elem_of_singleton in Hx' as ->.
    apply (has_event_false_not_in _ _ Hev Hx).
  - unfold amounts_positive. rewrite payments_apply_payment.
    apply Forall_app. split; [assumption|]. repeat constructor. assumption.
  - unfold invoices_referenced. rewrite payments_apply_payment.
    assert (∀ id, is_Some (invoices db !! id) →
                  is_Some (invoices (apply_payment eid u z (InvoiceRow.total_cents inv) db) !! id))
      as Hkeep.
    { intros id [r Hr]. rewrite invoices_apply_payment, Hr.
      destruct (decide (id = u)); eauto. }
    apply Forall_app. split.
    + eapply Forall_impl; [exact Hfk|]. intros r. apply Hkeep.
    + repeat constructor. apply Hkeep. cbn. eauto.
Qed.

Lemma handlePayment_schema_ok p w :
  schema_ok (store w) → schema_ok (store (snd (handlePayment p w))).
Proof.
  intros Hok.
  destruct (handlePayment_outcomes p w)
    as [(e & _ & Hs)
       |(eid & iid & u & z & inv & _ & _ & _ & Hz & Hinv & _ & [(_ & _ & Hs)|(Hev & _ & Hs)])];
    rewrite Hs; try assumption.
  apply schema_ok_apply_payment; [lia|assumption..].
Qed.

Lemma unique_event_counts_once db eid :
  event_ids_unique db → (count_event eid db <= 1)%nat.
Proof.
  unfold event_ids_unique, count_event.
  induction (payments db) as [|r l IH]; intros Hpk; [cbn; lia|].
  rewrite fmap_cons in Hpk. apply NoDup_cons in Hpk as [Hr Hl].
  rewrite filter_cons. destruct (decide (PaymentRow.event_id r = eid)) as [Heq|Hne].
  - cbn [length]. specialize (IH Hl).
    destruct (filter _ l) as [|r' l'] eqn:Hf; [cbn; lia|]. exfalso. apply Hr.
    assert (r' ∈ filter (λ r, PaymentRow.event_id r = eid) l) as Hin by (rewrite Hf; left).
    apply list_elem_of_filter in Hin as [Hid Hin]. rewrite Heq, <- Hid.
    apply list_elem_of_fmap. eauto.
  - apply IH, Hl.
Qed.

Lemma handlePayment_prefix p w :
  payments (store w) `prefix_of` payments (store (snd (handlePayment p w))).
Proof.
  destruct (handlePayment_outcomes p w)
    as [(e & _ & Hs)
       |(eid & iid & u & z & inv & _ & _ & _ & _ & _ & _ & [(_ & _ & Hs)|(_ & _ & Hs)])];
    rewrite Hs; try reflexivity.
  rewrite payments_apply_payment. apply prefix_app_r. reflexivity.
Qed.

Lemma apply_payments_prefix ps w :
  payments (store w) `prefix_of` payments (store (apply_payments ps w)).
Proof.
  revert w. induction ps as [|p ps IH]; intros w; [reflexivity|].
  rewrite apply_payments_cons. etransitivity; [apply handlePayment_prefix|apply IH].
Qed.

(** Whatever the payloads and the storage faults, applications keep the
    constraints of the schema: one row per event identifier, positive
    amounts, every payment against an invoice that exists.  In particular
    no event identifier is ever recorded twice. *)
Theorem applications_keep_the_schema (ps : list PaymentPayload.t) (w : World) :
  schema_ok (store w) →
  schema_ok (store (apply_payments ps w))
  ∧ ∀ eid, (count_event eid (store (apply_payments ps w)) <= 1)%nat.
Proof.
  intros Hok.
  assert (schema_ok (store (apply_payments ps w))) as Hok'.
  { revert Hok. apply apply_payments_preserves. apply handlePayment_schema_ok. }
  split; [assumption|]. intros eid. apply unique_event_counts_once, Hok'.
Qed.

Lemma applications_keep_the_schema_witness :
  let id := "550e8400-e29b-41d4-a716-446655440000" in
  let w := mkWorld (mkDB {[ id := InvoiceRow.mk 5000 Sent ]} []) None
             [false; false; false; true] [] in
  let p := PaymentPayload.mk (Some "evt_1") (Some id) (Some (JsInt 5000)) in
  schema_ok (store (apply_payments [p; p; p] w))
  ∧ ∀ eid, (count_event eid (store (apply_payments [p; p; p] w)) <= 1)%nat.
Proof.
  apply applications_keep_the_schema.
  repeat split; constructor.
Defined.

(** Payments are only ever appended, and invoices are neither created nor
    deleted nor given another total: whatever the payloads and the faults,
    the payments table before is a prefix of the table after, and every
    identifier has the same total, or no invoice, before and after. *)
Theorem applications_only_append (ps : list PaymentPayload.t) (w : World) :
  payments (store w) `prefix_of` payments (store (apply_payments ps w))
  ∧ ∀ id,
      InvoiceRow.total_cents <$> invoices (store (apply_payments ps w)) !! id
      = InvoiceRow.total_cents <$> invoices (store w) !! id.
Proof.
  split; [apply apply_payments_prefix|intros id; apply apply_payments_total_cents].
Qed.

(** An application for one invoice leaves every other invoice alone: the
    row of any uuid other than the one the payload names, and the sum
    recorded against it, are the same before and after, whatever the
    faults. *)
Theorem other_invoices_are_untouched (p : PaymentPayload.t) (w : World) (id' : string) :
  PaymentPayload.invoice_id p ≫= uuid_in ≠ Some id' →
  invoices (store (snd (handlePayment p w))) !! id' = invoices (store w) !! id'
  ∧ paid id' (store (snd (handlePayment p w))) = paid id' (store w).
Proof.
  intros Hne.
  destruct (handlePayment_outcomes p w)
    as [(e & _ & Hs)
       |(eid & iid & u & z & inv & -> & _ & Hu & _ & _ & _ & [(_ & _ & Hs)|(_ & _ & Hs)])];
    rewrite Hs; try (split; reflexivity).
  cbn in Hne. rewrite Hu in Hne. assert (id' ≠ u) as Hne' by congruence.
  rewrite invoices_apply_payment, decide_False by assumption.
  rewrite paid_apply_payment, decide_False by congruence.
  split; [reflexivity|lia].
Qed.

(** Two invoices; the payload names the first in capital letters and
    without hyphens. *)
Lemma other_invoices_are_untouched_witness :
  let id := "550e8400-e29b-41d4-a716-446655440000" in
  let id' := "6ba7b810-9dad-11d1-80b4-00c04fd430c8" in
  let db := mkDB {[ id := InvoiceRow.mk 5000 Sent; id' := InvoiceRow.mk 70 Sent ]} [] in
  let w := mkWorld db None [] [] in
  let p := PaymentPayload.mk (Some "evt_1") (Some "550E8400E29B41D4A716446655440000")
             (Some (JsInt 5000)) in
  (invoices (store (snd (handlePayment p w))) !! id' = invoices (store w) !! id'
   ∧ paid id' (store (snd (handlePayment p w))) = paid id' (store w))
  ∧ status_of id (store (snd (handlePayment p w))) = Some Paid.
Proof.
  intros id id' db w p. split; [|vm_compute; reflexivity].
  apply other_invoices_are_untouched. vm_compute. discriminate.
Defined.

(** A reply 201 means that one row was added to the payments table and
    that the invoice of the payload now has the status its recorded
    payments give, whether or not it had it before, and whatever the
    faults. *)
Theorem accepted_payment_sets_the_status
    (p : PaymentPayload.t) (w : World) (m : string) (iid : string) :
  fst (handlePayment p w) = Ok (Reply.mk 201 m) →
  PaymentPayload.invoice_id p = Some iid →
  status_exact iid (store (snd (handlePayment p w)))
  ∧ length (payments (store (snd (handlePayment p w)))) = S (length (payments (store w))).
Proof.
  intros Hok Hid.
  destruct (handlePayment_outcomes p w)
    as [(e & He & _)
       |(eid & i & u & z & inv & -> & _ & Hu & _ & Hinv & _ & [(_ & Hr & _)|(_ & _ & Hs)])];
    [congruence..|].
  cbn in Hid. injection Hid as ->. rewrite Hs. split.
  - intros inv'. rewrite (find_invoice_uuid _ u), (cumulative_paid_uuid _ u) by assumption.
    rewrite invoices_apply_payment, decide_True, Hinv by reflexivity.
    intros [= <-]. reflexivity.
  - rewrite payments_apply_payment, length_app. cbn. lia.
Qed.

(** An invoice marked [paid] by hand with nothing recorded against it: a
    payment of 1 is accepted and the status becomes [partially_paid]. *)
Lemma accepted_payment_sets_the_status_witness :
  let id := "550e8400-e29b-41d4-a716-446655440000" in
  let w := mkWorld (mkDB {[ id := InvoiceRow.mk 5000 Paid ]} []) None [] [] in
  let p := PaymentPayload.mk (Some "evt_1") (Some id) (Some (JsInt 1)) in
  (status_exact id (store (snd (handlePayment p w)))
   ∧ length (payments (store (snd (handlePayment p w)))) = S (length (payments (store w))))
  ∧ status_of id (store (snd (handlePayment p w))) = Some PartiallyPaid.
Proof.
  intros id w p. split; [|vm_compute; reflexivity].
  apply (accepted_payment_sets_the_status _ _ "Payment processed" id);
    [vm_compute|]; reflexivity.
Defined.

(** *** What the errors of [handlePayment] say *)






(** *** Deliveries that repeat *)

Lemma has_event_prefix eid db db' :
  payments db `prefix_of` payments db' → has_event eid db = true → has_event eid db' = true.
Proof.
  intros [k Hk] Hev. apply has_event_spec in Hev as (r & Hr & Hid).
  apply has_event_spec. exists r. split; [|assumption].
  rewrite Hk. apply elem_of_app. left. assumption.
Qed.

Lemma payable_step p w :
  faults w = [] → payable (store w) p →
  faults (snd (handlePayment p w)) = []
  ∧ (∃ eid, PaymentPayload.event_id p = Some eid
            ∧ has_event eid (store (snd (handlePayment p w))) = true
            ∧ (has_event eid (store w) = true → store (snd (handlePayment p w)) = store w)).
Proof.
  intros Hf [(eid & iid & z & -> & He & [u Hu] & Hz) (i & Hid & [inv Hinv])].
  cbn in Hid. injection Hid as <-.
  rewrite (find_invoice_uuid _ u) in Hinv by assumption.
  destruct (has_event eid (store w)) eqn:Hev.
  - rewrite (handlePayment_replay _ _ u _ inv) by assumption. cbn [snd store faults].
    split; [reflexivity|]. exists eid. auto.
  - rewrite (handlePayment_fresh _ _ u _ inv) by assumption. cbn [snd store faults].
    split; [reflexivity|]. exists eid. split; [reflexivity|].
    split; [apply has_event_apply_payment|intros Habs; congruence].
Qed.

Lemma find_invoice_kept ps w iid :
  is_Some (find_invoice iid (store w)) → is_Some (find_invoice iid (store (apply_payments ps w))).
Proof.
  intros [inv Hinv]. apply find_invoice_inv in Hinv as (u & Hu & Hl).
  rewrite (find_invoice_uuid _ u) by assumption.
  pose proof (apply_payments_total_cents ps w u) as Ht. rewrite Hl in Ht.
  destruct (invoices (store (apply_payments ps w)) !! u); [eauto|discriminate Ht].
Qed.

Lemma payable_kept ps w p : payable (store w) p → payable (store (apply_payments ps w)) p.
Proof.
  intros [Hv (iid & Hid & Hinv)]. split; [assumption|]. exists iid. split; [assumption|].
  apply find_invoice_kept, Hinv.
Qed.

Lemma first_delivery ps : ∀ w,
  faults w = [] → Forall (payable (store w)) ps →
  faults (apply_payments ps w) = []
  ∧ Forall (λ p, ∃ eid, PaymentPayload.event_id p = Some eid
                        ∧ has_event eid (store (apply_payments ps w)) = true) ps.
Proof.
  induction ps as [|p ps IH]; intros w Hf Hpay; [split; [assumption|constructor]|].
  apply Forall_cons in Hpay as [Hp Hps].
  destruct (payable_step p w Hf Hp) as (Hf1 & eid & Heid & Hev & _).
  rewrite apply_payments_cons.
  destruct (IH (snd (handlePayment p w)) Hf1) as [Hf2 Hall].
  { eapply Forall_impl; [exact Hps|]. intros q. apply (payable_kept [p]). }
  split; [assumption|]. constructor; [|assumption].
  exists eid. split; [assumption|].
  eapply has_event_prefix; [|exact Hev]. apply apply_payments_prefix.
Qed.

Lemma repeated_delivery qs : ∀ w,
  faults w = [] →
  Forall (λ q, payable (store w) q
               ∧ ∃ eid, PaymentPayload.event_id q = Some eid
                        ∧ has_event eid (store w) = true) qs →
  store (apply_payments qs w) = store w.
Proof.
  induction qs as [|q qs IH]; intros w Hf Hall; [reflexivity|].
  apply Forall_cons in Hall as [(Hq & eid & Heid & Hev) Hqs].
  destruct (payable_step q w Hf Hq) as (Hf1 & eid' & Heid' & _ & Hsame).
  assert (eid' = eid) as -> by congruence. specialize (Hsame Hev).
  rewrite apply_payments_cons, IH; [assumption|assumption|].
  rewrite Hsame. assumption.
Qed.

(** At-least-once delivery is harmless.  After valid payloads for existing
    invoices have been applied without storage faults, applying any of
    them again, in any order and any number of times, leaves the committed
    tables exactly as they were. *)
Theorem redelivery_changes_nothing (ps qs : list PaymentPayload.t) (w : World) :
  faults w = [] →
  Forall (payable (store w)) ps →
  Forall (λ q, q ∈ ps) qs →
  store (apply_payments (ps ++ qs) w) = store (apply_payments ps w).
Proof.
  intros Hf Hpay Hsub. rewrite apply_payments_app.
  destruct (first_delivery ps w Hf Hpay) as [Hf1 Hrec].
  apply repeated_delivery; [assumption|].
  apply Forall_forall. intros q Hq.
  rewrite Forall_forall in Hsub, Hpay, Hrec. split.
  - apply payable_kept, Hpay, Hsub, Hq.
  - apply Hrec, Hsub, Hq.
Qed.

Lemma redelivery_changes_nothing_witness :
  let id := "550e8400-e29b-41d4-a716-446655440000" in
  let w := mkWorld (mkDB {[ id := InvoiceRow.mk 5000 Sent ]} []) None [] [] in
  let p1 := PaymentPayload.mk (Some "evt_1") (Some id) (Some (JsInt 3000)) in
  let p2 := PaymentPayload.mk (Some "evt_2") (Some id) (Some (JsInt 2000)) in
  store (apply_payments ([p1; p2] ++ [p2; p1; p2]) w) = store (apply_payments [p1; p2] w).
Proof.
  intros id w p1 p2.
  assert (uuid_in id = Some id) as Hid by (vm_compute; reflexivity).
  assert (is_Some (find_invoice id (store w))) as Hinv by (vm_compute; eauto).
  apply redelivery_changes_nothing.
  - reflexivity.
  - repeat constructor.
    + exists "evt_1", id, 3000. repeat split; [discriminate|eauto|lia..].
    + exists id. split; [reflexivity|assumption].
    + exists "evt_2", id, 2000. repeat split; [discriminate|eauto|lia..].
    + exists id. split; [reflexivity|assumption].
  - repeat constructor; apply (bool_decide_unpack _); vm_compute; reflexivity.
Defined.

(** *** [withTx] and [checkInvoiceExists] *)

(** [withTx], whatever function it is given and whatever the faults.  When
    [pool.connect()] raises, [withTx] raises with it: no statement is sent
    and the connection is as it was.  Otherwise the last statement it
    sends is COMMIT when it returns and ROLLBACK when it raises, and that
    statement has ended the transaction: the connection goes back to the
    pool with none open. *)
Theorem withTx_closes_what_it_opens {A} (fn : M World A) (w : World) :
  if next_fault (faults w)
  then withTx fn w
       = (Err (DatabaseError ConnectionFailure),
          mkWorld (store w) (tx w) (tail (faults w)) (trace w))
  else tx (snd (withTx fn w)) = None
       ∧ ∃ before,
           trace (snd (withTx fn w))
           = before ++ [match fst (withTx fn w) with Ok _ => COMMIT | Err _ => ROLLBACK end].
Proof.
  destruct (next_fault (faults w)) eqn:Hc; [apply withTx_refused|apply withTx_closes];
    assumption.
Qed.

Lemma tx_local_invoice_lookup invoiceId :
  tx_local (invoice <- getInvoiceById invoiceId ;; ret (bool_decide (invoice ≠ None)))%tx.
Proof.
  apply tx_local_bind;
    [apply tx_local_bind; [apply tx_local_query; exact I|intros ?; apply tx_local_ret]
    |intros ?; apply tx_local_ret].
Qed.

Lemma invoice_lookup_run invoiceId st d fs tr :
  (invoice <- getInvoiceById invoiceId ;; ret (bool_decide (invoice ≠ None)))%tx
    (mkWorld st (Some d) fs tr)
  = (if next_fault fs then Err (DatabaseError ConnectionFailure)
     else match uuid_in invoiceId with
          | None => Err (DatabaseError InvalidUuid)
          | Some u => Ok (bool_decide (is_Some (invoices d !! u)))
          end,
     mkWorld st (Some d) (tail fs) (tr ++ [SelectInvoiceForUpdate invoiceId])).
Proof.
  unfold bind at 1. rewrite getInvoiceById_run.
  destruct (next_fault fs); [reflexivity|].
  destruct (uuid_in invoiceId) as [u|]; [|reflexivity].
  unfold ret. f_equal. f_equal. destruct (invoices d !! u); reflexivity.
Qed.

Lemma checkInvoiceExists_ok invoiceId w b :
  fst (checkInvoiceExists invoiceId w) = Ok b →
  is_Some (uuid_in invoiceId)
  ∧ b = bool_decide (is_Some (find_invoice invoiceId (store w))).
Proof.
  unfold checkInvoiceExists. intros Hok.
  pose proof (withTx_atomic _ w (tx_local_invoice_lookup invoiceId)) as Hat.
  destruct (withTx _ w) as [[a|e] w']; [|discriminate Hok].
  cbn in Hok. injection Hok as ->.
  destruct Hat as (_ & w1 & Hbody & _). destruct w as [st t fs tr].
  unfold begun in Hbody. cbn [store tx faults trace] in Hbody.
  rewrite invoice_lookup_run in Hbody.
  destruct (next_fault (tail (tail fs))); [discriminate Hbody|].
  destruct (uuid_in invoiceId) as [u|] eqn:Hu; [|discriminate Hbody].
  injection Hbody as <- _. cbn [store]. split; [eauto|].
  rewrite (find_invoice_uuid _ u) by assumption. reflexivity.
Qed.

Lemma checkInvoiceExists_store invoiceId w :
  store (snd (checkInvoiceExists invoiceId w)) = store w.
Proof.
  unfold checkInvoiceExists.
  pose proof (withTx_atomic _ w (tx_local_invoice_lookup invoiceId)) as Hat.
  destruct (withTx _ w) as [[a|e] w']; cbn [snd]; [|exact Hat].
  destruct Hat as (_ & w1 & Hbody & Htx). destruct w as [st t fs tr].
  unfold begun in Hbody. cbn [store tx faults trace] in Hbody.
  rewrite invoice_lookup_run in Hbody.
  injection Hbody as _ <-. cbn [tx store] in *. congruence.
Qed.

Lemma checkInvoiceExists_quiet invoiceId w :
  faults w = [] →
  checkInvoiceExists invoiceId w
  = match uuid_in invoiceId with
    | Some _ =>
        (Ok (bool_decide (is_Some (find_invoice invoiceId (store w)))),
         mkWorld (store w) None []
           (trace w ++ [BEGIN; SelectInvoiceForUpdate invoiceId; COMMIT]))
    | None =>
        (Err (DatabaseError InvalidUuid),
         mkWorld (store w) None []
           (trace w ++ [BEGIN; SelectInvoiceForUpdate invoiceId; ROLLBACK]))
    end.
Proof.
  destruct w as [st t fs tr]. unfold checkInvoiceExists.
  cbn [faults store trace]. intros ->.
  rewrite withTx_run. cbn [faults next_fault head tail default].
  rewrite begun_quiet, invoice_lookup_run. cbn [next_fault head tail default].
  unfold find_invoice, rolled_back.
  destruct (uuid_in invoiceId) as [u|];
    cbn [store tx faults trace next_fault head tail default from_option mbind option_bind];
    rewrite <- !app_assoc; reflexivity.
Qed.

(** [checkInvoiceExists] only reads: whatever the faults, the committed
    tables are the same afterwards, and an answer, when there is one, is
    the truth about them.  When no call to the driver raises on its own,
    an identifier that reads as a uuid is answered, from a transaction
    made of BEGIN, the lookup and COMMIT; for any other identifier the
    lookup raises the error of the uuid type, and the transaction is rolled
    back. *)
Theorem checkInvoiceExists_only_reads (invoiceId : string) (w : World) :
  store (snd (checkInvoiceExists invoiceId w)) = store w
  ∧ (∀ b, fst (checkInvoiceExists invoiceId w) = Ok b →
          is_Some (uuid_in invoiceId)
          ∧ b = bool_decide (is_Some (find_invoice invoiceId (store w))))
  ∧ (faults w = [] →
     checkInvoiceExists invoiceId w
     = match uuid_in invoiceId with
       | Some _ =>
           (Ok (bool_decide (is_Some (find_invoice invoiceId (store w)))),
            mkWorld (store w) None []
              (trace w ++ [BEGIN; SelectInvoiceForUpdate invoiceId; COMMIT]))
       | None =>
           (Err (DatabaseError InvalidUuid),
            mkWorld (store w) None []
              (trace w ++ [BEGIN; SelectInvoiceForUpdate invoiceId; ROLLBACK]))
       end).
Proof.
  split; [apply checkInvoiceExists_store|]. split.
  - intros b. apply checkInvoiceExists_ok.
  - apply checkInvoiceExists_quiet.
Qed.

(** An identifier that is no uuid, and the uuid of no invoice. *)
Lemma checkInvoiceExists_only_reads_witness :
  let id := "550e8400-e29b-41d4-a716-446655440000" in
  let id' := "6ba7b810-9dad-11d1-80b4-00c04fd430c8" in
  let w := mkWorld (mkDB {[ id := InvoiceRow.mk 5000 Sent ]} []) None [] [] in
  checkInvoiceExists "inv_2" w
  = (Err (DatabaseError InvalidUuid),
     mkWorld (store w) None [] [BEGIN; SelectInvoiceForUpdate "inv_2"; ROLLBACK])
  ∧ checkInvoiceExists id' w
    = (Ok false, mkWorld (store w) None [] [BEGIN; SelectInvoiceForUpdate id'; COMMIT]).
Proof.
  intros id id' w. split.
  - apply (proj2 (proj2 (checkInvoiceExists_only_reads "inv_2" w))). reflexivity.
  - apply (proj2 (proj2 (checkInvoiceExists_only_reads id' w))). reflexivity.
Defined.

(** *** The repository, one method after the other *)

(** Inside a transaction and without storage faults: when [insertPayment]
    returns a row, the row carries the event identifier and the type of
    the record, the uuid its invoice identifier reads as and its amount,
    which is within INTEGER; the sum that [getTotalPaid] returns for its
    invoice has grown by its amount; and a second [insertPayment] with the
    same event identifier never adds a row: it returns null when its
    invoice identifier reads as a uuid and its amount is a positive integer
    within INTEGER, and raises a database error otherwise, and either way
    the tables of the transaction are as they were. *)
Theorem inserted_payment_is_read_back
    (rec : PaymentRecord.t) (w w1 : World) (d : DB) (row : PaymentRow.t) :
  tx w = Some d → faults w = [] →
  insertPayment rec w = (Ok (Some row), w1) →
  uuid_in (PaymentRecord.invoice_id rec) = Some (PaymentRow.invoice_id row)
  ∧ row = PaymentRow.mk (PaymentRecord.event_id rec) (PaymentRow.invoice_id row)
            (PaymentRow.amount_cents row) (PaymentRecord.type rec)
  ∧ PaymentRecord.amount_cents rec = Some (JsInt (PaymentRow.amount_cents row))
  ∧ 0 < PaymentRow.amount_cents row <= 2147483647
  ∧ (∃ before,
        fst (getTotalPaid (PaymentRecord.invoice_id rec) w) = Ok before
        ∧ fst (getTotalPaid (PaymentRecord.invoice_id rec) w1)
          = Ok (before + PaymentRow.amount_cents row))
  ∧ (∀ rec',
        PaymentRecord.event_id rec' = PaymentRecord.event_id rec →
        tx (snd (insertPayment rec' w1)) = tx w1
        ∧ (fst (insertPayment rec' w1) = Ok None
           ∨ ∃ reason, fst (insertPayment rec' w1) = Err (DatabaseError reason))
        ∧ (is_Some (uuid_in (PaymentRecord.invoice_id rec')) →
           (∃ z', PaymentRecord.amount_cents rec' = Some (JsInt z') ∧ 0 < z' <= 2147483647) →
           fst (insertPayment rec' w1) = Ok None)).
Proof.
  destruct w as [st t fs tr]. cbn [tx faults]. intros -> ->.
  rewrite insertPayment_run. cbn [next_fault head default tail].
  pose proof (insert_payment_cases rec d) as Hins.
  destruct (insert_payment rec d) as [[rs d']|e]; [|discriminate].
  destruct Hins as (u & z & Hu & Hamt & Hz & [(-> & _ & _)|(inv & Hev & Hinv & -> & ->)]);
    [discriminate|].
  intros [= <- <-]. cbn [PaymentRow.amount_cents PaymentRow.invoice_id].
  split; [assumption|]. split; [reflexivity|]. split; [assumption|]. split; [assumption|].
  split.
  - exists (paid u d). rewrite !getTotalPaid_run, Hu. cbn [next_fault head default tail fst].
    split; [reflexivity|]. f_equal.
    unfold paid, payments_of. cbn [payments]. rewrite filter_app, sum_amounts_app.
    rewrite filter_cons, filter_nil. cbn [PaymentRow.invoice_id].
    rewrite decide_True by reflexivity. cbn. lia.
  - intros rec' Hid. rewrite insertPayment_run. cbn [next_fault head default tail].
    set (d1 := mkDB (invoices d) _).
    assert (has_event (PaymentRecord.event_id rec') d1 = true) as Hev'.
    { apply has_event_spec.
      exists (PaymentRow.mk (PaymentRecord.event_id rec) u z (PaymentRecord.type rec)).
      split; [|symmetry; exact Hid].
      subst d1. cbn [payments]. apply elem_of_app. right. left. }
    pose proof (insert_payment_cases rec' d1) as Hins.
    destruct (insert_payment rec' d1) as [[rs d']|e] eqn:Hrun.
    + destruct Hins as (u' & z' & _ & _ & _ & [(-> & -> & _)|(inv' & Hev'' & _)]);
        [|congruence].
      cbn [fst snd tx]. repeat split; auto.
    + destruct Hins as [reason ->]. cbn [fst snd tx]. split; [reflexivity|]. split; [eauto|].
      intros [u' Hu'] (z' & Hamt' & Hz'). exfalso.
      destruct rec' as [eid' iid' amt' ty']. cbn in Hu', Hamt', Hev'. subst amt'.
      destruct ty'. rewrite (insert_payment_replay _ _ u') in Hrun by assumption.
      discriminate Hrun.
Qed.

Lemma inserted_payment_is_read_back_witness :
  let id := "550e8400-e29b-41d4-a716-446655440000" in
  let d := mkDB {[ id := InvoiceRow.mk 5000 Sent ]} [payment_row "evt_0" id 10] in
  let w := mkWorld d (Some d) [] [BEGIN] in
  let rec := PaymentRecord.mk "evt_1" "{550E8400-E29B-41D4-A716-446655440000}"
               (Some (JsInt 30)) PaymentReceived in
  let again := PaymentRecord.mk "evt_1" id (Some (JsInt 2147483648)) PaymentReceived in
  fst (insertPayment rec w) = Ok (Some (payment_row "evt_1" id 30))
  ∧ (∃ before,
        fst (getTotalPaid "{550E8400-E29B-41D4-A716-446655440000}" w) = Ok before
        ∧ fst (getTotalPaid "{550E8400-E29B-41D4-A716-446655440000}" (snd (insertPayment rec w)))
          = Ok (before + 30))
  ∧ fst (insertPayment again (snd (insertPayment rec w)))
    = Err (DatabaseError IntegerOutOfRange)
  ∧ tx (snd (insertPayment again (snd (insertPayment rec w)))) = tx (snd (insertPayment rec w)).
Proof.
  intros id d w rec again.
  assert (insertPayment rec w = (Ok (Some (payment_row "evt_1" id 30)), snd (insertPayment rec w)))
    as Hrun by (vm_compute; reflexivity).
  destruct (inserted_payment_is_read_back rec w _ d _ eq_refl eq_refl Hrun)
    as (_ & _ & _ & _ & Hsum & Hagain).
  split; [rewrite Hrun; reflexivity|]. split; [exact Hsum|].
  split; [vm_compute; reflexivity|]. apply (Hagain again). reflexivity.
Defined.

(** Inside a transaction and without storage faults.  For an identifier
    that reads as a uuid, [updateInvoiceStatus] does not raise, not even
    when no invoice has that uuid; after it [getInvoiceById] returns, for
    an identifier that reads as the same uuid, the invoice it returned
    before with the new status (null where it returned null), and for any
    other identifier what it returned or raised before.  For an identifier
    that is no uuid, [updateInvoiceStatus] raises the error of the uuid
    type and the tables of the transaction are as they were. *)
Theorem updated_status_is_read_back
    (invoiceId other : string) (status : InvoiceStatus) (w : World) (d : DB) :
  tx w = Some d → faults w = [] →
  let w1 := snd (updateInvoiceStatus invoiceId status w) in
  match uuid_in invoiceId with
  | Some u =>
      fst (updateInvoiceStatus invoiceId status w) = Ok tt
      ∧ match fst (getInvoiceById other w) with
        | Ok before =>
            fst (getInvoiceById other w1)
            = Ok (if decide (uuid_in other = Some u)
                  then (λ r, InvoiceRecord.mk (InvoiceRecord.id r)
                               (InvoiceRecord.total_cents r) status) <$> before
                  else before)
        | Err e => fst (getInvoiceById other w1) = Err e
        end
  | None =>
      fst (updateInvoiceStatus invoiceId status w) = Err (DatabaseError InvalidUuid)
      ∧ tx w1 = Some d
  end.
Proof.
  destruct w as [st t fs tr]. cbn [tx faults]. intros -> ->.
  rewrite updateInvoiceStatus_run. cbn [next_fault head default tail fst snd].
  destruct (uuid_in invoiceId) as [u|]; cbn [fst snd tx]; [|split; reflexivity].
  split; [reflexivity|]. rewrite !getInvoiceById_run. cbn [next_fault head default tail fst].
  destruct (uuid_in other) as [uo|]; [|reflexivity].
  f_equal. unfold set_status. cbn [invoices]. rewrite lookup_alter.
  destruct (decide (u = uo)) as [->|Hne].
  - rewrite decide_True by reflexivity. destruct (invoices d !! uo); reflexivity.
  - rewrite decide_False by congruence. reflexivity.
Qed.

Lemma updated_status_is_read_back_witness :
  let id := "550e8400-e29b-41d4-a716-446655440000" in
  let d := mkDB {[ id := InvoiceRow.mk 5000 Sent ]} [] in
  let w := mkWorld d (Some d) [] [BEGIN] in
  (fst (updateInvoiceStatus "550E8400-E29B-41D4-A716-446655440000" Paid w) = Ok tt
   ∧ fst (getInvoiceById id
            (snd (updateInvoiceStatus "550E8400-E29B-41D4-A716-446655440000" Paid w)))
     = Ok (Some (InvoiceRecord.mk id 5000 Paid)))
  ∧ fst (updateInvoiceStatus "inv_9" Paid w) = Err (DatabaseError InvalidUuid)
  ∧ tx (snd (updateInvoiceStatus "inv_9" Paid w)) = Some d.
Proof.
  intros id d w. split.
  - apply (updated_status_is_read_back "550E8400-E29B-41D4-A716-446655440000" id Paid w d);
      reflexivity.
  - apply (updated_status_is_read_back "inv_9" id Paid w d); reflexivity.
Defined.

(** *** What validation lets through and the columns refuse *)

Lemma handlePayment_tx_malformed eid iid amt st d tr :
  uuid_in iid = None →
  handlePayment_tx eid iid amt (mkWorld st (Some d) [] tr)
  = (Err (DatabaseError InvalidUuid),
     mkWorld st (Some d) [] (tr ++ [SelectInvoiceForUpdate iid])).
Proof.
  intros Hu. unfold handlePayment_tx, bind.
  rewrite getInvoiceById_run, Hu. reflexivity.
Qed.

Lemma handlePayment_tx_out_of_range eid iid u z inv st d tr :
  uuid_in iid = Some u → invoices d !! u = Some inv →
  2147483647 < z < 1000000000000000000000 →
  handlePayment_tx eid iid (Some (JsInt z)) (mkWorld st (Some d) [] tr)
  = (Err (DatabaseError IntegerOutOfRange),
     mkWorld st (Some d) []
       (tr ++ [SelectInvoiceForUpdate iid;
               InsertPaymentOnConflictDoNothing
                 (PaymentRecord.mk eid iid (Some (JsInt z)) PaymentReceived)])).
Proof.
  intros Hu Hinv Hz. unfold handlePayment_tx, bind.
  rewrite getInvoiceById_run, Hu, Hinv.
  cbn [next_fault head default fmap option_fmap option_map tail].
  rewrite insertPayment_run. cbn [next_fault head default tail].
  unfold insert_payment, int4_in.
  cbn [PaymentRecord.invoice_id PaymentRecord.amount_cents]. rewrite Hu.
  destruct (Z.leb_spec 1000000000000000000000 (Z.abs z)); [lia|].
  destruct (Z.ltb_spec z (- 2147483648)); [lia|].
  destruct (Z.ltb_spec 2147483647 z); [|lia].
  cbn [orb]. rewrite <- app_assoc. reflexivity.
Qed.

(** Two payloads that pass the validation of [handlePayment] and are
    refused by the types of the columns, without storage faults.  An
    invoice identifier that does not read as a uuid stops the invoice
    lookup with the error of the uuid type: the error is not the not-found
    error.  An integer amount beyond INTEGER, for an invoice that exists,
    stops the insert with the range error of the integer type, even when
    the event identifier is already recorded.  Either way the transaction
    is rolled back and the committed tables are as before. *)
Theorem columns_refuse_what_validation_lets_through
    (eid iid : string) (z : Z) (w : World) :
  eid ≠ "" → iid ≠ "" → 0 < z → faults w = [] →
  (uuid_in iid = None →
   handlePayment (PaymentPayload.mk (Some eid) (Some iid) (Some (JsInt z))) w
   = (Err (DatabaseError InvalidUuid),
      mkWorld (store w) None [] (trace w ++ [BEGIN; SelectInvoiceForUpdate iid; ROLLBACK])))
  ∧ (is_Some (find_invoice iid (store w)) →
     2147483647 < z < 1000000000000000000000 →
     handlePayment (PaymentPayload.mk (Some eid) (Some iid) (Some (JsInt z))) w
     = (Err (DatabaseError IntegerOutOfRange),
        mkWorld (store w) None []
          (trace w ++ [BEGIN; SelectInvoiceForUpdate iid;
                       InsertPaymentOnConflictDoNothing
                         (PaymentRecord.mk eid iid (Some (JsInt z)) PaymentReceived);
                       ROLLBACK]))).
Proof.
  intros He Hi Hz Hf. rewrite validation_passes by assumption.
  destruct w as [st t fs tr]. cbn [store faults trace] in *. subst fs. split.
  - intros Hu.
    erewrite withTx_rollback;
      [|reflexivity|rewrite begun_quiet; apply handlePayment_tx_malformed; assumption
       |reflexivity].
    cbn [store tx faults trace tail]. rewrite <- !app_assoc. reflexivity.
  - intros [inv Hinv] Hrange. apply find_invoice_inv in Hinv as (u & Hu & Hinv).
    erewrite withTx_rollback;
      [|reflexivity
       |rewrite begun_quiet; apply (handlePayment_tx_out_of_range _ _ u _ inv); assumption
       |reflexivity].
    cbn [store tx faults trace tail]. rewrite <- !app_assoc. reflexivity.
Qed.

Lemma columns_refuse_what_validation_lets_through_witness :
  let id := "550e8400-e29b-41d4-a716-446655440000" in
  let w := mkWorld (mkDB {[ id := InvoiceRow.mk 5000 Sent ]} []) None [] [] in
  fst (handlePayment (PaymentPayload.mk (Some "evt_1") (Some "inv_1") (Some (JsInt 2147483648))) w)
  = Err (DatabaseError InvalidUuid)
  ∧ fst (handlePayment (PaymentPayload.mk (Some "evt_1") (Some id) (Some (JsInt 2147483648))) w)
    = Err (DatabaseError IntegerOutOfRange).
Proof.
  intros id w. split.
  - rewrite (proj1 (columns_refuse_what_validation_lets_through "evt_1" "inv_1" 2147483648 w
                      ltac:(discriminate) ltac:(discriminate) ltac:(lia) eq_refl));
      reflexivity.
  - rewrite (proj2 (columns_refuse_what_validation_lets_through "evt_1" id 2147483648 w
                      ltac:(discriminate) ltac:(discriminate) ltac:(lia) eq_refl));
      [reflexivity|vm_compute; eauto|lia].
Defined.
End PaymentServiceMore.

(** ** The route, the queue and the service together *)

Section ServiceBehindQueue.
Import PaymentRepository PaymentService EventQueue.

#[local] Abbreviation enqueueP := (EventQueue.enqueue PaymentPayload.event_id).
#[local] Abbreviation settleP := (EventQueue.settle PaymentPayload.event_id).
#[local] Abbreviation getEventIdP := (EventQueue.getEventId PaymentPayload.event_id).
#[local] Abbreviation invariantP := (EventQueue.invariant PaymentPayload.event_id).

Lemma checkInvoiceExists_err invoiceId w e :
  fst (checkInvoiceExists invoiceId w) = Err e → ∃ reason, e = DatabaseError reason.
Proof.
  unfold checkInvoiceExists. intros Herr.
  apply withTx_errors in Herr as [->|[w1 Hbody]]; [eauto|].
  destruct w as [st t fs tr].
  unfold begun in Hbody. cbn [store tx faults trace] in Hbody.
  rewrite invoice_lookup_run in Hbody.
  destruct (next_fault (tail (tail fs))); [injection Hbody as <- _; eauto|].
  destruct (uuid_in invoiceId); [discriminate Hbody|injection Hbody as <- _; eauto].
Qed.

(** What the handler of the route does, read off the answer of the
    invoice lookup. *)
Lemma paymentsRoute_eq (p : PaymentPayload.t) (s : PaymentActor.paymentQueue) :
  let c := checkInvoiceExists (js_string (PaymentPayload.invoice_id p)) (snd s) in
  PaymentsRoute.paymentsRoute p s
  = match fst c with
    | Err _ =>
        (Ok (HttpReply.mk 500 (HttpReply.Failure "Internal server error" "server_error")),
         (fst s, snd c))
    | Ok false =>
        (Ok (HttpReply.mk 404
               (HttpReply.Failure (PaymentsRoute.invoiceNotFound p) "not_found")),
         (fst s, snd c))
    | Ok true =>
        if PaymentsRoute.isEventProcessed p s
        then (Ok (HttpReply.mk 200
                    (HttpReply.Message "Payment already processed"
                       (PaymentPayload.event_id p))),
              (fst s, snd c))
        else (Ok (PaymentsRoute.queued p), (enqueueP p (fst s), snd c))
    end.
Proof.
  intros c. unfold PaymentsRoute.paymentsRoute, try_catch, bind,
    PaymentsRoute.invoiceExists, PaymentsRoute.in_world.
  change (withTx _ (snd s)) with c.
  pose proof (checkInvoiceExists_err (js_string (PaymentPayload.invoice_id p)) (snd s)) as He.
  fold c in He. destruct c as [[[]|e] w']; cbn [fst snd negb] in *.
  - unfold PaymentsRoute.isEventProcessed. cbn [fst].
    destruct (match PaymentPayload.event_id p with Some _ => _ | None => _ end); reflexivity.
  - reflexivity.
  - destruct (He e eq_refl) as [reason ->]. reflexivity.
Qed.

Lemma paymentsRoute1_eq (p : PaymentPayload.t) (s : PaymentActor.paymentQueue) :
  let c := checkInvoiceExists (js_string (PaymentPayload.invoice_id p)) (snd s) in
  PaymentsRoute.paymentsRoute1 p s
  = match fst c with
    | Err _ =>
        (Ok (HttpReply.mk 500 (HttpReply.Failure "Internal server error" "server_error")),
         (fst s, snd c))
    | Ok false =>
        (Ok (HttpReply.mk 404
               (HttpReply.Failure (PaymentsRoute.invoiceNotFound p) "not_found")),
         (fst s, snd c))
    | Ok true => (Ok (PaymentsRoute.queued p), (enqueueP p (fst s), snd c))
    end.
Proof.
  intros c. unfold PaymentsRoute.paymentsRoute1, try_catch, bind,
    PaymentsRoute.invoiceExists, PaymentsRoute.in_world.
  change (withTx _ (snd s)) with c.
  pose proof (checkInvoiceExists_err (js_string (PaymentPayload.invoice_id p)) (snd s)) as He.
  fold c in He. destruct c as [[[]|e] w']; cbn [fst snd negb] in *; try reflexivity.
  destruct (He e eq_refl) as [reason ->]. reflexivity.
Qed.

Lemma valid_payload_identifier p :
  valid_payload p →
  ∃ eid, PaymentPayload.event_id p = Some eid ∧ getEventIdP p = eid.
Proof.
  intros (eid & iid & z & -> & He & _). exists eid. split; [reflexivity|].
  unfold EventQueue.getEventId. cbn.
  destruct (String.eqb_spec eid ""); [contradiction|reflexivity].
Qed.

Lemma enqueue_pushes (q : EventQueue.t PaymentPayload.t) (p : PaymentPayload.t) :
  getEventIdP p ∉ processedEvents q →
  pushed_events (journal (enqueueP p q)) = pushed_events (journal q) ++ [p].
Proof.
  intros Hn.
  destruct (enqueue_cases PaymentPayload.event_id q p)
    as [[Hin _]|[(_ & _ & ->)|(_ & _ & next & rest & _ & ->)]]; [contradiction|..];
    cbn [journal]; rewrite pushed_events_app; reflexivity.
Qed.

Lemma enqueue_skip_keeps (q : EventQueue.t PaymentPayload.t) (p : PaymentPayload.t) :
  getEventIdP p ∈ processedEvents q →
  pushed_events (journal (enqueueP p q)) = pushed_events (journal q)
  ∧ queue (enqueueP p q) = queue q ∧ awaiting (enqueueP p q) = awaiting q.
Proof.
  intros Hin.
  destruct (enqueue_cases PaymentPayload.event_id q p)
    as [[_ ->]|[(Hn & _)|(Hn & _)]]; [|contradiction..].
  cbn [journal queue awaiting]. rewrite pushed_events_app. cbn. rewrite app_nil_r. auto.
Qed.

(** *** The route *)

(** The handler of the route, whatever the payload and the storage faults:
    it never changes the committed tables; it answers 200, 202, 404 or 500
    and never 400; 404 only for an invoice that is not there, 200 and 202
    only for one that is; the queue is touched for 202 only, and then a
    valid payload is pushed on the backlog (not skipped); and without
    storage faults it never answers 500 for an invoice identifier that
    reads as a uuid, as that of a validated body does. *)
Theorem route_answers (p : PaymentPayload.t) (s : PaymentActor.paymentQueue) :
  let r := PaymentsRoute.paymentsRoute p s in
  store (snd (snd r)) = store (snd s)
  ∧ ∃ reply,
      fst r = Ok reply
      ∧ (HttpReply.status reply = 200 ∨ HttpReply.status reply = 202
         ∨ HttpReply.status reply = 404 ∨ HttpReply.status reply = 500)
      ∧ (HttpReply.status reply = 404 → ¬ invoice_known (store (snd s)) p)
      ∧ (HttpReply.status reply = 200 ∨ HttpReply.status reply = 202 →
         invoice_known (store (snd s)) p)
      ∧ (HttpReply.status reply ≠ 202 → fst (snd r) = fst s)
      ∧ (HttpReply.status reply = 202 →
         fst (snd r) = enqueueP p (fst s)
         ∧ (valid_payload p →
            pushed_events (journal (fst (snd r))) = pushed_events (journal (fst s)) ++ [p]))
      ∧ (faults (snd s) = [] →
         is_Some (uuid_in (js_string (PaymentPayload.invoice_id p))) →
         HttpReply.status reply ≠ 500).
Proof.
  intros r. unfold r. rewrite paymentsRoute_eq.
  pose proof (checkInvoiceExists_store (js_string (PaymentPayload.invoice_id p)) (snd s)) as Hst.
  pose proof (checkInvoiceExists_ok (js_string (PaymentPayload.invoice_id p)) (snd s)) as Hok.
  pose proof (checkInvoiceExists_quiet (js_string (PaymentPayload.invoice_id p)) (snd s)) as Hq.
  unfold invoice_known.
  destruct (checkInvoiceExists _ (snd s)) as [[[]|e] w']; cbn [fst snd] in *.
  - destruct (Hok true eq_refl) as [_ Hok']. clear Hok. rename Hok' into Hok.
    symmetry in Hok. apply bool_decide_eq_true in Hok.
    destruct (PaymentsRoute.isEventProcessed p s) eqn:Hproc; cbn [fst snd].
    + split; [assumption|]. eexists. split; [reflexivity|]. cbn [HttpReply.status].
      repeat split; auto; discriminate.
    + split; [assumption|]. eexists. split; [reflexivity|].
      cbn [PaymentsRoute.queued HttpReply.status].
      repeat split; auto; try discriminate; try (intros H; exfalso; apply H; reflexivity).
      intros Hv. destruct (valid_payload_identifier p Hv) as (eid & Heid & Hget).
      apply enqueue_pushes. rewrite Hget.
      unfold PaymentsRoute.isEventProcessed in Hproc. rewrite Heid in Hproc.
      apply bool_decide_eq_false in Hproc. assumption.
  - destruct (Hok false eq_refl) as [_ Hok']. clear Hok. rename Hok' into Hok.
    symmetry in Hok. apply bool_decide_eq_false in Hok.
    split; [assumption|]. eexists. split; [reflexivity|]. cbn [HttpReply.status].
    repeat split; auto; try discriminate. intros [[=]|[=]].
  - split; [assumption|]. eexists. split; [reflexivity|]. cbn [HttpReply.status].
    repeat split; auto; try discriminate.
    + intros [[=]|[=]].
    + intros Hf [u Hu]. specialize (Hq Hf). rewrite Hu in Hq. discriminate Hq.
Qed.

(** The version of the route that does not ask the queue: for a valid
    payload whose invoice exists and whose event identifier is in the
    processed-set, it answers 202, queued for processing, although the
    queue skips the event: nothing is pushed and nothing is started.  The
    later version answers 200 in the same state. *)
Theorem earlier_route_accepts_what_the_queue_skips
    (p : PaymentPayload.t) (s : PaymentActor.paymentQueue) :
  valid_payload p → invoice_known (store (snd s)) p → faults (snd s) = [] →
  getEventIdP p ∈ processedEvents (fst s) →
  let r := PaymentsRoute.paymentsRoute1 p s in
  fst r = Ok (PaymentsRoute.queued p)
  ∧ pushed_events (journal (fst (snd r))) = pushed_events (journal (fst s))
  ∧ queue (fst (snd r)) = queue (fst s)
  ∧ awaiting (fst (snd r)) = awaiting (fst s)
  ∧ fst (PaymentsRoute.paymentsRoute p s)
    = Ok (HttpReply.mk 200
            (HttpReply.Message "Payment already processed" (PaymentPayload.event_id p))).
Proof.
  intros Hv Hknown Hf Hin r. unfold r.
  rewrite paymentsRoute1_eq, paymentsRoute_eq.
  rewrite checkInvoiceExists_quiet by assumption.
  destruct Hknown as [inv Hinv]. destruct (find_invoice_inv _ _ _ Hinv) as (u & Hu & _).
  rewrite Hu. cbn [fst snd].
  rewrite bool_decide_eq_true_2 by eauto. cbn [fst snd].
  split; [reflexivity|].
  destruct (enqueue_skip_keeps (fst s) p Hin) as (Hp & Hq & Ha).
  repeat split; try assumption.
  destruct (valid_payload_identifier p Hv) as (eid & Heid & Hget).
  unfold PaymentsRoute.isEventProcessed. rewrite Heid.
  unfold EventQueue.isEventProcessed. rewrite bool_decide_eq_true_2 by congruence.
  reflexivity.
Qed.

Lemma route_answers_witness :
  let id := "550e8400-e29b-41d4-a716-446655440000" in
  let w := mkWorld (mkDB {[ id := InvoiceRow.mk 5000 Sent ]} []) None [] [] in
  let p := PaymentPayload.mk (Some "evt_1") (Some id) (Some (JsInt 5000)) in
  let r := PaymentsRoute.paymentsRoute p (EventQueue.new, w) in
  store (snd (snd r)) = store w
  ∧ fst r = Ok (PaymentsRoute.queued p)
  ∧ pushed_events (journal (fst (snd r))) = [p].
Proof.
  intros id w p r.
  destruct (route_answers p (EventQueue.new, w))
    as (Hstore & reply & Hreply & _ & _ & _ & _ & Hqueued & _).
  fold r in Hstore, Hreply, Hqueued. split; [exact Hstore|].
  assert (reply = PaymentsRoute.queued p) as ->
    by (vm_compute in Hreply; injection Hreply as <-; reflexivity).
  split; [exact Hreply|]. apply Hqueued; [reflexivity|].
  exists "evt_1", id, 5000. repeat split; [discriminate|vm_compute; eauto|lia..].
Defined.

Lemma earlier_route_accepts_what_the_queue_skips_witness :
  let id := "550e8400-e29b-41d4-a716-446655440000" in
  let w := mkWorld (mkDB {[ id := InvoiceRow.mk 5000 Paid ]}
                      [payment_row "evt_1" id 5000]) None [] [] in
  let p := PaymentPayload.mk (Some "evt_1") (Some id) (Some (JsInt 5000)) in
  let q := EventQueue.run PaymentPayload.event_id [Enqueue p; Settle (Ok tt)] EventQueue.new in
  fst (PaymentsRoute.paymentsRoute1 p (q, w)) = Ok (PaymentsRoute.queued p)
  ∧ pushed_events (journal (fst (snd (PaymentsRoute.paymentsRoute1 p (q, w)))))
    = pushed_events (journal q).
Proof.
  intros id w p q.
  assert (valid_payload p) as Hv
    by (exists "evt_1", id, 5000; repeat split; [discriminate|vm_compute; eauto|lia..]).
  assert (invoice_known (store w) p) as Hk
    by (exists (InvoiceRow.mk 5000 Paid); vm_compute; reflexivity).
  assert (getEventIdP p ∈ processedEvents q) as Hin by (vm_compute; reflexivity).
  destruct (earlier_route_accepts_what_the_queue_skips p (q, w) Hv Hk eq_refl Hin)
    as (Hreply & Hpushed & _).
  split; assumption.
Defined.

(** *** Deliveries *)

(** When the handler in flight runs to its end, the database is left as
    [handlePayment] leaves it, and the event identifier is in the
    processed-set afterwards iff it was there already or [handlePayment]
    returned, with [already processed] as well as with 201; after an
    error it is not added. *)
Theorem delivery_marks_what_was_handled
    (s : PaymentActor.paymentQueue) (payload : PaymentPayload.t) :
  awaiting (fst s) = Some payload →
  let s' := PaymentActor.deliver s in
  snd s' = snd (handlePayment payload (snd s))
  ∧ (getEventIdP payload ∈ processedEvents (fst s')
     ↔ getEventIdP payload ∈ processedEvents (fst s)
       ∨ ∃ reply, fst (handlePayment payload (snd s)) = Ok reply)
  ∧ queue (fst s') = tail (queue (fst s))
  ∧ awaiting (fst s') = head (queue (fst s)).
Proof.
  intros Ha. unfold PaymentActor.deliver, PaymentActor.handler, bind. rewrite Ha.
  destruct (handlePayment payload (snd s)) as [[reply|e] w'] eqn:Hrun; cbn [fst snd ret];
    rewrite (settle_eq PaymentPayload.event_id _ (fst s) payload Ha);
    (split; [reflexivity|]);
    destruct (queue (fst s)); cbn [processedEvents queue awaiting tail head];
    (split; [|auto]).
  - split; [eauto|]. intros _. apply elem_of_union. left. apply elem_of_singleton.
    reflexivity.
  - split; [eauto|]. intros _. apply elem_of_union. left. apply elem_of_singleton.
    reflexivity.
  - split; [auto|]. intros [H|[reply H]]; [assumption|discriminate H].
  - split; [auto|]. intros [H|[reply H]]; [assumption|discriminate H].
Qed.

(** An event for an invoice that is not there, handled without storage
    faults: the handler fails and the identifier stays out of the
    processed-set. *)
Lemma delivery_marks_what_was_handled_witness :
  let id := "550e8400-e29b-41d4-a716-446655440000" in
  let id' := "6ba7b810-9dad-11d1-80b4-00c04fd430c8" in
  let w := mkWorld (mkDB {[ id := InvoiceRow.mk 5000 Sent ]} []) None [] [] in
  let p := PaymentPayload.mk (Some "evt_1") (Some id') (Some (JsInt 5000)) in
  let s := PaymentActor.enqueue p (EventQueue.new, w) in
  "evt_1" ∉ processedEvents (fst (PaymentActor.deliver s)).
Proof.
  intros id id' w p s.
  destruct (delivery_marks_what_was_handled s p eq_refl) as (_ & Hiff & _).
  intros Hin. apply Hiff in Hin as [Hin|[reply Hok]].
  - vm_compute in Hin. discriminate Hin.
  - vm_compute in Hok. discriminate Hok.
Defined.

(** *** The running service *)

Lemma system_step_store s a :
  store (snd (PaymentSystem.step s a)) = store (snd s)
  ∨ ∃ p, store (snd (PaymentSystem.step s a)) = store (snd (handlePayment p (snd s))).
Proof.
  destruct a as [p|]; cbn [PaymentSystem.step].
  - left. rewrite paymentsRoute_eq.
    pose proof (checkInvoiceExists_store (js_string (PaymentPayload.invoice_id p)) (snd s)).
    destruct (checkInvoiceExists _ (snd s)) as [[[]|e] w']; cbn [fst snd] in *;
      [destruct (PaymentsRoute.isEventProcessed p s)|..]; assumption.
  - unfold PaymentActor.deliver, PaymentActor.handler, bind.
    destruct (awaiting (fst s)) as [payload|]; [|left; reflexivity].
    right. exists payload. destruct (handlePayment payload (snd s)) as [[reply|e] w'];
      reflexivity.
Qed.

(** Whatever requests arrive, whenever the handlers finish and whatever
    statements fail, the service keeps the constraints of the schema and
    appends to the payments table only; no event identifier is ever
    recorded twice, however often it is delivered. *)
Theorem service_records_each_event_once
    (acts : list PaymentSystem.Action) (s : PaymentActor.paymentQueue) :
  schema_ok (store (snd s)) →
  schema_ok (store (snd (PaymentSystem.run acts s)))
  ∧ payments (store (snd s)) `prefix_of` payments (store (snd (PaymentSystem.run acts s)))
  ∧ ∀ eid, (count_event eid (store (snd (PaymentSystem.run acts s))) <= 1)%nat.
Proof.
  intros Hok.
  assert (schema_ok (store (snd (PaymentSystem.run acts s)))
          ∧ payments (store (snd s))
              `prefix_of` payments (store (snd (PaymentSystem.run acts s)))) as [Hok' Hpre].
  { revert s Hok. induction acts as [|a acts IH]; intros s Hok; [split; [assumption|reflexivity]|].
    change (PaymentSystem.run (a :: acts) s)
      with (PaymentSystem.run acts (PaymentSystem.step s a)).
    destruct (system_step_store s a) as [Hs|[p Hs]].
    - destruct (IH (PaymentSystem.step s a)) as [H1 H2]; [rewrite Hs; assumption|].
      split; [assumption|]. rewrite <- Hs. assumption.
    - destruct (IH (PaymentSystem.step s a)) as [H1 H2];
        [rewrite Hs; apply handlePayment_schema_ok; assumption|].
      split; [assumption|]. etransitivity; [|exact H2]. rewrite Hs.
      apply handlePayment_prefix. }
  split; [assumption|]. split; [assumption|].
  intros eid. apply unique_event_counts_once, Hok'.
Qed.

Lemma service_records_each_event_once_witness :
  let id := "550e8400-e29b-41d4-a716-446655440000" in
  let w := mkWorld (mkDB {[ id := InvoiceRow.mk 5000 Sent ]} []) None [] [] in
  let p := PaymentPayload.mk (Some "evt_1") (Some id) (Some (JsInt 5000)) in
  let acts := [PaymentSystem.Request p; PaymentSystem.Request p;
               PaymentSystem.Deliver; PaymentSystem.Deliver; PaymentSystem.Request p] in
  (count_event "evt_1" (store (snd (PaymentSystem.run acts (EventQueue.new, w)))) <= 1)%nat.
Proof.
  intros id w p acts.
  apply (service_records_each_event_once acts (EventQueue.new, w)).
  repeat split; constructor.
Defined.

Lemma handshake_in_flight_called (cur : option PaymentPayload.t) l e :
  EventQueue.handshake PaymentPayload.event_id cur l = Some (Some e) →
  cur = Some e ∨ e ∈ called_events l.
Proof.
  revert cur. induction l as [|x l IH]; intros cur; cbn [EventQueue.handshake].
  - intros [= ->]. auto.
  - destruct x; cbn [called_events omap].
    + intros H. destruct (IH _ H); auto.
    + intros H. destruct (IH _ H); auto.
    + destruct cur; [discriminate|]. intros H. right.
      destruct (IH _ H) as [[= ->]|Hin]; [left|right; assumption].
    + destruct cur as [ev|]; [|discriminate].
      destruct (String.eqb _ _); [|discriminate].
      intros H. destruct (IH _ H) as [Hc|Hin]; [discriminate Hc|auto].
    + destruct cur as [ev|]; [|discriminate].
      destruct (String.eqb _ _); [|discriminate].
      intros H. destruct (IH _ H) as [Hc|Hin]; [discriminate Hc|auto].
Qed.

Lemma invoice_known_kept p' w p :
  invoice_known (store w) p → invoice_known (store (snd (handlePayment p' w))) p.
Proof. unfold invoice_known. apply (find_invoice_kept [p']). Qed.

Lemma system_step_backed s a : queue_is_backed s → queue_is_backed (PaymentSystem.step s a).
Proof.
  intros [Hinv Hback]. destruct a as [p|]; cbn [PaymentSystem.step].
  - rewrite paymentsRoute_eq.
    pose proof (checkInvoiceExists_store (js_string (PaymentPayload.invoice_id p)) (snd s)) as Hst.
    pose proof (checkInvoiceExists_ok (js_string (PaymentPayload.invoice_id p)) (snd s)) as Hok.
    unfold queue_is_backed, invoice_known in *.
    destruct (checkInvoiceExists _ (snd s)) as [[[]|e] w']; cbn [fst snd] in *;
      [destruct (PaymentsRoute.isEventProcessed p s); cbn [fst snd]|..];
      rewrite Hst; try (split; assumption).
    split; [apply enqueue_invariant; assumption|].
    destruct (Hok true eq_refl) as [_ Hok']. clear Hok. rename Hok' into Hok.
    symmetry in Hok. apply bool_decide_eq_true in Hok.
    intros p' Hp'.
    destruct (enqueue_cases PaymentPayload.event_id (fst s) p)
      as [[_ Heq]|[(_ & _ & Heq)|(_ & _ & next & rest & _ & Heq)]];
      rewrite Heq in Hp'; cbn [journal] in Hp'; rewrite pushed_events_app in Hp';
      apply elem_of_app in Hp' as [Hp'|Hp']; try (apply Hback, Hp');
      cbn in Hp'; try (apply elem_of_nil in Hp'; contradiction);
      apply list_elem_of_singleton in Hp' as ->; assumption.
  - unfold PaymentActor.deliver, PaymentActor.handler, bind.
    destruct (awaiting (fst s)) as [payload|] eqn:Ha; [|split; assumption].
    destruct (handlePayment payload (snd s)) as [[reply|e] w'] eqn:Hrun; cbn [fst snd ret];
      (split; [apply settle_invariant; assumption|]);
      intros p' Hp'; cbn [fst snd] in Hp' |- *;
      rewrite (proj2 (settle_owed PaymentPayload.event_id _ (fst s) Hinv)) in Hp';
      replace w' with (snd (handlePayment payload (snd s))) by (rewrite Hrun; reflexivity);
      apply invoice_known_kept, Hback, Hp'.
Qed.

Lemma system_run_backed acts s :
  queue_is_backed s → queue_is_backed (PaymentSystem.run acts s).
Proof.
  revert s. induction acts as [|a acts IH]; intros s Hs; [assumption|].
  apply (IH (PaymentSystem.step s a)), system_step_backed, Hs.
Qed.

(** The lookup of the route keeps [NotFoundError] away from the handler.
    In the service started with an empty queue, whatever requests arrive,
    whenever the handlers finish and whatever statements fail: the event
    in flight and the events on the backlog are for invoices that are in
    the tables, and [handlePayment] does not raise [NotFoundError] for the
    event in flight. *)
Theorem queued_events_have_their_invoice
    (acts : list PaymentSystem.Action) (w : World) (payload : PaymentPayload.t) :
  let s := PaymentSystem.run acts (EventQueue.new, w) in
  awaiting (fst s) = Some payload ∨ payload ∈ queue (fst s) →
  invoice_known (store (snd s)) payload
  ∧ (awaiting (fst s) = Some payload →
     ∀ m, fst (handlePayment payload (snd s)) ≠ Err (NotFoundError m)).
Proof.
  intros s Hin.
  assert (queue_is_backed s) as [Hinv Hback].
  { apply system_run_backed. split; [apply invariant_new|].
    intros p Hp. apply elem_of_nil in Hp. contradiction. }
  assert (invoice_known (store (snd s)) payload) as Hknown.
  { apply Hback. destruct Hinv as [Hh _ _ Hf _]. rewrite Hf. apply elem_of_app.
    destruct Hin as [Ha|Hq]; [left|right; assumption].
    rewrite Ha in Hh. apply handshake_in_flight_called in Hh as [Hc|Hc];
      [discriminate Hc|assumption]. }
  split; [assumption|]. intros _ m Herr.
  unfold handlePayment in Herr.
  destruct (negb _ || negb _); [discriminate Herr|].
  destruct (js_le_zero _); [discriminate Herr|].
  apply withTx_errors in Herr as [Herr|[w1 Hrun]]; [discriminate Herr|].
  apply (handlePayment_tx_err _ _ _ _ (store (snd s))) in Hrun
    as [[_ (u & Hu & Hnone)]|[reason Heq]]; [|discriminate Heq|reflexivity].
  destruct Hknown as [inv Hinv']. rewrite (find_invoice_uuid _ u) in Hinv' by assumption.
  congruence.
Qed.

Lemma queued_events_have_their_invoice_witness :
  let id := "550e8400-e29b-41d4-a716-446655440000" in
  let id' := "6ba7b810-9dad-11d1-80b4-00c04fd430c8" in
  let w := mkWorld (mkDB {[ id := InvoiceRow.mk 5000 Sent ]} []) None [] [] in
  let p1 := PaymentPayload.mk (Some "evt_1") (Some id) (Some (JsInt 5000)) in
  let p2 := PaymentPayload.mk (Some "evt_2") (Some id') (Some (JsInt 5000)) in
  let s := PaymentSystem.run [PaymentSystem.Request p2; PaymentSystem.Request p1]
             (EventQueue.new, w) in
  invoice_known (store (snd s)) p1.
Proof.
  intros id id' w p1 p2 s.
  apply (queued_events_have_their_invoice
           [PaymentSystem.Request p2; PaymentSystem.Request p1] w p1).
  left. reflexivity.
Defined.

(** *** The connection between two calls *)

Lemma withTx_leaves_no_transaction {A} (fn : M World A) w :
  tx w = None → tx (snd (withTx fn w)) = None.
Proof.
  intros Ht. rewrite withTx_run. unfold rolled_back.
  destruct (next_fault (faults w)); [exact Ht|].
  destruct (next_fault (tail (faults w))); [reflexivity|].
  destruct (fn (begun w)) as [[a|e] w1]; [|reflexivity].
  destruct (next_fault (faults w1)); reflexivity.
Qed.

Lemma handlePayment_leaves_no_transaction p w :
  tx w = None → tx (snd (handlePayment p w)) = None.
Proof.
  intros Ht. unfold handlePayment.
  destruct (negb _ || negb _); [exact Ht|].
  destruct (js_le_zero _); [exact Ht|].
  apply withTx_leaves_no_transaction, Ht.
Qed.

(** Every path through [withTx] ends the transaction it began before the
    client goes back to the pool.  So, whatever requests arrive, whenever
    the handlers finish and whatever calls to the driver fail, a
    connection that had no transaction open when the service started has
    none open between two calls: BEGIN is never sent inside a
    transaction, and no statement of one call is committed by another. *)
Theorem connection_is_left_clean
    (acts : list PaymentSystem.Action) (s : PaymentActor.paymentQueue) :
  tx (snd s) = None → tx (snd (PaymentSystem.run acts s)) = None.
Proof.
  revert s. induction acts as [|a acts IH]; intros s Ht; [exact Ht|].
  apply (IH (PaymentSystem.step s a)).
  destruct a as [p|]; cbn [PaymentSystem.step].
  - rewrite paymentsRoute_eq.
    pose proof (withTx_leaves_no_transaction
                  (invoice <- getInvoiceById (js_string (PaymentPayload.invoice_id p)) ;;
                   ret (bool_decide (invoice ≠ None)))%tx (snd s) Ht) as Hc.
    fold (checkInvoiceExists (js_string (PaymentPayload.invoice_id p))) in Hc.
    destruct (checkInvoiceExists _ (snd s)) as [[[]|e] w']; cbn [fst snd] in *;
      [destruct (PaymentsRoute.isEventProcessed p s)|..]; exact Hc.
  - unfold PaymentActor.deliver, PaymentActor.handler, bind.
    destruct (awaiting (fst s)) as [payload|]; [|exact Ht].
    pose proof (handlePayment_leaves_no_transaction payload (snd s) Ht) as Hc.
    destruct (handlePayment payload (snd s)) as [[reply|e] w']; exact Hc.
Qed.

(** A request and its delivery, with the COMMIT of the lookup and the
    ROLLBACK that follows it both failing. *)
Lemma connection_is_left_clean_witness :
  let id := "550e8400-e29b-41d4-a716-446655440000" in
  let w := mkWorld (mkDB {[ id := InvoiceRow.mk 5000 Sent ]} []) None
             [false; false; false; true; true] [] in
  let p := PaymentPayload.mk (Some "evt_1") (Some id) (Some (JsInt 5000)) in
  tx (snd (PaymentSystem.run [PaymentSystem.Request p; PaymentSystem.Request p;
                              PaymentSystem.Deliver] (EventQueue.new, w))) = None.
Proof.
  intros id w p. apply connection_is_left_clean. reflexivity.
Defined.
End ServiceBehindQueue.
